(** * NaturalSpeech2 alignment-and-conditioning pipeline

    A shallow embedding of the tensor bookkeeping of
    [TTS/tts/models/naturalspeech2.py]: the aligner front end
    ([_forward_aligner]), the duration expansion ([generate_attn]), the
    prompt segment size and complement mask of [forward], and the duration
    and length handling of [inference].

    Tensors are nested lists.  Integer valued tensors (lengths, masks,
    hard alignments, rounded durations) hold [Z]; raw network outputs that
    are rounded hold [Q] (every finite float is a rational); the pitch
    transforms are functions on [R]; the alignment potentials are of any type
    with the operations the search needs; indices into lists are [nat]. *)

From Stdlib Require Import ZArith List Lia Bool QArith Qround Qabs Lqa.
From Stdlib Require Import Reals Lra.
Import ListNotations.
Open Scope Z_scope.

(** ** Exceptions and results *)

Inductive Exn : Type :=
| AssertionError
| InvalidLengthError
| IndexError
| RuntimeError.

Inductive Result (A : Type) : Type :=
| Ok (a : A)
| Raise (e : Exn).

Arguments Ok {A} a.
Arguments Raise {A} e.

Definition bind {A B : Type} (r : Result A) (k : A -> Result B) : Result B :=
  match r with
  | Ok a => k a
  | Raise e => Raise e
  end.

Notation "x <- r ;; k" := (bind r (fun x => k))
  (at level 61, r at next level, right associativity).

(** ** Tensor helpers *)

(** [t.sum()] of a one dimensional integer tensor. *)
Definition tsum (t : list Z) : Z := fold_right Z.add 0 t.

(** [t.sum()] of a two dimensional integer tensor. *)
Definition tsum2 (t : list (list Z)) : Z := tsum (map tsum t).

(** [torch.max(t)], with 0 for the empty tensor. *)
Definition tmax (t : list Z) : Z := fold_right Z.max 0 t.

(** [torch.min(t).item()]; the empty tensor has no minimum. *)
Definition tmin (t : list Z) : option Z :=
  match t with
  | [] => None
  | x :: r => Some (fold_left Z.min r x)
  end.

(** [b.to(dtype)] on a boolean. *)
Definition b2z (b : bool) : Z := if b then 1 else 0.

(** Entry [(i, j)] of a matrix, 0 outside of it. *)
Definition entry (M : list (list Z)) (i j : nat) : Z := nth j (nth i M []) 0.

(** [unsqueeze(x_mask, -1) * unsqueeze(y_mask, 2)] for one utterance:
    the outer product of the phoneme mask and the frame mask. *)
Definition outer (xm ym : list Z) : list (list Z) :=
  map (fun a => map (fun b => a * b) ym) xm.

(** A map over two parallel batches. *)
Definition map2 {A B C : Type} (f : A -> B -> C) (l : list A) (l' : list B) : list C :=
  map (fun ab => f (fst ab) (snd ab)) (combine l l').

(** A map that also sees the position. *)
Definition mapi {A B : Type} (f : nat -> A -> B) (l : list A) : list B :=
  map (fun ja => f (fst ja) (snd ja)) (combine (seq 0 (length l)) l).

Module Helpers.

(** Modelled from the spec: [sequence_mask] of [TTS.tts.utils.helpers] is
    imported by the model and not part of the sources at hand.  Section 4.1:
    [mask(lengths, max_len)] has [mask[b][t] = (t < lengths[b])], [max_len]
    defaults to the maximum of [lengths], and a negative length fails with
    [InvalidLengthError]. *)
Definition sequence_mask (lengths : list Z) (max_len : option Z) : Result (list (list bool)) :=
  if existsb (fun l => l <? 0) lengths then Raise InvalidLengthError
  else
    let w := match max_len with Some w => w | None => tmax lengths end in
    Ok (map (fun l => map (fun t => Z.of_nat t <? l) (seq 0 (Z.to_nat w))) lengths).

(** Modelled from the spec: one row of the expansion map of [generate_path],
    the frames [lo <= j < hi] of a phoneme, masked. *)
Definition frame_row (lo hi : Z) (mrow : list Z) : list Z :=
  mapi (fun j mk => b2z ((lo <=? Z.of_nat j) && (Z.of_nat j <? hi)) * mk) mrow.

(** Modelled from the spec: the rows of the expansion map of
    [generate_path], [lo] being the frames used so far. *)
Fixpoint path_rows (lo : Z) (duration : list Z) (mask : list (list Z)) : list (list Z) :=
  match duration, mask with
  | d :: ds, mrow :: mrest => frame_row lo (lo + d) mrow :: path_rows (lo + d) ds mrest
  | _, _ => []
  end.

(** Modelled from the spec: [generate_path] of [TTS.tts.utils.helpers] is
    not part of the sources at hand.  Section 4.3: it "builds the frame-level
    one-hot assignment matrix directly from integer per-phoneme durations":
    phoneme [i] owns the [d_i] frames that follow the frames of the phonemes
    before it, inside the mask. *)
Definition generate_path (duration : list (list Z)) (mask : list (list (list Z)))
  : list (list (list Z)) :=
  map2 (path_rows 0) duration mask.

(** *** Monotonic alignment search *)

Section MonotonicAligner.

(** The alignment potentials are floating point numbers.  The search only
    adds them, takes their logarithm and compares them, so it is written
    over any type of values with these three operations. *)
Variable V : Type.
Variable vlog : V -> V.
Variable vadd : V -> V -> V.
Variable vgeb : V -> V -> bool.

(** A cumulative score; [None] is minus infinity, an unreachable position. *)
Definition score_add (x : V) (s : option V) : option V := option_map (vadd x) s.

(** [a >= b] on scores. *)
Definition score_geb (a b : option V) : bool :=
  match a, b with
  | _, None => true
  | None, Some _ => false
  | Some x, Some y => vgeb x y
  end.

Definition score_max (a b : option V) : option V :=
  if score_geb a b then a else b.

(** [P[i][j]], if the matrix has that position. *)
Definition lookup (P : list (list V)) (i j : nat) : option V :=
  match nth_error P i with
  | Some row => nth_error row j
  | None => None
  end.

Definition in_mask (mask : list (list Z)) (i j : nat) : bool :=
  negb (entry mask i j =? 0).

(** The score of the other predecessor: previous phoneme, frame [j']. *)
Definition from_previous (best_j' : nat -> option V) (i : nat) : option V :=
  match i with
  | O => None
  | S i' => best_j' i'
  end.

(** Modelled from the spec: [best[i][j]] of [maximum_path], the largest
    cumulative log-probability of a monotonic path that reaches phoneme [i]
    at frame [j]; positions outside the mask are unreachable, and only
    phoneme 0 can hold frame 0. *)
Fixpoint best (P : list (list V)) (mask : list (list Z)) (j i : nat) {struct j}
  : option V :=
  if in_mask mask i j then
    match lookup P i j with
    | None => None
    | Some v =>
        match j with
        | O => match i with
               | O => Some (vlog v)
               | S _ => None
               end
        | S j' =>
            score_add (vlog v)
              (score_max (best P mask j' i) (from_previous (best P mask j') i))
        end
    end
  else None.

(** Modelled from the spec: one backtracking step of [maximum_path].  The
    phoneme of frame [j'], given that frame [j' + 1] has phoneme [i], is the
    predecessor with the larger score, a tie staying on [i]. *)
Definition predecessor (P : list (list V)) (mask : list (list Z)) (j' i : nat) : nat :=
  if score_geb (best P mask j' i) (from_previous (best P mask j') i)
  then i else Nat.pred i.

(** Modelled from the spec: the backtracking of [maximum_path], giving the
    phonemes of the frames [0 .. j], frame [j] having phoneme [i]. *)
Fixpoint backtrack (P : list (list V)) (mask : list (list Z)) (j i : nat) : list nat :=
  match j with
  | O => [i]
  | S j' => backtrack P mask j' (predecessor P mask j' i) ++ [i]
  end.

(** Modelled from the spec: the valid sub-rectangle of a mask, read off its
    first column (valid phonemes) and its first row (valid frames). *)
Definition valid_phonemes (mask : list (list Z)) : nat :=
  length (filter (fun row => negb (hd 0 row =? 0)) mask).

Definition valid_frames (mask : list (list Z)) : nat :=
  length (filter (fun v => negb (v =? 0)) (hd [] mask)).

(** Modelled from the spec: the path [maximum_path] finds for one utterance,
    backtracking from the last valid phoneme at the last valid frame. *)
Definition search_path (P : list (list V)) (mask : list (list Z)) : list nat :=
  match valid_phonemes mask, valid_frames mask with
  | S last_phoneme, S last_frame => backtrack P mask last_frame last_phoneme
  | _, _ => []
  end.

End MonotonicAligner.

Arguments score_add {V} vadd x s.
Arguments score_geb {V} vgeb a b.
Arguments score_max {V} vgeb a b.
Arguments lookup {V} P i j.
Arguments from_previous {V} best_j' i.
Arguments best {V} vlog vadd vgeb P mask j i.
Arguments predecessor {V} vlog vadd vgeb P mask j' i.
Arguments backtrack {V} vlog vadd vgeb P mask j i.
Arguments search_path {V} vlog vadd vgeb P mask.

(** The 0/1 matrix, [T_en] by [T_de], of a frame-to-phoneme assignment. *)
Definition path_matrix (T_en T_de : nat) (p : list nat) : list (list Z) :=
  map (fun i =>
         map (fun j => b2z (match nth_error p j with
                            | Some i' => Nat.eqb i' i
                            | None => false
                            end))
             (seq 0 T_de))
      (seq 0 T_en).

(** Modelled from the spec: [maximum_path] of [TTS.tts.utils.helpers] is not
    part of the sources at hand.  Section 4.2: dynamic programming over the
    masked region with [best[i][j] = log P[i][j] + max(best[i][j-1],
    best[i-1][j-1])], [best[0][0] = log P[0][0]], positions outside the mask
    unreachable; backtracking from [best[last_phoneme][last_frame]] towards
    the predecessor with the larger value, a tie staying on the same
    phoneme; the output is the hard alignment matrix, one utterance
    independently of the others. *)
Definition maximum_path {V : Type} (vlog : V -> V) (vadd : V -> V -> V)
    (vgeb : V -> V -> bool) (value : list (list (list V))) (mask : list (list (list Z)))
  : list (list (list Z)) :=
  map2 (fun P m => path_matrix (length m) (length (hd [] m)) (search_path vlog vadd vgeb P m))
       value mask.

End Helpers.

Module Naturalspeech2.

Import Helpers.

(** [y_lengths = dr.sum(1).long(); y_lengths[y_lengths < 1] = 1]. *)
Definition derived_y_lengths (dr : list (list Z)) : list Z :=
  map (fun d => let s := tsum d in if s <? 1 then 1 else s) dr.

(** The decode mask [generate_attn] builds when [y_mask is None]. *)
Definition default_y_mask (dr : list (list Z)) : Result (list (list Z)) :=
  m <- sequence_mask (derived_y_lengths dr) None ;;
  Ok (map (map b2z) m).

(** [generate_attn(dr, x_mask, y_mask=None)]. *)
Definition generate_attn (dr : list (list Z)) (x_mask : list (list Z))
    (y_mask : option (list (list Z))) : Result (list (list (list Z))) :=
  y_mask' <- match y_mask with
             | None => default_y_mask dr
             | Some ym => Ok ym
             end ;;
  let attn_mask := map2 outer x_mask y_mask' in
  Ok (generate_path dr attn_mask).

(** [torch.stack([duration.sum() + 1 for duration in alignment_hard])], the
    [lengths] argument of [self.diffusion] in [forward]. *)
Definition forward_out_len (alignment_hard : list (list Z)) : list Z :=
  map (fun duration => tsum duration + 1) alignment_hard.

(** [torch.stack([duration.sum() + 1 for duration in durations_pred])], the
    [lengths] argument of [self.diffusion.ddpm] in [inference]; here
    [durations_pred] is [B, 1, T_en] and [duration] a [1, T_en] slice. *)
Definition inference_out_len (durations_pred : list (list (list Z))) : list Z :=
  map (fun duration => tsum2 duration + 1) durations_pred.

(** *** Prompt segment size and complement mask of [forward] *)

(** [random.randint(lo, hi)]: an integer of [lo .. hi], both ends included.
    The generator is an oracle: [draw] is the raw number it produces. *)
Definition randint (lo hi draw : Z) : Z := lo + draw mod (hi - lo + 1).

(** [p_size = random.randint(self.diff_segment_size-16, self.diff_segment_size+16)]. *)
Definition p_size (diff_segment_size draw : Z) : Z :=
  randint (diff_segment_size - 16) (diff_segment_size + 16) draw.

(** The [if torch.min(latents_lengths).item() > p_size] block of [forward];
    [int(m * 0.5)] truncates towards zero. *)
Definition seg_size_std (diff_segment_size draw : Z) (latents_lengths : list Z) : option Z :=
  let p := p_size diff_segment_size draw in
  match tmin latents_lengths with
  | None => None
  | Some m => Some (if m >? p then p else Z.quot m 2)
  end.

(** A bound of a Python slice, as [slice.indices] normalises it for a
    sequence of length [T]. *)
Definition py_index (T x : Z) : Z :=
  if x <? 0 then Z.max 0 (x + T) else Z.min x T.

(** [row[a:b] = v]. *)
Definition slice_assign {A : Type} (row : list A) (a b : Z) (v : A) : list A :=
  let T := Z.of_nat (length row) in
  let lo := py_index T a in
  let hi := py_index T b in
  mapi (fun t old => if (lo <=? Z.of_nat t) && (Z.of_nat t <? hi) then v else old) row.

(** [l[i] = f(l[i])]. *)
Fixpoint update_nth {A : Type} (i : nat) (f : A -> A) (l : list A) : list A :=
  match l, i with
  | [], _ => []
  | x :: r, O => f x :: r
  | x :: r, S i' => x :: update_nth i' f r
  end.

(** One turn of the loop
    [remaining_mask[i, :, segment_indices[i] : segment_indices[i] + seg_size_std] = 0]. *)
Definition remaining_mask_step (segment_indices : list Z) (seg_size_std : Z)
    (mask : Result (list (list (list bool)))) (i : nat) : Result (list (list (list bool))) :=
  m <- mask ;;
  match nth_error segment_indices i with
  | None => Raise IndexError
  | Some s =>
      Ok (update_nth i (map (fun row => slice_assign row s (s + seg_size_std) false)) m)
  end.

(** [remaining_mask = torch.ones_like(latents, dtype=torch.bool)] followed by
    the loop over [range(latents.size(0))]; [latents] is [B, C, T]. *)
Definition remaining_mask (B C T : nat) (segment_indices : list Z) (seg_size_std : Z)
  : Result (list (list (list bool))) :=
  fold_left (remaining_mask_step segment_indices seg_size_std) (seq 0 B)
            (Ok (repeat (repeat (repeat true T) C) B)).

(** What the loop over [range(B)] has done to utterance [b] of the mask. *)
Definition cleared (segment_indices : list Z) (seg : Z) (b : nat)
    (U : list (list bool)) : list (list bool) :=
  map (fun row => slice_assign row (nth b segment_indices 0)
                               (nth b segment_indices 0 + seg) false) U.

(** The positions of a mask row that hold [v]. *)
Definition positions (v : bool) (row : list bool) : list nat :=
  filter (fun t => Bool.eqb (nth t row true) v) (seq 0 (length row)).

(** The positions of a latent sequence of length [T] that the prompt segment
    starting at [s], [seg] frames long, occupies. *)
Definition segment_positions (T : nat) (s seg : Z) : list nat :=
  filter (fun t => (s <=? Z.of_nat t) && (Z.of_nat t <? s + seg)) (seq 0 T).

(** *** Durations of [inference] *)

(** [torch.round] on a finite value: the nearest integer, a tie going to the
    even one. *)
Definition torch_round (x : Q) : Z :=
  let f := Qfloor x in
  match Qcompare (x - inject_Z f) (1 # 2) with
  | Lt => f
  | Gt => f + 1
  | Eq => if Z.even f then f else f + 1
  end.

(** [durations_pred = torch.round(durations_pred) * 1.0]. *)
Definition inference_durations (raw : list (list (list Q))) : list (list (list Z)) :=
  map (map (map torch_round)) raw.

(** [t.squeeze(0)] where the next lines need the leading axis gone. *)
Definition squeeze0 {A : Type} (t : list A) : Result A :=
  match t with
  | [x] => Ok x
  | _ => Raise RuntimeError
  end.

(** [x.shape[1]]. *)
Definition shape1 {A : Type} (x : list (list A)) : Z := Z.of_nat (length (hd [] x)).

(** The duration part of [inference]: the token mask, the rounded durations,
    the expansion map and the lengths handed to the diffusion sampler.
    [raw] is the output of the duration predictor, [1, 1, T_en]. *)
Definition inference_expansion (x : list (list Z)) (raw : list (list (list Q)))
  : Result (list (list (list Z)) * list (list (list Z)) * list Z) :=
  let tokens_lens := [shape1 x] in
  m <- sequence_mask tokens_lens (Some (shape1 x)) ;;
  let tokens_mask := map (fun r => [map b2z r]) m in
  let durations_pred := inference_durations raw in
  dr <- squeeze0 durations_pred ;;
  xm <- squeeze0 tokens_mask ;;
  attn <- generate_attn dr xm None ;;
  Ok (durations_pred, attn, inference_out_len durations_pred).

(** The durations [inference] would use if they were also clamped at zero,
    as the description of the inference pass has it. *)
Definition clamped_durations (raw : list (list (list Q))) : list (list (list Z)) :=
  map (map (map (fun x => Z.max 0 (torch_round x)))) raw.

(** *** Aligner forward pass *)

(** The calls [_forward_aligner] makes, in the order it makes them. *)
Inductive Call : Type :=
| CallAligner
| CallMaximumPath.

(** [t.transpose(1, 2)] for one utterance; [w] is the number of columns. *)
Fixpoint transpose {A : Type} (w : nat) (M : list (list A)) : list (list A) :=
  match M with
  | [] => repeat [] w
  | row :: M' => map2 cons row (transpose w M')
  end.

Section Aligner.

Variable V : Type.
Variable vlog : V -> V.
Variable vadd : V -> V -> V.
Variable vgeb : V -> V -> bool.
Variable isnan : V -> bool.

(** Encoder outputs and the log-probabilities of the alignment network are
    handed through untouched. *)
Variables Enc LogProb : Type.

(** [self.aligner(queries, keys, mask, None)]: the soft alignment, here
    [B, T_de, T_en] with its unit axis dropped, and its log-probabilities. *)
Variable aligner : Enc -> Enc -> list (list Z) -> list (list (list V)) * LogProb.

(** [torch.isnan(t).any()]. *)
Definition has_nan (t : list (list (list V))) : bool :=
  existsb (existsb (existsb isnan)) t.

(** [_forward_aligner(x, y, x_mask, y_mask)]; the masks are [B, T_en] and
    [B, T_de], their unit axis dropped.  The result comes with the calls
    made. *)
Definition _forward_aligner (x y : Enc) (x_mask y_mask : list (list Z))
  : list Call *
    Result (list (list Z) * list (list (list V)) * LogProb * list (list (list Z))) :=
  let attn_mask := map2 outer x_mask y_mask in
  let (alignment_soft, alignment_logprob) := aligner y x x_mask in
  if has_nan alignment_soft then ([CallAligner], Raise AssertionError)
  else
    let soft_t := map2 (fun xm S => transpose (length xm) S) x_mask alignment_soft in
    let alignment_mas := maximum_path vlog vadd vgeb soft_t attn_mask in
    let alignment_hard := map (map tsum) alignment_mas in
    ([CallAligner; CallMaximumPath],
     Ok (alignment_hard, soft_t, alignment_logprob, alignment_mas)).

(** The masks of [forward] and its call of [_forward_aligner]:
    [tokens_mask = sequence_mask(tokens_lens, tokens.shape[1])],
    [mel_mask = sequence_mask(mel_lens, None)]. *)
Definition forward_alignment (phoneme_enc mel : Enc)
    (tokens_lens : list Z) (tokens_shape1 : Z) (mel_lens : list Z)
  : list Call *
    Result (list (list Z) * list (list (list V)) * LogProb * list (list (list Z))) :=
  match sequence_mask tokens_lens (Some tokens_shape1) with
  | Raise e => ([], Raise e)
  | Ok tokens_mask =>
      match sequence_mask mel_lens None with
      | Raise e => ([], Raise e)
      | Ok mel_mask =>
          _forward_aligner phoneme_enc mel
            (map (map b2z) tokens_mask) (map (map b2z) mel_mask)
      end
  end.

End Aligner.

Arguments has_nan {V} isnan t.
Arguments _forward_aligner {V} vlog vadd vgeb isnan {Enc LogProb} aligner x y x_mask y_mask.
Arguments forward_alignment {V} vlog vadd vgeb isnan {Enc LogProb} aligner
  phoneme_enc mel tokens_lens tokens_shape1 mel_lens.

(** *** Pitch transforms, on real numbers *)

Definition log10 (x : R) : R := (ln x / ln 10)%R.

(** [2595. * torch.log10(1. + pitch / 700.) / 500], the pitch target of
    [forward]. *)
Definition pitch_target (pitch : R) : R :=
  (2595 * log10 (1 + pitch / 700) / 500)%R.

(** [700 * (torch.pow(10, pitch_pred * 500 / 2595) - 1)] of [inference]. *)
Definition pitch_inverse (pitch_pred : R) : R :=
  (700 * (Rpower 10 (pitch_pred * 500 / 2595) - 1))%R.

End Naturalspeech2.

Import Helpers Naturalspeech2.

(** ** Hard alignments *)

(** The mask row of a sequence of [l] valid positions out of [T]. *)
Definition length_mask (l T : nat) : list Z :=
  map (fun t => b2z (Z.of_nat t <? Z.of_nat l)) (seq 0 T).

(** [torch.sum(alignment_mas, -1)] for one utterance: the durations. *)
Definition durations (H : list (list Z)) : list Z := map tsum H.

Definition column (H : list (list Z)) (j : nat) : list Z :=
  map (fun row => nth j row 0) H.

(** The first position of a column that holds 1. *)
Fixpoint first_one (col : list Z) : option nat :=
  match col with
  | [] => None
  | v :: col' => if v =? 1 then Some O else option_map S (first_one col')
  end.

(** The phonemes that hold a 1 in the frames [0 .. m-1] of [H]. *)
Definition frame_phonemes (H : list (list Z)) (m : nat) : list nat :=
  flat_map (fun j => match first_one (column H j) with
                     | Some i => [i]
                     | None => []
                     end) (seq 0 m).

(** Every valid frame of [H] has exactly one phoneme, a valid one. *)
Definition one_phoneme_per_frame (H : list (list Z)) (n m : nat) : Prop :=
  forall j, (j < m)%nat ->
    exists i, (i < n)%nat /\ entry H i j = 1 /\ forall i', i' <> i -> entry H i' j = 0.

(** The phoneme of a valid frame does not decrease as the frame index
    increases. *)
Definition phonemes_nondecreasing (H : list (list Z)) (m : nat) : Prop :=
  forall j1 j2 i1 i2, (j1 <= j2 < m)%nat ->
    entry H i1 j1 = 1 -> entry H i2 j2 = 1 -> (i1 <= i2)%nat.

(** The number of frames of a path that phoneme [i] holds, and the number
    held by the phonemes before [i]. *)
Definition occurrences (p : list nat) (i : nat) : Z :=
  tsum (map (fun k => b2z (Nat.eqb k i)) p).

Definition frames_before (p : list nat) (i : nat) : Z :=
  tsum (map (fun k => b2z (Nat.ltb k i)) p).

Fixpoint nondecreasing (p : list nat) : bool :=
  match p with
  | a :: (b :: _) as r => (a <=? b)%nat && nondecreasing r
  | _ => true
  end.

Fixpoint list_eqb {A : Type} (eqb : A -> A -> bool) (l l' : list A) : bool :=
  match l, l' with
  | [], [] => true
  | x :: r, y :: r' => eqb x y && list_eqb eqb r r'
  | _, _ => false
  end.

(** [H], with rows of [T_de] frames, is a hard alignment of [n] valid
    phonemes and [m] valid frames: every valid frame has one phoneme, a valid
    one, the phonemes do not decrease along the frames, and [H] is 1 at the
    phoneme of each valid frame and 0 everywhere else. *)
Definition is_hard_alignment (H : list (list Z)) (T_de n m : nat) : bool :=
  let p := frame_phonemes H m in
  (length p =? m)%nat && (m <=? T_de)%nat && (n <=? length H)%nat &&
  forallb (fun i => (i <? n)%nat) p && nondecreasing p &&
  list_eqb (list_eqb Z.eqb) H (path_matrix (length H) T_de p).


(** ** Selecting the frames outside the prompt *)

Module Selection.

(** The entries of one row where the mask holds, in order. *)
Definition select_row {A : Type} (row : list A) (mrow : list bool) : list A :=
  map fst (filter snd (combine row mrow)).

(** [t.masked_select(mask)] for a tensor and a mask of one shape,
    [B, C, T]: the entries where the mask holds, flattened in row-major
    order. *)
Definition masked_select {A : Type} (t : list (list (list A)))
    (mask : list (list (list bool))) : list A :=
  concat (map2 (fun U M => concat (map2 select_row U M)) t mask).

(** [count] consecutive pieces of [size] entries each. *)
Fixpoint chunks {A : Type} (count size : nat) (l : list A) : list (list A) :=
  match count with
  | O => []
  | S count' => firstn size l :: chunks count' size (skipn size l)
  end.

(** [flat.view(B, C, -1)]: the last axis is what is left of the entries; it
    cannot be inferred for an empty [B * C], and the entries must divide
    evenly. *)
Definition view3 {A : Type} (B C : nat) (flat : list A) : Result (list (list (list A))) :=
  if (B * C =? 0)%nat then Raise RuntimeError
  else if (length flat mod (B * C) =? 0)%nat
       then Ok (chunks B C (chunks (B * C) (length flat / (B * C)) flat))
       else Raise RuntimeError.

(** [t.masked_select(remaining_mask).view(t.shape[0], t.shape[1], -1)], as
    [forward] applies it to the denoised estimate and [train_step] to the
    latents. *)
Definition select_remaining {A : Type} (t : list (list (list A)))
    (remaining_mask : list (list (list bool))) : Result (list (list (list A))) :=
  view3 (length t) (length (hd [] t)) (masked_select t remaining_mask).

(** A row without the frames [s .. s + seg - 1]. *)
Definition cut_segment {A : Type} (s seg : nat) (row : list A) : list A :=
  firstn s row ++ skipn (s + seg) row.

End Selection.

(** ** Expanding encodings to frame rate *)

Module Expansion.

Section Einsum.

(** The encodings are floating point numbers; the expansion multiplies and
    adds them. *)
Variable V : Type.
Variable vzero vone : V.
Variable vadd vmul : V -> V -> V.

Definition vsum (l : list V) : V := fold_right vadd vzero l.

(** A 0/1 integer tensor in the number type of the encodings. *)
Definition of_bits (H : list (list Z)) : list (list V) :=
  map (map (fun z => if z =? 0 then vzero else vone)) H.

(** [torch.einsum("klmn, kjm -> kjn", [attn, enc])] for one batch element
    [k]: [attn] is [L, T_en, T_de], [enc] is [C, T_en], the result
    [C, T_de] with entry [(j, n)] the sum over [l] and [m] of
    [attn[l][m][n] * enc[j][m]]. *)
Definition einsum_lmn_jm (attn : list (list (list V))) (enc : list (list V))
  : list (list V) :=
  let T_de := length (hd [] (hd [] attn)) in
  map (fun erow =>
         map (fun n =>
                vsum (map (fun A =>
                             vsum (map2 (fun arow e => vmul (nth n arow vzero) e)
                                        A erow))
                          attn))
             (seq 0 T_de))
      enc.

Definition einsum_klmn_kjm (attn : list (list (list (list V))))
    (enc : list (list (list V))) : list (list (list V)) :=
  map2 einsum_lmn_jm attn enc.

(** [expand_encodings(phoneme_enc, attn, pitch)]; [pitch_emb] stands for
    [self.pitch_emb(f0_to_coarse(pitch).squeeze(1)).transpose(1,2)], the
    embedding of the quantised pitch, which is looked up elsewhere. *)
Definition expand_encodings (phoneme_enc : list (list (list V)))
    (attn : list (list (list (list V)))) (pitch_emb : list (list (list V)))
  : list (list (list V)) :=
  let expanded_dur := einsum_klmn_kjm attn phoneme_enc in
  let expanded_pitch := einsum_klmn_kjm attn pitch_emb in
  map2 (map2 (map2 vadd)) expanded_dur expanded_pitch.

(** The value a path gives frame [j] from a phoneme-rate row. *)
Definition at_phoneme (p : list nat) (erow : list V) (j : nat) : V :=
  match nth_error p j with
  | Some i => nth i erow vzero
  | None => vzero
  end.

End Einsum.

Arguments vsum {V} vzero vadd l.
Arguments of_bits {V} vzero vone H.
Arguments einsum_lmn_jm {V} vzero vadd vmul attn enc.
Arguments einsum_klmn_kjm {V} vzero vadd vmul attn enc.
Arguments expand_encodings {V} vzero vadd vmul phoneme_enc attn pitch_emb.
Arguments at_phoneme {V} vzero p erow j.

End Expansion.

(** ** Median filter *)

Module SpikeFilter.

Section Median.

(** The samples are floating point numbers; the filter only compares and
    copies them. *)
Variable A : Type.
Variable leb : A -> A -> bool.
Variable zero : A.

Fixpoint insert (x : A) (l : list A) : list A :=
  match l with
  | [] => [x]
  | y :: r => if leb x y then x :: l else y :: insert x r
  end.

Fixpoint sort (l : list A) : list A :=
  match l with
  | [] => []
  | x :: r => insert x (sort r)
  end.

(** [w.median()] of a one-dimensional window: the middle of its sorted
    values, the lower middle one when their number is even. *)
Definition median (w : list A) : A :=
  nth ((length w - 1) / 2) (sort w) zero.

(** [torch.nn.functional.pad(row, (p, p), mode='replicate')] on the last
    axis. *)
Definition replicate_pad (p : nat) (row : list A) : list A :=
  repeat (hd zero row) p ++ row ++ repeat (last row zero) p.

(** [padded[i : i + window_size]]. *)
Definition window (window_size : nat) (padded : list A) (i : nat) : list A :=
  firstn window_size (skipn i padded).

(** [remove_spikes(tensor, window_size)] on a [B, C, T] tensor; a window size
    is a count.  The result is [zeros_like(tensor)] with its row [0, 0]
    overwritten; the padding rejects an empty channel or time axis, and
    [padded_tensor[0, 0, ...]] needs a first utterance. *)
Definition remove_spikes (tensor : list (list (list A))) (window_size : nat)
  : Result (list (list (list A))) :=
  if Nat.even window_size then Raise AssertionError
  else
    let pad_size := (window_size / 2)%nat in
    match tensor with
    | [] => Raise IndexError
    | [] :: _ => Raise RuntimeError
    | ([] :: _) :: _ => Raise RuntimeError
    | (row :: channels) :: utterances =>
        let padded := replicate_pad pad_size row in
        let filtered :=
          map (fun i => median (window window_size padded i)) (seq 0 (length row)) in
        Ok ((filtered :: map (map (fun _ => zero)) channels)
              :: map (map (map (fun _ => zero))) utterances)
    end.

End Median.

Arguments insert {A} leb x l.
Arguments sort {A} leb l.
Arguments median {A} leb zero w.
Arguments replicate_pad {A} zero p row.
Arguments window {A} window_size padded i.
Arguments remove_spikes {A} leb zero tensor window_size.

End SpikeFilter.

(** A row whose samples do not decrease, for the order [leb]. *)
Fixpoint ascending {A : Type} (leb : A -> A -> bool) (l : list A) : bool :=
  match l with
  | a :: (b :: _) as r => leb a b && ascending leb r
  | _ => true
  end.


(** ** Dataset items and batches *)

Module Dataset.

Section Items.

(** The fields of a sample that [__getitem__] and [collate_fn] hand through
    untouched (raw text, file and speaker names, pitch) are one value of
    type [M]. *)
Variable M : Type.

(** What loading sample [idx] gives: [self.get_token_ids(idx, item["text"])]
    and [self.ap.load_wav(item["audio_file"], ...)]. *)
Record Sample : Type := {
  token_ids : list Z;
  wav : list Q;
  meta : M
}.

(** The dictionary [__getitem__] returns. *)
Record Item : Type := {
  item_token_ids : list Z;
  item_token_len : Z;
  item_wav : list Q;
  item_meta : M
}.

Definition item_of (s : Sample) : Item :=
  {| item_token_ids := token_ids s;
     item_token_len := Z.of_nat (length (token_ids s));
     item_wav := wav s;
     item_meta := meta s |}.

(** [len(token_ids) > self.max_text_len or wav.shape[1] < self.min_audio_len]. *)
Definition too_long_or_short (max_text_len min_audio_len : nat) (s : Sample) : bool :=
  (max_text_len <? length (token_ids s))%nat || (length (wav s) <? min_audio_len)%nat.

(** [__getitem__(idx)] with the counter [self.rescue_item_idx] threaded
    through: a sample that does not fit is replaced by the sample at the
    incremented counter, by a recursive call.  [fuel] bounds the depth of the
    recursion; [None] means the bound was reached. *)
Fixpoint getitem (fuel : nat) (samples : list Sample)
    (max_text_len min_audio_len : nat) (rescue_item_idx idx : nat)
  : nat * option (Result Item) :=
  match fuel with
  | O => (rescue_item_idx, None)
  | S fuel' =>
      match nth_error samples idx with
      | None => (rescue_item_idx, Some (Raise IndexError))
      | Some s =>
          if too_long_or_short max_text_len min_audio_len s
          then getitem fuel' samples max_text_len min_audio_len
                       (S rescue_item_idx) (S rescue_item_idx)
          else (rescue_item_idx, Some (Ok (item_of s)))
      end
  end.

(** [row[:n] = src] for tensors: the source must have as many entries as the
    slice, or a single entry, which is broadcast. *)
Definition setitem_prefix {A : Type} (row : list A) (n : Z) (src : list A)
  : Result (list A) :=
  let k := Z.to_nat (py_index (Z.of_nat (length row)) n) in
  if (length src =? k)%nat then Ok (src ++ skipn k row)
  else match src with
       | [x] => Ok (repeat x k ++ skipn k row)
       | _ => Raise RuntimeError
       end.

(** A loop whose turns may fail, collecting the rows it builds. *)
Fixpoint for_each {A B : Type} (f : A -> Result B) (l : list A) : Result (list B) :=
  match l with
  | [] => Ok []
  | a :: r => b <- f a ;; bs <- for_each f r ;; Ok (b :: bs)
  end.

Definition max_len (ls : list nat) : nat := fold_right Nat.max 0%nat ls.

(** The tensors of the dictionary [collate_fn] returns. *)
Record Collated : Type := {
  tokens : list (list Z);
  token_lens : list Z;
  token_rel_lens : list Q;
  waveform : list (list (list Q));
  waveform_lens : list Z;
  waveform_rel_lens : list Q;
  metas : list M
}.

(** [collate_fn(batch)].  [batch[0]] needs a first item.  The order found by
    [torch.sort] is used for its length only, so the loop runs over the
    items as they come.  Relative lengths are true divisions.  The pitch is
    formatted by [prepare_data], which is defined elsewhere, and goes with
    [metas]. *)
Definition collate_fn (pad_id : Z) (batch : list Item) : Result Collated :=
  match batch with
  | [] => Raise IndexError
  | _ :: _ =>
      let max_text_len := max_len (map (fun it => length (item_token_ids it)) batch) in
      let token_lens := map item_token_len batch in
      let wav_lens := map (fun it => Z.of_nat (length (item_wav it))) batch in
      let wav_lens_max := max_len (map (fun it => length (item_wav it)) batch) in
      rows <- for_each
                (fun it =>
                   t <- setitem_prefix (repeat pad_id max_text_len)
                          (item_token_len it) (item_token_ids it) ;;
                   w <- setitem_prefix (repeat (inject_Z pad_id) wav_lens_max)
                          (Z.of_nat (length (item_wav it))) (item_wav it) ;;
                   Ok (t, [w]))
                batch ;;
      Ok {| tokens := map fst rows;
            token_lens := token_lens;
            token_rel_lens :=
              map (fun l => (inject_Z l / inject_Z (tmax token_lens))%Q) token_lens;
            waveform := map snd rows;
            waveform_lens := wav_lens;
            waveform_rel_lens :=
              map (fun l => (inject_Z l / inject_Z (Z.of_nat wav_lens_max))%Q) wav_lens;
            metas := map item_meta batch |}
  end.

End Items.

Arguments token_ids {M} s.
Arguments wav {M} s.
Arguments meta {M} s.
Arguments item_token_ids {M} i.
Arguments item_token_len {M} i.
Arguments item_wav {M} i.
Arguments item_meta {M} i.
Arguments item_of {M} s.
Arguments too_long_or_short {M} max_text_len min_audio_len s.
Arguments getitem {M} fuel samples max_text_len min_audio_len rescue_item_idx idx.
Arguments collate_fn {M} pad_id batch.
Arguments tokens {M} c.
Arguments token_lens {M} c.
Arguments token_rel_lens {M} c.
Arguments waveform {M} c.
Arguments waveform_lens {M} c.
Arguments waveform_rel_lens {M} c.
Arguments metas {M} c.

End Dataset.

(** ** Frame lengths of a batch on the device *)

Module Batching.

(** [t.shape[-1]] of a [B, C, T] tensor with at least one row. *)
Definition shape_last {A : Type} (t : list (list (list A))) : nat :=
  length (hd [] (hd [] t)).

(** [torch.nn.functional.pad(t, (0, diff), mode='constant', value=0)]. *)
Definition pad_frames (diff : nat) (t : list (list (list Q))) : list (list (list Q)) :=
  map (map (fun row => row ++ repeat 0%Q diff)) t.

(** [x.int()] on a finite value: truncation towards zero. *)
Definition to_int (x : Q) : Z := Z.quot (Qnum x) (Zpos (Qden x)).

(** [(T * waveform_rel_lens).int()]. *)
Definition scaled_lens (T : nat) (rel_lens : list Q) : list Z :=
  map (fun r => to_int (inject_Z (Z.of_nat T) * r)%Q) rel_lens.

(** The padding adjustments and the frame lengths of
    [format_batch_on_device], from the latents of the codec and the mel
    spectrogram to the two assertions; the result is the two tensors with
    [mel_lens] and [latents_lens]. *)
Definition format_batch_lengths (latents mel : list (list (list Q)))
    (waveform_rel_lens : list Q)
  : Result (list (list (list Q)) * list (list (list Q)) * list Z * list Z) :=
  let (latents, mel) :=
    if (shape_last latents <? shape_last mel)%nat
    then (pad_frames (shape_last mel - shape_last latents) latents, mel)
    else if (shape_last mel <? shape_last latents)%nat
    then (latents, pad_frames (shape_last latents - shape_last mel) mel)
    else (latents, mel) in
  if negb (shape_last latents =? shape_last mel)%nat then Raise AssertionError
  else
    let mel_lens := scaled_lens (shape_last mel) waveform_rel_lens in
    let latents_lens := scaled_lens (shape_last latents) waveform_rel_lens in
    if negb (tsum (map2 Z.sub latents_lens mel_lens) =? 0) then Raise AssertionError
    else Ok (latents, mel, mel_lens, latents_lens).

End Batching.

(** ** Padding before the short-time Fourier transform *)

Module Spectrogram.

(** [int(a / 2)] on a Python integer: the true quotient, truncated towards
    zero. *)
Definition int_half (a : Z) : Z := Z.quot a 2.

(** [torch.nn.functional.pad(t, (p, p), mode="reflect")] on one row of the
    last axis.  The padding must be smaller than the row and leave at least
    one sample; a padding below zero crops. *)
Definition reflect_pad {A : Type} (p : Z) (row : list A) : Result (list A) :=
  let T := Z.of_nat (length row) in
  if T <=? p then Raise RuntimeError
  else if T + 2 * p <? 1 then Raise RuntimeError
  else if 0 <=? p then
    Ok (rev (firstn (Z.to_nat p) (tl row)) ++ row ++
        firstn (Z.to_nat p) (tl (rev row)))
  else Ok (firstn (Z.to_nat (T + 2 * p)) (skipn (Z.to_nat (- p)) row)).

(** [y.shape[-1]] of a [B, T] tensor. *)
Definition samples {A : Type} (y : list (list A)) : nat := length (hd [] y).

(** The signal [wav_to_spec] hands to [torch.stft]: [y], squeezed to
    [B, T], padded on both sides by [padding_]. *)
Definition wav_to_spec_pad {A : Type} (y : list (list A)) (n_fft hop_length : Z)
  : Result (list (list A)) :=
  let padding_ := Z.min (int_half (n_fft - hop_length)) (Z.of_nat (samples y) - 1) in
  Dataset.for_each (reflect_pad padding_) y.

(** The signal [wav_to_mel] hands to [torch.stft]. *)
Definition wav_to_mel_pad {A : Type} (y : list (list A)) (n_fft hop_length : Z)
  : Result (list (list A)) :=
  Dataset.for_each (reflect_pad (int_half (n_fft - hop_length))) y.

End Spectrogram.

(** ** Amplitude compression and min-max scaling, on real numbers *)

Module Scaling.

Local Open Scope R_scope.

(** [torch.log(torch.clamp(x, min=clip_val) * C)], element by element.  [ln]
    is the logarithm on positive reals, which is all a positive [clip_val]
    and a positive [C] let through. *)
Definition dynamic_range_compression (x : list R) (C clip_val : R) : list R :=
  map (fun v => ln (Rmax v clip_val * C)) x.

(** [torch.exp(x) / C]. *)
Definition dynamic_range_decompression (x : list R) (C : R) : list R :=
  map (fun v => exp v / C) x.

Definition _amp_to_db (x : list R) (C clip_val : R) : list R :=
  map (fun v => ln (Rmax v clip_val * C)) x.

Definition _db_to_amp (x : list R) (C : R) : list R :=
  map (fun v => exp v / C) x.

(** The defaults [C=1] and [clip_val=1e-5]. *)
Definition amp_to_db (magnitudes : list R) : list R :=
  _amp_to_db magnitudes 1 (1 / 100000).

Definition db_to_amp (magnitudes : list R) : list R :=
  _db_to_amp magnitudes 1.

(** [tensor.min()] and [tensor.max()] over all the elements; the empty
    tensor has neither. *)
Definition tensor_min (tensor : list R) : Result R :=
  match tensor with
  | [] => Raise RuntimeError
  | x :: r => Ok (fold_right Rmin x r)
  end.

Definition tensor_max (tensor : list R) : Result R :=
  match tensor with
  | [] => Raise RuntimeError
  | x :: r => Ok (fold_right Rmax x r)
  end.

(** [min_max_scaler], on the flattened tensor. *)
Definition min_max_scaler (tensor : list R) : Result (list R * R * R) :=
  min_val <- tensor_min tensor ;;
  max_val <- tensor_max tensor ;;
  let tensor_norm := map (fun v => (v - min_val) / (max_val - min_val)) tensor in
  Ok (tensor_norm, min_val, max_val).

Definition min_max_inverse_scaler (tensor_norm : list R) (min_val max_val : R)
  : list R :=
  map (fun v => v * (max_val - min_val) + min_val) tensor_norm.

End Scaling.

(** ** Inverse-frequency weights of the samples *)

Module Balancer.

(** What the weighting can raise: the [ValueError] of [list.index], or one
    of the exceptions above. *)
Inductive PyExn : Type :=
| ValueError
| Other (e : Exn).

Fixpoint traverse {X Y : Type} (f : X -> PyExn + Y) (l : list X) : PyExn + list Y :=
  match l with
  | [] => inr []
  | x :: r =>
      match f x with
      | inl e => inl e
      | inr y =>
          match traverse f r with
          | inl e => inl e
          | inr ys => inr (y :: ys)
          end
      end
  end.

Section Unique.

Variable X : Type.
Variable eqb leb : X -> X -> bool.

Fixpoint dedup (l : list X) : list X :=
  match l with
  | [] => []
  | x :: r => if existsb (eqb x) r then dedup r else x :: dedup r
  end.

(** [np.unique(a)]: the sorted values, each one once. *)
Definition unique (l : list X) : list X := SpikeFilter.sort leb (dedup l).

(** [l.index(x)]: the first position that holds [x]. *)
Fixpoint index (x : X) (l : list X) : PyExn + nat :=
  match l with
  | [] => inl ValueError
  | y :: r =>
      if eqb y x then inr 0%nat
      else match index x r with
           | inl e => inl e
           | inr k => inr (S k)
           end
  end.

(** [len(np.where(a == x)[0])]. *)
Definition count (x : X) (l : list X) : nat := length (filter (fun y => eqb y x) l).

End Unique.

Arguments dedup {X} eqb l.
Arguments unique {X} eqb leb l.
Arguments index {X} eqb x l.
Arguments count {X} eqb x l.

Definition Reqb (x y : R) : bool := if Req_dec_T x y then true else false.
Definition Rleb (x y : R) : bool := if Rle_dec x y then true else false.

(** [t.sum()] of real numbers. *)
Definition rsum (t : list R) : R := fold_right Rplus 0%R t.

(** [np.linalg.norm(v)]. *)
Definition norm (v : list R) : R := sqrt (rsum (map (fun w => (w * w)%R) v)).

Section Weights.

(** Items, the values of the attribute ([item[attr_name]]), their equality
    and the order [np.unique] sorts them by. *)
Variable Item A : Type.
Variable eqb leb : A -> A -> bool.

(** [multi_dict.get(k, default)]. *)
Definition get (multi_dict : list (A * R)) (k : A) (default : R) : R :=
  match find (fun kv => eqb (fst kv) k) multi_dict with
  | Some kv => snd kv
  | None => default
  end.

Definition get_attribute_balancer_weights (items : list Item) (attr_name : Item -> A)
    (multi_dict : option (list (A * R)))
  : PyExn + (list R * list A * list R) :=
  let attr_names_samples := map attr_name items in
  let unique_attr_names := unique eqb leb attr_names_samples in
  match traverse (fun l => index eqb l unique_attr_names) attr_names_samples with
  | inl e => inl e
  | inr attr_idx =>
      let attr_count := map (fun l => count eqb l attr_names_samples) unique_attr_names in
      let weight_attr := map (fun c => (1 / INR c)%R) attr_count in
      match traverse (fun l => match nth_error weight_attr l with
                               | Some w => inr w
                               | None => inl (Other IndexError)
                               end) attr_idx with
      | inl e => inl e
      | inr dataset_samples_weight =>
          let n := norm dataset_samples_weight in
          let dataset_samples_weight := map (fun w => (w / n)%R) dataset_samples_weight in
          match multi_dict with
          | None =>
              inr (dataset_samples_weight, unique_attr_names,
                   unique Reqb Rleb dataset_samples_weight)
          | Some d =>
              if forallb (fun kv => existsb (fun u => eqb u (fst kv)) unique_attr_names) d
              then
                let multiplier_samples := map (fun item => get d (attr_name item) 1%R) items in
                let dataset_samples_weight :=
                  map2 Rmult dataset_samples_weight multiplier_samples in
                inr (dataset_samples_weight, unique_attr_names,
                     unique Reqb Rleb dataset_samples_weight)
              else inl (Other AssertionError)
          end
      end
  end.

(** The weight that falls on the items whose attribute is [a]. *)
Definition class_weight (items : list Item) (attr_name : Item -> A) (a : A)
    (weights : list R) : R :=
  rsum (map snd (filter (fun iw => eqb (attr_name (fst iw)) a) (combine items weights))).

End Weights.

Arguments get {A} eqb multi_dict k default.
Arguments get_attribute_balancer_weights {Item A} eqb leb items attr_name multi_dict.
Arguments class_weight {Item A} eqb items attr_name a weights.

End Balancer.

(** ** Single precision arithmetic *)

Module Float32.

Local Open Scope Q_scope.

(** The finite values of a float32 tensor are rationals; [None] stands for a
    result that is not finite.  Addition and division of float32 values are
    correctly rounded: the exact result, rounded to the nearest value with a
    24 bit significand, a tie going to the even significand. *)

(** The exponent of a positive rational: [2 ^ e <= x < 2 ^ (e + 1)]. *)
Definition exponent (x : Q) : Z :=
  let e := (Z.log2 (Qnum x) - Z.log2 (Zpos (Qden x)))%Z in
  if Qle_bool (2 ^ e) x then e else (e - 1)%Z.

(** The nearest integer, a tie going to the even one. *)
Definition nearest_even (m : Q) : Z :=
  let f := Qfloor m in
  match Qcompare (m - inject_Z f) (1 # 2) with
  | Lt => f
  | Gt => (f + 1)%Z
  | Eq => if Z.even f then f else (f + 1)%Z
  end.

(** Rounding to float32: 24 bit significands, exponents from -126 (below it
    the spacing stays [2 ^ -149]) to 127. *)
Definition round32 (x : Q) : option Q :=
  if Qeq_bool x 0 then Some 0
  else
    let e := Z.max (exponent (Qabs x)) (-126) in
    let ulp := 2 ^ (e - 23) in
    let y := Qred (inject_Z (nearest_even (x / ulp)) * ulp) in
    if Qle_bool (2 ^ 128) (Qabs y) then None else Some y.

Definition add32 (x y : Q) : option Q := round32 (x + y).

(** Division by a non-zero value. *)
Definition div32 (x y : Q) : option Q := round32 (x / y).

(** [1. + pitch / 700.] on one element of the float32 pitch tensor, the
    argument of [torch.log10] in the pitch target of [forward]. *)
Definition pitch_shifted (pitch : Q) : option Q :=
  match div32 pitch 700 with
  | Some q => add32 1 q
  | None => None
  end.

(** A float32 computation gives the value [f]. *)
Definition returns (r : option Q) (f : Q) : Prop :=
  match r with
  | Some v => v == f
  | None => False
  end.

End Float32.

(** ** A worked example

    Three phonemes and five frames, scores in additive score space: phoneme 0
    dominates frames 0-1, phoneme 1 frames 2-3, phoneme 2 frame 4.  The soft
    alignment is given as the alignment network returns it, frames first. *)

Definition example_soft : list (list (list Z)) :=
  [[[9; 1; 1]; [9; 1; 1]; [1; 9; 1]; [1; 9; 1]; [1; 1; 9]]].

Definition example_aligner (_ _ : unit) (_ : list (list Z))
  : list (list (list Z)) * unit :=
  (example_soft, tt).

(** [_forward_aligner] on integer scores, which are never NaN. *)
Definition example_forward_aligner (lens : list (nat * nat)) (T_en T_de : nat) :=
  _forward_aligner (fun v : Z => v) Z.add Z.geb (fun _ => false) example_aligner tt tt
    (map (fun nm => length_mask (fst nm) T_en) lens)
    (map (fun nm => length_mask (snd nm) T_de) lens).

(** ** Basic facts on tensors *)

Lemma tmax_ge (t : list Z) (x : Z) : In x t -> x <= tmax t.
Proof.
  induction t as [|y t IH]; simpl; [tauto|].
  intros [->|Hin]; [lia|]. specialize (IH Hin). lia.
Qed.

Lemma tmax_nonneg (t : list Z) : 0 <= tmax t.
Proof. induction t as [|y t IH]; simpl; lia. Qed.

Lemma mapi_length {A B : Type} (f : nat -> A -> B) (l : list A) :
  length (mapi f l) = length l.
Proof.
  unfold mapi. rewrite length_map, length_combine, length_seq. lia.
Qed.

Lemma derived_y_lengths_max (dr : list (list Z)) :
  derived_y_lengths dr = map (fun d => Z.max 1 (tsum d)) dr.
Proof.
  unfold derived_y_lengths. apply map_ext. intros d. cbv zeta.
  destruct (Z.ltb_spec (tsum d) 1); lia.
Qed.

Lemma derived_y_lengths_pos (dr : list (list Z)) :
  Forall (fun l => 1 <= l) (derived_y_lengths dr).
Proof.
  rewrite derived_y_lengths_max. apply Forall_forall. intros l Hl.
  apply in_map_iff in Hl. destruct Hl as [d [<- _]]. lia.
Qed.

Lemma derived_y_lengths_no_negative (dr : list (list Z)) :
  existsb (fun l => l <? 0) (derived_y_lengths dr) = false.
Proof.
  destruct (existsb _ _) eqn:E; [|reflexivity].
  apply existsb_exists in E. destruct E as [l [Hl Hneg]].
  pose proof (derived_y_lengths_pos dr) as Hpos.
  rewrite Forall_forall in Hpos. specialize (Hpos l Hl).
  apply Z.ltb_lt in Hneg. lia.
Qed.

(** ** Output length of [generate_attn] *)

Lemma default_y_mask_ok (dr : list (list Z)) :
  default_y_mask dr =
  Ok (map (fun l => map (fun t => b2z (Z.of_nat t <? l))
                        (seq 0 (Z.to_nat (tmax (derived_y_lengths dr)))))
          (derived_y_lengths dr)).
Proof.
  unfold default_y_mask, sequence_mask.
  rewrite derived_y_lengths_no_negative. simpl.
  f_equal. rewrite map_map. apply map_ext. intros l. now rewrite map_map.
Qed.

Lemma path_rows_width (w : nat) (mask : list (list Z)) :
  Forall (fun r => length r = w) mask ->
  forall lo duration, Forall (fun r => length r = w) (path_rows lo duration mask).
Proof.
  induction 1 as [|mrow mrest Hrow Hrest IH]; intros lo [|d ds]; simpl;
    try constructor.
  - unfold frame_row. now rewrite mapi_length.
  - apply IH.
Qed.

Lemma outer_width (xm ym : list Z) :
  Forall (fun r => length r = length ym) (outer xm ym).
Proof.
  unfold outer. apply Forall_forall. intros r Hr.
  apply in_map_iff in Hr. destruct Hr as [a [<- _]]. apply length_map.
Qed.

Lemma generate_path_width (w : nat) (x_mask y_mask : list (list Z)) (dr : list (list Z)) :
  Forall (fun r => length r = w) y_mask ->
  Forall (Forall (fun r => length r = w)) (generate_path dr (map2 outer x_mask y_mask)).
Proof.
  intros Hy. unfold generate_path, map2. apply Forall_forall. intros U HU.
  apply in_map_iff in HU. destruct HU as [[d M] [<- HdM]]. simpl.
  apply in_combine_r in HdM. apply in_map_iff in HdM.
  destruct HdM as [[xm ym] [<- Hin]]. simpl.
  apply in_combine_r in Hin. rewrite Forall_forall in Hy.
  apply path_rows_width. rewrite <- (Hy ym Hin). apply outer_width.
Qed.

Lemma tsum_app (a b : list Z) : tsum (a ++ b) = tsum a + tsum b.
Proof. induction a as [|x a IH]; simpl; [reflexivity|]. rewrite IH. lia. Qed.

Lemma tsum_prefix_mask (l : Z) (w : nat) :
  tsum (map (fun t => b2z (Z.of_nat t <? l)) (seq 0 w)) = Z.max 0 (Z.min (Z.of_nat w) l).
Proof.
  induction w as [|w IH]; [simpl; lia|].
  rewrite seq_S, map_app, tsum_app, IH. simpl. unfold b2z.
  destruct (Z.ltb_spec (Z.of_nat w) l); lia.
Qed.

Lemma Forall2_map_self {A B : Type} (P : A -> B -> Prop) (f : A -> B) (l : list A) :
  (forall a, In a l -> P a (f a)) -> Forall2 P l (map f l).
Proof.
  induction l as [|a l IH]; simpl; intros H; constructor.
  - apply H. now left.
  - apply IH. intros b Hb. apply H. now right.
Qed.

Lemma path_rows_length (mask : list (list Z)) :
  forall lo duration,
    length (path_rows lo duration mask) = Nat.min (length duration) (length mask).
Proof.
  induction mask as [|mrow mrest IH]; intros lo [|d ds]; simpl; try reflexivity.
  now rewrite IH.
Qed.

Lemma generate_path_shape (w : nat) (dr x_mask y_mask : list (list Z)) :
  Forall2 (fun d xm => length xm = length d) dr x_mask ->
  Forall2 (fun (d : list Z) ym => length ym = w) dr y_mask ->
  Forall2 (fun d U => length U = length d /\ Forall (fun row => length row = w) U)
          dr (generate_path dr (map2 outer x_mask y_mask)).
Proof.
  intros Hx. revert y_mask.
  induction Hx as [|d xm dr' x_mask' Hlen _ IH]; intros y_mask Hy.
  - constructor.
  - inversion Hy as [|? ym ? y_mask' Hw Hy']; subst.
    unfold generate_path, map2. cbn [combine map fst snd]. constructor.
    + split.
      * rewrite path_rows_length. unfold outer. rewrite length_map. lia.
      * apply path_rows_width. apply outer_width.
    + apply (IH y_mask' Hy').
Qed.

(** C10.  Called without an output mask on durations [dr] and a phoneme mask
    of the same shape, [generate_attn] derives for each utterance the output
    length [max 1 (sum of its durations)] and succeeds.  The decode mask has
    one row per utterance, as long as the longest derived length and open on
    exactly the derived length of its utterance; the generated expansion map
    has one matrix per utterance, with one row per phoneme, and every row is
    as long as the longest derived length, which is at least one frame as
    soon as there is an utterance, whatever the durations are. *)
Theorem generate_attn_default_length (dr x_mask : list (list Z)) :
  Forall2 (fun d xm => length xm = length d) dr x_mask ->
  let T_de := Z.to_nat (tmax (derived_y_lengths dr)) in
  derived_y_lengths dr = map (fun d => Z.max 1 (tsum d)) dr /\
  Forall (fun l => 1 <= l) (derived_y_lengths dr) /\
  (dr <> [] -> (1 <= T_de)%nat) /\
  exists y_mask attn,
    default_y_mask dr = Ok y_mask /\
    generate_attn dr x_mask None = Ok attn /\
    attn = generate_path dr (map2 outer x_mask y_mask) /\
    Forall2 (fun d ym => length ym = T_de /\ tsum ym = Z.max 1 (tsum d)) dr y_mask /\
    Forall2 (fun d U => length U = length d /\
                        Forall (fun row => length row = T_de) U) dr attn.
Proof.
  intros Hx T_de.
  split; [apply derived_y_lengths_max|].
  split; [apply derived_y_lengths_pos|].
  split.
  { intros Hne. destruct dr as [|d dr']; [congruence|].
    assert (Hin : In (Z.max 1 (tsum d)) (derived_y_lengths (d :: dr'))).
    { rewrite derived_y_lengths_max. now left. }
    pose proof (tmax_ge _ _ Hin). subst T_de. lia. }
  assert (Hy : Forall2 (fun d ym => length ym = T_de /\ tsum ym = Z.max 1 (tsum d)) dr
                 (map (fun l => map (fun t => b2z (Z.of_nat t <? l)) (seq 0 T_de))
                      (derived_y_lengths dr))).
  { subst T_de. generalize (tmax_ge (derived_y_lengths dr)).
    generalize (tmax (derived_y_lengths dr)). intros mx Hmx.
    unfold derived_y_lengths in *.
    rewrite map_map. apply Forall2_map_self. intros d Hd.
    split; [now rewrite length_map, length_seq|].
    rewrite tsum_prefix_mask.
    assert (Hle : (let s := tsum d in if s <? 1 then 1 else s) <= mx).
    { apply Hmx. apply in_map_iff. now exists d. }
    cbv zeta in *. destruct (Z.ltb_spec (tsum d) 1); lia. }
  eexists. eexists.
  split; [apply default_y_mask_ok|].
  split; [unfold generate_attn; rewrite default_y_mask_ok; reflexivity|].
  split; [reflexivity|].
  split; [exact Hy|].
  apply generate_path_shape; [exact Hx|].
  eapply Forall2_impl; [|exact Hy]. now intros d ym [H _].
Qed.

Lemma generate_attn_default_length_witness :
  exists attn,
    generate_attn [[0; 0]; [3; 2]] [[1; 1]; [1; 1]] None = Ok attn /\
    Forall2 (fun (d : list Z) U => length U = length d /\
                                   Forall (fun row : list Z => length row = 5%nat) U)
            [[0; 0]; [3; 2]] attn.
Proof.
  destruct (generate_attn_default_length [[0; 0]; [3; 2]] [[1; 1]; [1; 1]]
              ltac:(repeat constructor))
    as [_ [_ [_ [y_mask [attn [_ [Hg [_ [_ Hs]]]]]]]]].
  exists attn. split; [exact Hg|exact Hs].
Defined.

(** ** Lengths handed to the diffusion model *)

(** C9, as stated, fails: for the durations [2; 2; 1] (five frames) both
    orchestrators hand the length 6 to the diffusion model, not the sum of
    the durations. *)
Lemma out_len_not_duration_sum :
  forward_out_len [[2; 2; 1]] <> map tsum [[2; 2; 1]] /\
  inference_out_len [[[2; 2; 1]]] <> map tsum2 [[[2; 2; 1]]].
Proof. split; discriminate. Qed.

(** C9, amended.  For every utterance, the length that [forward] and
    [inference] pass to the diffusion model is the sum of the utterance's
    per-phoneme durations plus one. *)
Theorem out_len_is_duration_sum_plus_one
    (alignment_hard : list (list Z)) (durations_pred : list (list (list Z))) :
  Forall2 (fun duration len => len = tsum duration + 1 /\ len <> tsum duration)
          alignment_hard (forward_out_len alignment_hard) /\
  Forall2 (fun duration len => len = tsum2 duration + 1 /\ len <> tsum2 duration)
          durations_pred (inference_out_len durations_pred).
Proof.
  split; apply Forall2_map_self; intros d _; lia.
Qed.

(** ** Prompt segment size *)

Lemma randint_range (lo hi draw : Z) :
  lo <= hi -> lo <= randint lo hi draw <= hi.
Proof.
  intros H. unfold randint.
  pose proof (Z.mod_pos_bound draw (hi - lo + 1)). lia.
Qed.

Lemma randint_onto (lo hi v : Z) :
  lo <= v <= hi -> randint lo hi (v - lo) = v.
Proof.
  intros H. unfold randint. rewrite Z.mod_small; lia.
Qed.

Lemma fold_min_le (r : list Z) (x : Z) :
  fold_left Z.min r x <= x /\ forall l, In l r -> fold_left Z.min r x <= l.
Proof.
  revert x. induction r as [|y r IH]; intros x; simpl.
  - split; [lia|tauto].
  - destruct (IH (Z.min x y)) as [H1 H2]. split; [lia|].
    intros l [<-|Hl]; [lia|now apply H2].
Qed.

Lemma fold_min_in (r : list Z) (x : Z) :
  fold_left Z.min r x = x \/ In (fold_left Z.min r x) r.
Proof.
  revert x. induction r as [|y r IH]; intros x; simpl; [now left|].
  destruct (IH (Z.min x y)) as [H|H]; [|now right; right].
  rewrite H. destruct (Z.min_spec x y) as [[_ ->]|[_ ->]]; [now left|now right; left].
Qed.

Lemma tmin_spec (t : list Z) (m : Z) :
  tmin t = Some m -> In m t /\ forall l, In l t -> m <= l.
Proof.
  destruct t as [|x r]; simpl; [discriminate|]. intros [= <-].
  destruct (fold_min_le r x) as [H1 H2]. split.
  - destruct (fold_min_in r x) as [->|H]; [now left|now right].
  - intros l [<-|Hl]; [exact H1|now apply H2].
Qed.

(** C5, as stated, fails twice.  A batch whose shortest utterance has one
    valid frame gets the segment size 0; and in the batch of lengths 10 and
    14 with the drawn size 32, the utterance of length 14 is shorter than
    half the drawn size, yet its segment size is 5, not half of 14. *)
Lemma seg_size_std_counterexample :
  (exists seg, seg_size_std 48 0 [1; 100] = Some seg /\ seg < 1) /\
  (p_size 48 0 = 32 /\ 14 < 32 / 2 /\
   exists seg, seg_size_std 48 0 [10; 14] = Some seg /\ seg <> 14 / 2).
Proof.
  split.
  - exists 0. split; [reflexivity|lia].
  - split; [reflexivity|]. split; [reflexivity|].
    exists 5. split; [reflexivity|discriminate].
Qed.

(** C5, amended.  One target size [p] is drawn per batch, within 16 of the
    configured base size (ends included), and one segment size serves every
    utterance of the batch: [p] itself when the shortest valid length of the
    batch is greater than [p], half that shortest length (rounded towards
    zero) otherwise.  With non-negative lengths and a base of at least 16 the
    size lies between 0 and the shortest length; it is at least 1 when the
    shortest length is at least 2 and the base above 16. *)
Theorem seg_size_std_batch_minimum (base draw : Z) (latents_lengths : list Z) (m : Z) :
  tmin latents_lengths = Some m ->
  let p := p_size base draw in
  let seg := if m >? p then p else Z.quot m 2 in
  base - 16 <= p <= base + 16 /\
  In m latents_lengths /\ (forall l, In l latents_lengths -> m <= l) /\
  seg_size_std base draw latents_lengths = Some seg /\
  (0 <= m -> 16 <= base -> 0 <= seg <= m) /\
  (2 <= m -> 16 < base -> 1 <= seg).
Proof.
  intros Hm p seg.
  assert (Hp : base - 16 <= p <= base + 16) by (apply randint_range; lia).
  destruct (tmin_spec _ _ Hm) as [Hin Hmin].
  split; [exact Hp|]. split; [exact Hin|]. split; [exact Hmin|].
  split; [unfold seg_size_std; rewrite Hm; reflexivity|].
  subst seg. fold p.
  destruct (Z.gtb_spec m p) as [Hgt|Hle].
  - split; intros; lia.
  - split; intros H0 Hb.
    + pose proof (Z.quot_pos m 2 H0). 
      assert (Z.quot m 2 <= m) by (apply Z.quot_le_upper_bound; lia). lia.
    + assert (1 <= Z.quot m 2) by (apply Z.quot_le_lower_bound; lia). lia.
Qed.

Lemma seg_size_std_batch_minimum_witness :
  tmin [10; 14] = Some 10 /\
  seg_size_std 48 0 [10; 14] = Some 5.
Proof.
  split; [reflexivity|].
  exact (proj1 (proj2 (proj2 (proj2
           (seg_size_std_batch_minimum 48 0 [10; 14] 10 eq_refl))))).
Defined.

(** ** Rounding of the predicted durations *)

Section TorchRound.

Local Open Scope Q_scope.

Lemma torch_round_cases (x : Q) :
  let f := Qfloor x in
  inject_Z f <= x /\ x < inject_Z f + 1 /\
  ((x - inject_Z f < 1 # 2 /\ torch_round x = f) \/
   (1 # 2 < x - inject_Z f /\ torch_round x = (f + 1)%Z) \/
   (x - inject_Z f == 1 # 2 /\ Z.even f = true /\ torch_round x = f) \/
   (x - inject_Z f == 1 # 2 /\ Z.even f = false /\ torch_round x = (f + 1)%Z)).
Proof.
  intros f. split; [apply Qfloor_le|]. split.
  - pose proof (Qlt_floor x) as H. fold f in H.
    rewrite inject_Z_plus in H. exact H.
  - unfold torch_round. fold f.
    destruct (Qcompare_spec (x - inject_Z f) (1 # 2)) as [He|Hl|Hg].
    + destruct (Z.even f) eqn:E; [right; right; left|right; right; right]; auto.
    + left. auto.
    + right; left. auto.
Qed.

Lemma inject_Z_le_m1 (f : Z) : (f <= -1)%Z -> inject_Z f <= -1.
Proof. intros H. change (-1) with (inject_Z (-1)). now rewrite <- Zle_Qle. Qed.

Lemma inject_Z_ge_0 (f : Z) : (0 <= f)%Z -> 0 <= inject_Z f.
Proof. intros H. change 0 with (inject_Z 0). now rewrite <- Zle_Qle. Qed.

Lemma torch_round_nearest (x : Q) :
  Qabs (x - inject_Z (torch_round x)) <= 1 # 2.
Proof.
  apply Qabs_Qle_condition.
  destruct (torch_round_cases x) as [Hlo [Hhi H]]. cbv zeta in *.
  destruct H as [[H ->]|[[H ->]|[[H [_ ->]]|[H [_ ->]]]]];
    try rewrite inject_Z_plus; change (inject_Z 1) with 1;
    split; Lqa.lra.
Qed.

Lemma torch_round_nonneg (x : Q) :
  (0 <= torch_round x)%Z <-> - (1 # 2) <= x.
Proof.
  destruct (torch_round_cases x) as [Hlo [Hhi H]]. cbv zeta in *.
  destruct (Z_le_gt_dec 0 (Qfloor x)) as [Hf|Hf].
  - pose proof (inject_Z_ge_0 _ Hf).
    split; [intros _; Lqa.lra|intros _].
    destruct H as [[H ->]|[[H ->]|[[H [_ ->]]|[H [_ ->]]]]]; lia.
  - assert (Hf' : (Qfloor x <= -1)%Z) by lia.
    pose proof (inject_Z_le_m1 _ Hf') as Hq.
    destruct H as [[H E]|[[H E]|[[H [Ev E]]|[H [Ev E]]]]]; rewrite E.
    + split; [lia|intros; Lqa.lra].
    + destruct (Z.eq_dec (Qfloor x) (-1)) as [Heq|Hne].
      * rewrite Heq in *. split; [intros _|lia].
        change (inject_Z (-1)) with (-1) in H. Lqa.lra.
      * assert (Hf2 : (Qfloor x + 1 <= -1)%Z) by lia.
        pose proof (inject_Z_le_m1 _ Hf2) as Hq2.
        rewrite inject_Z_plus in Hq2. change (inject_Z 1) with 1 in Hq2.
        split; [lia|intros; Lqa.lra].
    + destruct (Z.eq_dec (Qfloor x) (-1)) as [Heq|Hne].
      * rewrite Heq in Ev. discriminate.
      * assert (Hf2 : (Qfloor x + 1 <= -1)%Z) by lia.
        pose proof (inject_Z_le_m1 _ Hf2) as Hq2.
        rewrite inject_Z_plus in Hq2. change (inject_Z 1) with 1 in Hq2.
        split; [lia|intros; Lqa.lra].
    + destruct (Z.eq_dec (Qfloor x) (-1)) as [Heq|Hne].
      * rewrite Heq in *. split; [intros _|lia].
        change (inject_Z (-1)) with (-1) in H. Lqa.lra.
      * assert (Hf2 : (Qfloor x + 1 <= -1)%Z) by lia.
        pose proof (inject_Z_le_m1 _ Hf2) as Hq2.
        rewrite inject_Z_plus in Hq2. change (inject_Z 1) with 1 in Hq2.
        split; [lia|intros; Lqa.lra].
Qed.

End TorchRound.

(** C4, as stated, fails: a predicted duration of -3/2 is rounded to -2 and
    used as it is; nothing clamps it at zero. *)
Lemma inference_durations_not_clamped :
  inference_durations [[[(-3) # 2]]] = [[[-2]]] /\
  inference_durations [[[(-3) # 2]]] <> clamped_durations [[[(-3) # 2]]] /\
  exists attn ol,
    inference_expansion [[7]] [[[(-3) # 2]]] = Ok ([[[-2]]], attn, ol).
Proof.
  split; [reflexivity|]. split; [discriminate|].
  eexists. eexists. vm_compute. reflexivity.
Qed.

(** C4, amended.  The per-phoneme durations from which [inference] builds
    the expansion map are the raw predicted durations rounded to the nearest
    integer (a tie going to the even integer); they are not clamped: a
    rounded duration is non-negative exactly when the prediction is at
    least -1/2. *)
Theorem inference_durations_rounded
    (x : list (list Z)) (raw : list (list (list Q)))
    (dp attn : list (list (list Z))) (ol : list Z) :
  inference_expansion x raw = Ok (dp, attn, ol) ->
  dp = inference_durations raw /\
  (exists dr xm, squeeze0 dp = Ok dr /\ generate_attn dr xm None = Ok attn) /\
  Forall2 (Forall2 (Forall2 (fun r d =>
     d = torch_round r /\
     (Qabs (r - inject_Z d) <= 1 # 2)%Q /\
     (0 <= d <-> (- (1 # 2) <= r)%Q)))) raw dp.
Proof.
  unfold inference_expansion. intros H.
  destruct (sequence_mask _ _) as [m|e]; simpl in H; [|discriminate].
  destruct (squeeze0 (inference_durations raw)) as [dr|e] eqn:Edr;
    simpl in H; [|discriminate].
  destruct (squeeze0 _) as [xm|e] in H; simpl in H; [|discriminate].
  destruct (generate_attn dr xm None) as [a|e] eqn:Ea; simpl in H; [|discriminate].
  injection H as <- <- <-.
  split; [reflexivity|]. split; [now exists dr, xm|].
  unfold inference_durations.
  apply Forall2_map_self. intros U _.
  apply Forall2_map_self. intros r _.
  apply Forall2_map_self. intros q _.
  split; [reflexivity|]. split; [apply torch_round_nearest|apply torch_round_nonneg].
Qed.

Lemma inference_durations_rounded_witness :
  inference_expansion [[7; 8]] [[[3 # 2; (-3) # 2]]]
    = Ok ([[[2; -2]]], [[[1]; [0]]], [1]) /\
  [[[2; -2]]] = inference_durations [[[3 # 2; (-3) # 2]]].
Proof.
  split; [reflexivity|].
  exact (proj1 (inference_durations_rounded [[7; 8]] [[[3 # 2; (-3) # 2]]]
                  [[[2; -2]]] [[[1]; [0]]] [1] eq_refl)).
Defined.

(** ** Complement mask of the prompt segment *)

Lemma nth_error_mapi_from {A B : Type} (f : nat -> A -> B) (l : list A) (a t : nat) :
  nth_error (map (fun ja => f (fst ja) (snd ja)) (combine (seq a (length l)) l)) t
  = option_map (f (a + t)%nat) (nth_error l t).
Proof.
  revert a t. induction l as [|x l IH]; intros a t; simpl.
  - now destruct t.
  - destruct t as [|t]; simpl.
    + now rewrite Nat.add_0_r.
    + rewrite IH. now rewrite Nat.add_succ_r.
Qed.

Lemma nth_error_mapi {A B : Type} (f : nat -> A -> B) (l : list A) (t : nat) :
  nth_error (mapi f l) t = option_map (f t) (nth_error l t).
Proof. unfold mapi. now rewrite nth_error_mapi_from. Qed.

Lemma nth_mapi {A B : Type} (f : nat -> A -> B) (l : list A) (t : nat) (da : A) (db : B) :
  (t < length l)%nat -> nth t (mapi f l) db = f t (nth t l da).
Proof.
  intros Ht. apply nth_error_nth. rewrite nth_error_mapi.
  now rewrite (nth_error_nth' l da Ht).
Qed.

Lemma slice_assign_length {A : Type} (row : list A) (a b : Z) (v : A) :
  length (slice_assign row a b v) = length row.
Proof. unfold slice_assign. apply mapi_length. Qed.

Lemma slice_assign_nth {A : Type} (row : list A) (a b : Z) (v d : A) (t : nat) :
  0 <= a -> 0 <= b -> (t < length row)%nat ->
  nth t (slice_assign row a b v) d =
  if (a <=? Z.of_nat t) && (Z.of_nat t <? b) then v else nth t row d.
Proof.
  intros Ha Hb Ht. unfold slice_assign. rewrite (nth_mapi _ _ _ d d Ht).
  unfold py_index.
  destruct (Z.ltb_spec a 0); [lia|]. destruct (Z.ltb_spec b 0); [lia|].
  replace (Z.min a (Z.of_nat (length row)) <=? Z.of_nat t) with (a <=? Z.of_nat t)
    by (destruct (Z.leb_spec a (Z.of_nat t)), (Z.leb_spec (Z.min a (Z.of_nat (length row))) (Z.of_nat t)); lia).
  replace (Z.of_nat t <? Z.min b (Z.of_nat (length row))) with (Z.of_nat t <? b)
    by (destruct (Z.ltb_spec (Z.of_nat t) b), (Z.ltb_spec (Z.of_nat t) (Z.min b (Z.of_nat (length row)))); lia).
  reflexivity.
Qed.

Lemma update_nth_length {A : Type} (i : nat) (f : A -> A) (l : list A) :
  length (update_nth i f l) = length l.
Proof.
  revert i. induction l as [|x l IH]; intros [|i]; simpl; auto.
Qed.

Lemma update_nth_lookup {A : Type} (i j : nat) (f : A -> A) (l : list A) :
  nth_error (update_nth i f l) j =
  if Nat.eqb j i then option_map f (nth_error l j) else nth_error l j.
Proof.
  revert i j. induction l as [|x l IH]; intros [|i] [|j]; simpl; auto.
  all: now destruct (Nat.eqb _ _).
Qed.

Lemma remaining_mask_loop (segment_indices : list Z) (seg : Z) (k : nat) :
  forall (a : nat) (m : list (list (list bool))),
    (a + k <= length segment_indices)%nat ->
    exists m',
      fold_left (remaining_mask_step segment_indices seg) (seq a k) (Ok m) = Ok m' /\
      length m' = length m /\
      forall b, nth_error m' b =
                if (a <=? b)%nat && (b <? a + k)%nat
                then option_map (cleared segment_indices seg b) (nth_error m b)
                else nth_error m b.
Proof.
  induction k as [|k IH]; intros a m Hlen; simpl.
  - exists m. split; [reflexivity|]. split; [reflexivity|]. intros b.
    destruct (Nat.leb_spec a b), (Nat.ltb_spec b (a + 0)); simpl; auto; lia.
  - assert (Ha : (a < length segment_indices)%nat) by lia.
    rewrite (nth_error_nth' segment_indices 0 Ha).
    destruct (IH (S a) (update_nth a (cleared segment_indices seg a) m)) as [m' [Hf [Hl Hb]]];
      [lia|].
    exists m'. split; [exact Hf|]. split; [now rewrite Hl, update_nth_length|].
    intros b. rewrite Hb, update_nth_lookup.
    destruct (Nat.eqb_spec b a) as [->|Hne].
    + replace ((S a <=? a)%nat) with false by (symmetry; apply Nat.leb_gt; lia).
      replace ((a <=? a)%nat) with true by (symmetry; apply Nat.leb_le; lia).
      replace ((a <? a + S k)%nat) with true by (symmetry; apply Nat.ltb_lt; lia).
      reflexivity.
    + destruct (Nat.leb_spec (S a) b), (Nat.leb_spec a b),
        (Nat.ltb_spec b (S a + k)), (Nat.ltb_spec b (a + S k)); simpl; auto; lia.
Qed.

Lemma nth_error_repeat_lt {A : Type} (x : A) (n i : nat) :
  (i < n)%nat -> nth_error (repeat x n) i = Some x.
Proof.
  revert i. induction n as [|n IH]; intros [|i] H; simpl; try lia; auto.
  apply IH. lia.
Qed.

Lemma cleared_row (segment_indices : list Z) (seg : Z) (b C T : nat) (row : list bool) (s : Z) :
  nth_error segment_indices b = Some s -> 0 <= s -> 0 <= seg ->
  In row (cleared segment_indices seg b (repeat (repeat true T) C)) ->
  length row = T /\
  forall t, (t < T)%nat ->
    nth t row true = negb ((s <=? Z.of_nat t) && (Z.of_nat t <? s + seg)).
Proof.
  intros Hs Hs0 Hseg Hin. unfold cleared in Hin.
  apply in_map_iff in Hin. destruct Hin as [r [<- Hr]].
  apply repeat_spec in Hr. subst r.
  rewrite (nth_error_nth _ _ 0 Hs).
  split; [now rewrite slice_assign_length, repeat_length|].
  intros t Ht. rewrite slice_assign_nth; try lia; [|now rewrite repeat_length].
  destruct (_ && _); [reflexivity|].
  apply nth_error_nth. now apply nth_error_repeat_lt.
Qed.

(** C6.  For every utterance of the batch, the remaining mask of [forward]
    is false exactly on the positions of the sampled prompt segment (start
    index [s], [seg_size_std] frames) and true on every other position of
    the latent sequence, in every channel: the false positions are the
    segment's positions, no position is both false and true, and the false
    and true positions together are all positions. *)
Theorem remaining_mask_complement
    (B C T : nat) (segment_indices : list Z) (seg_size_std : Z) :
  length segment_indices = B ->
  Forall (fun s => 0 <= s) segment_indices ->
  0 <= seg_size_std ->
  exists mask,
    remaining_mask B C T segment_indices seg_size_std = Ok mask /\
    length mask = B /\
    forall b s, nth_error segment_indices b = Some s ->
      exists U, nth_error mask b = Some U /\ length U = C /\
        forall row, In row U ->
          length row = T /\
          (forall t, (t < T)%nat ->
             (nth t row true = false <-> s <= Z.of_nat t < s + seg_size_std) /\
             (nth t row true = true <-> ~ (s <= Z.of_nat t < s + seg_size_std))) /\
          positions false row = segment_positions T s seg_size_std /\
          (forall t, ~ (In t (positions false row) /\ In t (positions true row))) /\
          (forall t, (t < T)%nat -> In t (positions false row) \/ In t (positions true row)).
Proof.
  intros HB Hidx Hseg. unfold remaining_mask.
  destruct (remaining_mask_loop segment_indices seg_size_std B 0
              (repeat (repeat (repeat true T) C) B)) as [mask [Hf [Hl Hb]]]; [lia|].
  exists mask. split; [exact Hf|]. rewrite repeat_length in Hl. split; [exact Hl|].
  intros b s Hs.
  assert (HbB : (b < B)%nat).
  { rewrite <- HB. apply nth_error_Some. congruence. }
  assert (Hs0 : 0 <= s).
  { rewrite Forall_forall in Hidx. apply Hidx. eapply nth_error_In; eauto. }
  specialize (Hb b). rewrite (nth_error_repeat_lt _ _ _ HbB) in Hb.
  replace ((0 <=? b)%nat && (b <? 0 + B)%nat) with true in Hb
    by (symmetry; apply andb_true_iff; split; [apply Nat.leb_le|apply Nat.ltb_lt]; lia).
  simpl in Hb. eexists. split; [exact Hb|].
  split; [unfold cleared; now rewrite length_map, repeat_length|].
  intros row Hrow.
  destruct (cleared_row _ _ _ _ _ _ _ Hs Hs0 Hseg Hrow) as [Hlen Hnth].
  assert (Hpt : forall t, (t < T)%nat ->
            (nth t row true = false <-> s <= Z.of_nat t < s + seg_size_std) /\
            (nth t row true = true <-> ~ (s <= Z.of_nat t < s + seg_size_std))).
  { intros t Ht. rewrite (Hnth t Ht).
    destruct (Z.leb_spec s (Z.of_nat t)), (Z.ltb_spec (Z.of_nat t) (s + seg_size_std));
      simpl; split; split; intros; try lia; try discriminate; try reflexivity. }
  split; [exact Hlen|]. split; [exact Hpt|].
  split; [|split].
  - unfold positions, segment_positions. rewrite Hlen.
    apply filter_ext_in. intros t Ht. apply in_seq in Ht.
    rewrite Hnth by lia. now destruct (_ && _).
  - unfold positions. intros t [H1 H2].
    apply filter_In in H1, H2. destruct H1 as [_ H1], H2 as [_ H2].
    destruct (nth t row true); discriminate.
  - unfold positions. intros t Ht. rewrite !filter_In, Hlen.
    assert (In t (seq 0 T)) by (apply in_seq; lia).
    destruct (nth t row true); [right|left]; auto.
Qed.

Lemma remaining_mask_complement_witness :
  exists mask,
    remaining_mask 2 1 4 [1; 0] 2 = Ok mask /\
    nth_error mask 0 = Some [[true; false; false; true]].
Proof.
  destruct (remaining_mask_complement 2 1 4 [1; 0] 2 eq_refl
              ltac:(repeat constructor; easy) ltac:(easy)) as [mask [H _]].
  exists mask. split; [exact H|].
  vm_compute in H. injection H as <-. reflexivity.
Defined.

(** ** Pitch transforms *)

Section Pitch.

Local Open Scope R_scope.

Lemma ln_10_pos : 0 < ln 10.
Proof. rewrite <- ln_1. apply ln_increasing; Lra.lra. Qed.

Lemma Rpower_10_log10 (y : R) : 0 < y -> Rpower 10 (log10 y) = y.
Proof.
  intros Hy. unfold Rpower, log10.
  pose proof ln_10_pos as H10.
  replace (ln y / ln 10 * ln 10) with (ln y) by (field; Lra.lra).
  now apply exp_ln.
Qed.

Lemma log10_Rpower_10 (x : R) : log10 (Rpower 10 x) = x.
Proof.
  unfold Rpower, log10. rewrite ln_exp.
  pose proof ln_10_pos as H10. field. Lra.lra.
Qed.

(** The other composition: the training transform undoes the inference
    transform on every predicted value. *)
Lemma pitch_target_of_inverse (p : R) : pitch_target (pitch_inverse p) = p.
Proof.
  unfold pitch_target, pitch_inverse.
  replace (1 + 700 * (Rpower 10 (p * 500 / 2595) - 1) / 700)
    with (Rpower 10 (p * 500 / 2595)) by field.
  rewrite log10_Rpower_10. field.
Qed.

(** C7.  On real numbers, the transform of [inference],
    [700 * (10 ^ (p * 500 / 2595) - 1)], undoes the transform of the training
    targets, [2595 * log10 (1 + f / 700) / 500], on every non-negative pitch
    [f]. *)
Theorem pitch_inverse_of_target (f : R) :
  0 <= f -> pitch_inverse (pitch_target f) = f.
Proof.
  intros Hf. unfold pitch_target, pitch_inverse.
  replace (2595 * log10 (1 + f / 700) / 500 * 500 / 2595)
    with (log10 (1 + f / 700)) by field.
  rewrite Rpower_10_log10 by Lra.lra. field.
Qed.

Lemma pitch_inverse_of_target_witness :
  pitch_inverse (pitch_target 440) = 440.
Proof. apply pitch_inverse_of_target. Lra.lra. Defined.

End Pitch.

(** ** NaN check of the aligner *)

Lemma has_nan_spec {V : Type} (isnan : V -> bool) (t : list (list (list V))) :
  has_nan isnan t = true <->
  exists U row v, In U t /\ In row U /\ In v row /\ isnan v = true.
Proof.
  unfold has_nan. split.
  - intros H. apply existsb_exists in H. destruct H as [U [HU H]].
    apply existsb_exists in H. destruct H as [row [Hrow H]].
    apply existsb_exists in H. destruct H as [v [Hv H]].
    now exists U, row, v.
  - intros [U [row [v [HU [Hrow [Hv H]]]]]].
    apply existsb_exists. exists U. split; [exact HU|].
    apply existsb_exists. exists row. split; [exact Hrow|].
    apply existsb_exists. now exists v.
Qed.

(** C8.  [_forward_aligner] checks the soft alignment for NaN entries after
    the alignment network and before the alignment search: a soft alignment
    with a NaN entry anywhere makes it fail with [AssertionError], and the
    search is not among the calls made. *)
Theorem forward_aligner_nan_is_fatal
    {V : Type} (vlog : V -> V) (vadd : V -> V -> V) (vgeb : V -> V -> bool)
    (isnan : V -> bool) {Enc LogProb : Type}
    (aligner : Enc -> Enc -> list (list Z) -> list (list (list V)) * LogProb)
    (x y : Enc) (x_mask y_mask : list (list Z)) :
  (exists U row v, In U (fst (aligner y x x_mask)) /\ In row U /\ In v row /\
                   isnan v = true) ->
  _forward_aligner vlog vadd vgeb isnan aligner x y x_mask y_mask
    = ([CallAligner], Raise AssertionError) /\
  ~ In CallMaximumPath
       (fst (_forward_aligner vlog vadd vgeb isnan aligner x y x_mask y_mask)).
Proof.
  intros Hnan. apply has_nan_spec in Hnan.
  unfold _forward_aligner. destruct (aligner y x x_mask) as [soft lp].
  simpl in Hnan. rewrite Hnan. split; [reflexivity|].
  simpl. intros [H|[]]. discriminate.
Qed.

(** Without a NaN entry the search is called, after the alignment network. *)
Lemma forward_aligner_calls
    {V : Type} (vlog : V -> V) (vadd : V -> V -> V) (vgeb : V -> V -> bool)
    (isnan : V -> bool) {Enc LogProb : Type}
    (aligner : Enc -> Enc -> list (list Z) -> list (list (list V)) * LogProb)
    (x y : Enc) (x_mask y_mask : list (list Z)) :
  has_nan isnan (fst (aligner y x x_mask)) = false ->
  fst (_forward_aligner vlog vadd vgeb isnan aligner x y x_mask y_mask)
    = [CallAligner; CallMaximumPath].
Proof.
  intros Hnan. unfold _forward_aligner.
  destruct (aligner y x x_mask) as [soft lp]. simpl in Hnan. now rewrite Hnan.
Qed.

Lemma forward_aligner_nan_is_fatal_witness :
  _forward_aligner (fun v : option Z => v)
     (fun a b => match a, b with Some p, Some q => Some (p + q) | _, _ => None end)
     (fun a b => match a, b with Some p, Some q => q <=? p | _, _ => false end)
     (fun v => match v with None => true | Some _ => false end)
     (fun (_ _ : unit) (_ : list (list Z)) => ([[[Some 1; None]; [Some 2; Some 3]]], tt))
     tt tt [[1; 1]] [[1; 1]]
  = ([CallAligner], Raise AssertionError).
Proof.
  apply forward_aligner_nan_is_fatal.
  exists [[Some 1; None]; [Some 2; Some 3]], [Some 1; None], None.
  simpl. repeat split; auto.
Defined.

(** ** Paths and their matrices *)

Lemma nth_map_seq {A : Type} (f : nat -> A) (n k : nat) (d : A) :
  (k < n)%nat -> nth k (map f (seq 0 n)) d = f k.
Proof.
  intros Hk. apply nth_error_nth.
  rewrite nth_error_map, nth_error_seq.
  destruct (Nat.ltb_spec k n); [reflexivity|lia].
Qed.

Lemma path_matrix_length (T_en T_de : nat) (p : list nat) :
  length (path_matrix T_en T_de p) = T_en.
Proof. unfold path_matrix. now rewrite length_map, length_seq. Qed.

Lemma entry_path_matrix (T_en T_de : nat) (p : list nat) (i j : nat) :
  entry (path_matrix T_en T_de p) i j =
  if (i <? T_en)%nat && (j <? T_de)%nat
  then b2z (match nth_error p j with Some i' => Nat.eqb i' i | None => false end)
  else 0.
Proof.
  unfold entry, path_matrix.
  destruct (Nat.ltb_spec i T_en) as [Hi|Hi]; simpl.
  - rewrite nth_map_seq by exact Hi.
    destruct (Nat.ltb_spec j T_de) as [Hj|Hj].
    + now rewrite nth_map_seq by exact Hj.
    + apply nth_overflow. now rewrite length_map, length_seq.
  - rewrite (nth_overflow _ []) by (now rewrite length_map, length_seq).
    now destruct j.
Qed.

Lemma nondecreasing_cons (a : nat) (p : list nat) :
  nondecreasing (a :: p) = true ->
  nondecreasing p = true /\ Forall (fun b => (a <= b)%nat) p.
Proof.
  revert a. induction p as [|b p IH]; intros a H.
  - split; [reflexivity|constructor].
  - simpl in H. apply andb_true_iff in H. destruct H as [Hab Hp].
    apply Nat.leb_le in Hab. split; [exact Hp|].
    constructor; [exact Hab|].
    destruct (IH b Hp) as [_ Hall].
    eapply Forall_impl; [|exact Hall]. simpl. intros c Hc. lia.
Qed.

Lemma nondecreasing_snoc (p : list nat) (i : nat) :
  nondecreasing p = true -> Forall (fun k => (k <= i)%nat) p ->
  nondecreasing (p ++ [i]) = true.
Proof.
  induction p as [|a p IH]; intros Hs Hall; [reflexivity|].
  inversion Hall as [|? ? Ha Hp]; subst.
  destruct p as [|b p].
  - simpl. rewrite andb_true_r. now apply Nat.leb_le.
  - simpl in Hs. apply andb_true_iff in Hs. destruct Hs as [Hab Hs].
    change (nondecreasing (a :: (b :: p) ++ [i]) = true).
    simpl. rewrite Hab. simpl. apply IH; assumption.
Qed.

Lemma nondecreasing_nth (p : list nat) :
  nondecreasing p = true ->
  forall j1 j2 a b, (j1 <= j2)%nat ->
    nth_error p j1 = Some a -> nth_error p j2 = Some b -> (a <= b)%nat.
Proof.
  induction p as [|c p IH]; intros Hs j1 j2 a b Hj H1 H2.
  - now destruct j1.
  - destruct (nondecreasing_cons _ _ Hs) as [Hp Hall].
    destruct j1 as [|j1], j2 as [|j2]; simpl in *.
    + injection H1 as <-. injection H2 as <-. lia.
    + injection H1 as <-. rewrite Forall_forall in Hall.
      apply Hall. eapply nth_error_In; eauto.
    + lia.
    + apply (IH Hp j1 j2 a b); [lia|assumption|assumption].
Qed.

(** ** The backtracked path *)

Section Backtrack.

Context {V : Type}.
Variable vlog : V -> V.
Variable vadd : V -> V -> V.
Variable vgeb : V -> V -> bool.
Variable P : list (list V).
Variable mask : list (list Z).

Lemma predecessor_le (j' i : nat) :
  (predecessor vlog vadd vgeb P mask j' i <= i)%nat.
Proof. unfold predecessor. destruct (score_geb _ _ _); lia. Qed.

Lemma backtrack_spec (j : nat) :
  forall i,
    length (backtrack vlog vadd vgeb P mask j i) = S j /\
    Forall (fun k => (k <= i)%nat) (backtrack vlog vadd vgeb P mask j i) /\
    nondecreasing (backtrack vlog vadd vgeb P mask j i) = true.
Proof.
  induction j as [|j IH]; intros i; simpl.
  - split; [reflexivity|]. split; [repeat constructor|reflexivity].
  - destruct (IH (predecessor vlog vadd vgeb P mask j i)) as [Hl [Hall Hs]].
    pose proof (predecessor_le j i) as Hle.
    assert (Hall' : Forall (fun k => (k <= i)%nat)
                      (backtrack vlog vadd vgeb P mask j
                         (predecessor vlog vadd vgeb P mask j i))).
    { eapply Forall_impl; [|exact Hall]. simpl. intros k Hk. lia. }
    split; [rewrite length_app, Hl; simpl; lia|].
    split.
    + apply Forall_app. split; [exact Hall'|repeat constructor].
    + now apply nondecreasing_snoc.
Qed.

End Backtrack.

(** ** Rectangular masks *)

Lemma filter_map_length {A B : Type} (f : B -> bool) (g : A -> B) (l : list A) :
  length (filter f (map g l)) = length (filter (fun x => f (g x)) l).
Proof.
  induction l as [|x l IH]; simpl; [reflexivity|].
  destruct (f (g x)); simpl; now rewrite IH.
Qed.

Lemma count_below (l T : nat) :
  length (filter (fun t => negb (b2z (Z.of_nat t <? Z.of_nat l) =? 0)) (seq 0 T))
  = Nat.min l T.
Proof.
  induction T as [|T IH]; [now rewrite Nat.min_0_r|].
  rewrite seq_S, filter_app, length_app, IH. simpl.
  destruct (Z.ltb_spec (Z.of_nat T) (Z.of_nat l)); simpl; lia.
Qed.

Lemma length_mask_count (l T : nat) :
  length (filter (fun v => negb (v =? 0)) (length_mask l T)) = Nat.min l T.
Proof. unfold length_mask. rewrite filter_map_length. apply count_below. Qed.

Lemma length_mask_length (l T : nat) : length (length_mask l T) = T.
Proof. unfold length_mask. now rewrite length_map, length_seq. Qed.

Lemma length_mask_head (l T : nat) :
  (1 <= l)%nat -> (1 <= T)%nat -> exists r, length_mask l T = 1 :: r.
Proof.
  intros Hl HT. destruct T as [|T]; [lia|].
  unfold length_mask. simpl. eexists.
  destruct (Z.ltb_spec 0 (Z.of_nat l)); [reflexivity|lia].
Qed.

Lemma length_mask_nth (l T j : nat) :
  nth j (length_mask l T) 0 = b2z ((j <? l)%nat && (j <? T)%nat).
Proof.
  unfold length_mask. destruct (Nat.ltb_spec j T) as [Hj|Hj].
  - rewrite nth_map_seq by exact Hj. rewrite andb_true_r.
    destruct (Z.ltb_spec (Z.of_nat j) (Z.of_nat l)), (Nat.ltb_spec j l);
      try reflexivity; lia.
  - rewrite nth_overflow by (now rewrite length_map, length_seq).
    now rewrite andb_false_r.
Qed.

Lemma outer_length (xm ym : list Z) : length (outer xm ym) = length xm.
Proof. unfold outer. apply length_map. Qed.

Lemma valid_frames_outer (n m T_en T_de : nat) :
  (1 <= n <= T_en)%nat -> (m <= T_de)%nat ->
  valid_frames (outer (length_mask n T_en) (length_mask m T_de)) = m.
Proof.
  intros Hn Hm. unfold valid_frames.
  destruct (length_mask_head n T_en) as [r Hr]; [lia|lia|].
  rewrite Hr. simpl. rewrite filter_map_length.
  rewrite (filter_ext _ (fun v => negb (v =? 0))).
  - rewrite length_mask_count. lia.
  - intros v. now destruct v.
Qed.

Lemma valid_phonemes_outer (n m T_en T_de : nat) :
  (n <= T_en)%nat -> (1 <= m <= T_de)%nat ->
  valid_phonemes (outer (length_mask n T_en) (length_mask m T_de)) = n.
Proof.
  intros Hn Hm. unfold valid_phonemes, outer.
  destruct (length_mask_head m T_de) as [r Hr]; [lia|lia|].
  rewrite Hr. rewrite filter_map_length. simpl.
  rewrite (filter_ext _ (fun v => negb (v =? 0))).
  - rewrite length_mask_count. lia.
  - intros v. now rewrite Z.mul_1_r.
Qed.

Lemma search_path_spec {V : Type} (vlog : V -> V) (vadd : V -> V -> V)
    (vgeb : V -> V -> bool) (P : list (list V)) (n m T_en T_de : nat) :
  (1 <= n <= T_en)%nat -> (m <= T_de)%nat ->
  let p := search_path vlog vadd vgeb P
             (outer (length_mask n T_en) (length_mask m T_de)) in
  length p = m /\ Forall (fun i => (i < n)%nat) p /\ nondecreasing p = true.
Proof.
  intros Hn Hm. cbv zeta. unfold search_path.
  rewrite valid_frames_outer by assumption.
  destruct m as [|m'].
  - destruct (valid_phonemes _); repeat split; constructor.
  - rewrite valid_phonemes_outer by lia.
    destruct n as [|n']; [lia|].
    destruct (backtrack_spec vlog vadd vgeb P
                (outer (length_mask (S n') T_en) (length_mask (S m') T_de)) m' n')
      as [Hl [Hall Hs]].
    split; [exact Hl|]. split; [|exact Hs].
    eapply Forall_impl; [|exact Hall]. simpl. intros k Hk. lia.
Qed.

(** ** The matrix of a monotonic path is a hard alignment *)

Lemma path_matrix_alignment (T_en T_de n m : nat) (p : list nat) :
  length p = m -> (m <= T_de)%nat -> (n <= T_en)%nat ->
  Forall (fun i => (i < n)%nat) p -> nondecreasing p = true ->
  one_phoneme_per_frame (path_matrix T_en T_de p) n m /\
  phonemes_nondecreasing (path_matrix T_en T_de p) m.
Proof.
  intros Hl Hm Hn Hall Hs. split.
  - intros j Hj.
    destruct (nth_error p j) as [i|] eqn:Ei;
      [|apply nth_error_None in Ei; lia].
    assert (Hi : (i < n)%nat).
    { rewrite Forall_forall in Hall. apply Hall. eapply nth_error_In; eauto. }
    exists i. split; [exact Hi|]. split.
    + rewrite entry_path_matrix, Ei.
      replace ((i <? T_en)%nat) with true by (symmetry; apply Nat.ltb_lt; lia).
      replace ((j <? T_de)%nat) with true by (symmetry; apply Nat.ltb_lt; lia).
      simpl. now rewrite Nat.eqb_refl.
    + intros i' Hne. rewrite entry_path_matrix, Ei.
      destruct (_ && _); [|reflexivity].
      destruct (Nat.eqb_spec i i'); [congruence|reflexivity].
  - intros j1 j2 i1 i2 Hj H1 H2.
    rewrite entry_path_matrix in H1, H2.
    destruct ((i1 <? T_en)%nat && (j1 <? T_de)%nat); [|discriminate].
    destruct ((i2 <? T_en)%nat && (j2 <? T_de)%nat); [|discriminate].
    destruct (nth_error p j1) as [a|] eqn:E1; [|discriminate].
    destruct (nth_error p j2) as [b|] eqn:E2; [|discriminate].
    destruct (Nat.eqb_spec a i1); [subst|discriminate].
    destruct (Nat.eqb_spec b i2); [subst|discriminate].
    apply (nondecreasing_nth p Hs j1 j2); [lia|assumption|assumption].
Qed.

Lemma nth_error_map2 {A B C : Type} (f : A -> B -> C) (l : list A) (l' : list B) (b : nat) :
  nth_error (map2 f l l') b =
  match nth_error l b, nth_error l' b with
  | Some x, Some y => Some (f x y)
  | _, _ => None
  end.
Proof.
  unfold map2. revert l' b. induction l as [|x l IH]; intros [|y l'] [|b]; simpl; auto.
  - now destruct (nth_error l b).
Qed.

Lemma map2_length {A B C : Type} (f : A -> B -> C) (l : list A) (l' : list B) :
  length (map2 f l l') = Nat.min (length l) (length l').
Proof. unfold map2. now rewrite length_map, length_combine. Qed.

(** ** Durations of a path matrix *)

Lemma path_row_as_path (p : list nat) (i : nat) :
  forall T_de, (length p <= T_de)%nat ->
    map (fun j => b2z (match nth_error p j with
                       | Some i' => Nat.eqb i' i
                       | None => false
                       end)) (seq 0 T_de)
    = map (fun k => b2z (Nat.eqb k i)) p ++ repeat 0 (T_de - length p).
Proof.
  induction p as [|a p IH]; intros T_de Hl.
  - clear Hl. cbn [map app length]. rewrite Nat.sub_0_r.
    assert (Hnil : forall l : list nat,
               map (fun j => b2z (match nth_error (@nil nat) j with
                                  | Some i' => Nat.eqb i' i
                                  | None => false
                                  end)) l = repeat 0 (length l)).
    { intros l. induction l as [|x l IHl]; simpl; [reflexivity|].
      rewrite IHl. now destruct x. }
    rewrite Hnil. now rewrite length_seq.
  - destruct T_de as [|T]; [simpl in Hl; lia|].
    simpl in Hl. change (seq 0 (S T)) with (0%nat :: seq 1 T).
    rewrite <- seq_shift, map_cons, map_map. simpl.
    f_equal. apply IH. lia.
Qed.

Lemma tsum_repeat_0 (k : nat) : tsum (repeat 0 k) = 0.
Proof. induction k as [|k IH]; simpl; [reflexivity|]. rewrite IH. reflexivity. Qed.

Lemma durations_path_matrix (T_en T_de : nat) (p : list nat) :
  (length p <= T_de)%nat ->
  durations (path_matrix T_en T_de p) = map (occurrences p) (seq 0 T_en).
Proof.
  intros Hl. unfold durations, path_matrix. rewrite map_map.
  apply map_ext. intros i. rewrite path_row_as_path by exact Hl.
  rewrite tsum_app, tsum_repeat_0. unfold occurrences. lia.
Qed.

Lemma frames_before_S (p : list nat) (i : nat) :
  frames_before p (S i) = frames_before p i + occurrences p i.
Proof.
  unfold frames_before, occurrences.
  induction p as [|k p IH]; [reflexivity|].
  cbn [map]. unfold tsum in *. cbn [fold_right]. rewrite IH.
  assert (Hk : b2z (k <? S i)%nat = b2z (k <? i)%nat + b2z (k =? i)%nat).
  { destruct (Nat.ltb_spec k (S i)), (Nat.ltb_spec k i), (Nat.eqb_spec k i);
      simpl; lia. }
  lia.
Qed.

Lemma tsum_occurrences (p : list nat) (N : nat) :
  tsum (map (occurrences p) (seq 0 N)) = frames_before p N.
Proof.
  induction N as [|N IH].
  - cbn [seq map]. unfold frames_before.
    induction p as [|k p IHp]; [reflexivity|].
    cbn [map]. unfold tsum in *. cbn [fold_right]. rewrite <- IHp. reflexivity.
  - rewrite seq_S, map_app, tsum_app, IH, frames_before_S. simpl. lia.
Qed.

Lemma frames_before_all (p : list nat) (N : nat) :
  Forall (fun i => (i < N)%nat) p -> frames_before p N = Z.of_nat (length p).
Proof.
  unfold frames_before. induction 1 as [|k p Hk Hp IH]; [reflexivity|].
  cbn [map length]. unfold tsum in *. cbn [fold_right]. rewrite IH.
  destruct (Nat.ltb_spec k N); unfold b2z; lia.
Qed.

Lemma occurrences_nonneg (p : list nat) (i : nat) : 0 <= occurrences p i.
Proof.
  unfold occurrences. induction p as [|k p IH]; [simpl; lia|].
  cbn [map]. unfold tsum in *. cbn [fold_right].
  set (s := fold_right Z.add 0 _) in *.
  destruct (Nat.eqb k i); unfold b2z; lia.
Qed.

Lemma firstn_seq_le (n N : nat) (a : nat) :
  (n <= N)%nat -> firstn n (seq a N) = seq a n.
Proof.
  revert a N. induction n as [|n IH]; intros a N Hn; [reflexivity|].
  destruct N as [|N]; [lia|]. simpl. f_equal. apply IH. lia.
Qed.

Lemma path_matrix_durations (T_en T_de n m : nat) (p : list nat) :
  length p = m -> (m <= T_de)%nat -> (n <= T_en)%nat ->
  Forall (fun i => (i < n)%nat) p ->
  let d := durations (path_matrix T_en T_de p) in
  Forall (fun x => 0 <= x) d /\
  tsum (firstn n d) = Z.of_nat m /\ tsum d = Z.of_nat m.
Proof.
  intros Hl Hm Hn Hall. cbv zeta.
  rewrite durations_path_matrix by lia. split; [|split].
  - apply Forall_forall. intros x Hx. apply in_map_iff in Hx.
    destruct Hx as [i [<- _]]. apply occurrences_nonneg.
  - rewrite firstn_map, firstn_seq_le by exact Hn.
    rewrite tsum_occurrences, frames_before_all by exact Hall. now rewrite Hl.
  - rewrite tsum_occurrences, frames_before_all; [now rewrite Hl|].
    eapply Forall_impl; [|exact Hall]. simpl. intros; lia.
Qed.

(** ** The aligner on a batch with valid masks *)

Section AlignerBatch.

Context {V Enc LogProb : Type}.
Variable vlog : V -> V.
Variable vadd : V -> V -> V.
Variable vgeb : V -> V -> bool.
Variable isnan : V -> bool.
Variable aligner : Enc -> Enc -> list (list Z) -> list (list (list V)) * LogProb.
Variables x y : Enc.

(** Padded widths, and the valid phonemes and frames of each utterance. *)
Variables T_en T_de : nat.
Variable lens : list (nat * nat).

Let x_mask := map (fun nm => length_mask (fst nm) T_en) lens.
Let y_mask := map (fun nm => length_mask (snd nm) T_de) lens.

Hypothesis valid_lens :
  Forall (fun nm => (1 <= fst nm <= T_en)%nat /\ (snd nm <= T_de)%nat) lens.
Hypothesis soft_batch : length (fst (aligner y x x_mask)) = length lens.
Hypothesis no_nan : has_nan isnan (fst (aligner y x x_mask)) = false.

Lemma forward_aligner_paths :
  exists soft lp mas,
    snd (_forward_aligner vlog vadd vgeb isnan aligner x y x_mask y_mask)
      = Ok (map durations mas, soft, lp, mas) /\
    length mas = length lens /\
    forall b n m, nth_error lens b = Some (n, m) ->
      exists p, nth_error mas b = Some (path_matrix T_en T_de p) /\
                length p = m /\ Forall (fun i => (i < n)%nat) p /\
                nondecreasing p = true.
Proof.
  unfold _forward_aligner.
  destruct (aligner y x x_mask) as [soft lp] eqn:Ea. simpl in soft_batch, no_nan.
  rewrite no_nan. simpl. eexists. eexists. eexists.
  split; [reflexivity|]. split.
  - unfold maximum_path. rewrite !map2_length. unfold x_mask, y_mask.
    rewrite !length_map. lia.
  - intros b n m Hb.
    assert (Hlt : (b < length soft)%nat).
    { rewrite soft_batch. apply nth_error_Some. congruence. }
    destruct (nth_error soft b) as [S|] eqn:ES;
      [|apply nth_error_None in ES; lia].
    assert (Hnm : (1 <= n <= T_en)%nat /\ (m <= T_de)%nat).
    { rewrite Forall_forall in valid_lens.
      apply (valid_lens (n, m)). eapply nth_error_In; eauto. }
    destruct Hnm as [Hn Hm].
    unfold maximum_path. rewrite !nth_error_map2.
    unfold x_mask, y_mask. rewrite !nth_error_map, Hb, ES. simpl.
    exists (search_path vlog vadd vgeb (transpose (length (length_mask n T_en)) S)
              (outer (length_mask n T_en) (length_mask m T_de))).
    split; [|apply search_path_spec; assumption].
    f_equal. f_equal.
    + now rewrite outer_length, length_mask_length.
    + destruct (length_mask_head n T_en) as [r Hr]; [lia|lia|].
      rewrite Hr. simpl. now rewrite length_map, length_mask_length.
Qed.

End AlignerBatch.

(** C1.  For every soft alignment without NaN and every valid mask (each
    utterance has at least one valid phoneme, and its valid phonemes and
    frames fit the padded widths), [_forward_aligner] succeeds and the hard
    alignment [alignment_mas] of every utterance assigns exactly one phoneme,
    a valid one, to every valid frame, and the assigned phoneme does not
    decrease as the frame index increases. *)
Theorem mas_alignment_monotonic
    {V Enc LogProb : Type} (vlog : V -> V) (vadd : V -> V -> V)
    (vgeb : V -> V -> bool) (isnan : V -> bool)
    (aligner : Enc -> Enc -> list (list Z) -> list (list (list V)) * LogProb)
    (x y : Enc) (T_en T_de : nat) (lens : list (nat * nat)) :
  let x_mask := map (fun nm => length_mask (fst nm) T_en) lens in
  let y_mask := map (fun nm => length_mask (snd nm) T_de) lens in
  Forall (fun nm => (1 <= fst nm <= T_en)%nat /\ (snd nm <= T_de)%nat) lens ->
  length (fst (aligner y x x_mask)) = length lens ->
  has_nan isnan (fst (aligner y x x_mask)) = false ->
  exists alignment_hard alignment_soft alignment_logprob alignment_mas,
    snd (_forward_aligner vlog vadd vgeb isnan aligner x y x_mask y_mask)
      = Ok (alignment_hard, alignment_soft, alignment_logprob, alignment_mas) /\
    length alignment_mas = length lens /\
    forall b n m, nth_error lens b = Some (n, m) ->
      exists H, nth_error alignment_mas b = Some H /\
                one_phoneme_per_frame H n m /\ phonemes_nondecreasing H m.
Proof.
  intros x_mask y_mask Hlens Hsoft Hnan.
  destruct (forward_aligner_paths vlog vadd vgeb isnan aligner x y T_en T_de lens
              Hlens Hsoft Hnan) as [soft [lp [mas [Hok [Hlen Hp]]]]].
  exists (map durations mas), soft, lp, mas.
  split; [exact Hok|]. split; [exact Hlen|].
  intros b n m Hb. destruct (Hp b n m Hb) as [p [HH [Hl [Hall Hs]]]].
  assert (Hnm : (1 <= n <= T_en)%nat /\ (m <= T_de)%nat).
  { rewrite Forall_forall in Hlens.
    apply (Hlens (n, m)). eapply nth_error_In; eauto. }
  exists (path_matrix T_en T_de p). split; [exact HH|].
  apply path_matrix_alignment; try assumption; lia.
Qed.

Lemma mas_alignment_monotonic_witness :
  exists alignment_hard alignment_soft alignment_logprob alignment_mas,
    snd (example_forward_aligner [(3, 5)%nat] 3 5)
      = Ok (alignment_hard, alignment_soft, alignment_logprob, alignment_mas) /\
    length alignment_mas = 1%nat.
Proof.
  destruct (mas_alignment_monotonic (fun v : Z => v) Z.add Z.geb (fun _ => false)
              example_aligner tt tt 3 5 [(3, 5)%nat]
              ltac:(repeat constructor; simpl; lia) eq_refl eq_refl)
    as [ah [soft [lp [mas [Hok [Hlen _]]]]]].
  exists ah, soft, lp, mas. split; [exact Hok|exact Hlen].
Defined.

(** The example of the specification: the aligner returns the durations
    2, 2, 1. *)
Example example_durations :
  snd (example_forward_aligner [(3, 5)%nat] 3 5)
  = Ok ([[2; 2; 1]],
        [[[9; 9; 1; 1; 1]; [1; 1; 9; 9; 1]; [1; 1; 1; 1; 9]]],
        tt,
        [[[1; 1; 0; 0; 0]; [0; 0; 1; 1; 0]; [0; 0; 0; 0; 1]]]).
Proof. vm_compute. reflexivity. Qed.

(** C2.  For every hard alignment the aligner produces under a valid mask,
    the durations [alignment_hard] of an utterance are the row sums of its
    hard alignment; they are non-negative integers, and their sum over the
    valid phonemes is the utterance's valid frame length. *)
Theorem mas_durations_sum_to_frames
    {V Enc LogProb : Type} (vlog : V -> V) (vadd : V -> V -> V)
    (vgeb : V -> V -> bool) (isnan : V -> bool)
    (aligner : Enc -> Enc -> list (list Z) -> list (list (list V)) * LogProb)
    (x y : Enc) (T_en T_de : nat) (lens : list (nat * nat)) :
  let x_mask := map (fun nm => length_mask (fst nm) T_en) lens in
  let y_mask := map (fun nm => length_mask (snd nm) T_de) lens in
  Forall (fun nm => (1 <= fst nm <= T_en)%nat /\ (snd nm <= T_de)%nat) lens ->
  length (fst (aligner y x x_mask)) = length lens ->
  has_nan isnan (fst (aligner y x x_mask)) = false ->
  exists alignment_hard alignment_soft alignment_logprob alignment_mas,
    snd (_forward_aligner vlog vadd vgeb isnan aligner x y x_mask y_mask)
      = Ok (alignment_hard, alignment_soft, alignment_logprob, alignment_mas) /\
    length alignment_hard = length lens /\
    forall b n m, nth_error lens b = Some (n, m) ->
      exists H d, nth_error alignment_mas b = Some H /\
                  nth_error alignment_hard b = Some d /\
                  d = map tsum H /\
                  Forall (fun v => 0 <= v) d /\
                  tsum (firstn n d) = Z.of_nat m /\
                  tsum d = Z.of_nat m.
Proof.
  intros x_mask y_mask Hlens Hsoft Hnan.
  destruct (forward_aligner_paths vlog vadd vgeb isnan aligner x y T_en T_de lens
              Hlens Hsoft Hnan) as [soft [lp [mas [Hok [Hlen Hp]]]]].
  exists (map durations mas), soft, lp, mas.
  split; [exact Hok|]. split; [now rewrite length_map|].
  intros b n m Hb. destruct (Hp b n m Hb) as [p [HH [Hl [Hall Hs]]]].
  assert (Hnm : (1 <= n <= T_en)%nat /\ (m <= T_de)%nat).
  { rewrite Forall_forall in Hlens.
    apply (Hlens (n, m)). eapply nth_error_In; eauto. }
  exists (path_matrix T_en T_de p), (durations (path_matrix T_en T_de p)).
  split; [exact HH|]. split; [now rewrite nth_error_map, HH|].
  split; [reflexivity|].
  apply (path_matrix_durations T_en T_de n m p); try assumption; lia.
Qed.

Lemma mas_durations_sum_to_frames_witness :
  exists alignment_hard alignment_soft alignment_logprob alignment_mas,
    snd (example_forward_aligner [(3, 5)%nat] 3 5)
      = Ok (alignment_hard, alignment_soft, alignment_logprob, alignment_mas) /\
    length alignment_hard = 1%nat.
Proof.
  destruct (mas_durations_sum_to_frames (fun v : Z => v) Z.add Z.geb (fun _ => false)
              example_aligner tt tt 3 5 [(3, 5)%nat]
              ltac:(repeat constructor; simpl; lia) eq_refl eq_refl)
    as [ah [soft [lp [mas [Hok [Hlen _]]]]]].
  exists ah, soft, lp, mas. split; [exact Hok|exact Hlen].
Defined.

(** ** Regenerating a hard alignment from its durations *)

Lemma frames_before_cons (a : nat) (p : list nat) (i : nat) :
  frames_before (a :: p) i = b2z (a <? i)%nat + frames_before p i.
Proof. reflexivity. Qed.

Lemma frames_before_nonneg (p : list nat) (i : nat) : 0 <= frames_before p i.
Proof.
  induction p as [|a p IH]; [unfold frames_before; simpl; lia|].
  rewrite frames_before_cons. destruct (a <? i)%nat; unfold b2z; lia.
Qed.

Lemma frames_before_none (p : list nat) (i : nat) :
  Forall (fun b => (i <= b)%nat) p -> frames_before p i = 0.
Proof.
  induction 1 as [|a p Ha Hp IH]; [reflexivity|].
  rewrite frames_before_cons, IH.
  destruct (Nat.ltb_spec a i); [lia|reflexivity].
Qed.

Lemma frames_before_0 (p : list nat) : frames_before p 0 = 0.
Proof. apply frames_before_none. apply Forall_forall. intros; lia. Qed.

(** On a non-decreasing path, the frames of the phonemes before [i] are the
    first frames of the path. *)
Lemma frames_before_prefix (p : list nat) (i : nat) :
  nondecreasing p = true ->
  forall j k, nth_error p j = Some k ->
    (Z.of_nat j < frames_before p i <-> (k < i)%nat).
Proof.
  induction p as [|a p IH]; intros Hs j k Hj; [now destruct j|].
  destruct (nondecreasing_cons _ _ Hs) as [Hp Hall].
  rewrite frames_before_cons.
  pose proof (frames_before_nonneg p i) as Hnn.
  destruct (Nat.ltb_spec a i) as [Hai|Hai]; unfold b2z.
  - destruct j as [|j]; simpl in Hj.
    + injection Hj as <-. split; lia.
    + specialize (IH Hp j k Hj). lia.
  - rewrite frames_before_none
      by (eapply Forall_impl; [|exact Hall]; simpl; intros; lia).
    destruct j as [|j]; simpl in Hj.
    + injection Hj as <-. split; lia.
    + assert ((a <= k)%nat).
      { rewrite Forall_forall in Hall. apply Hall. eapply nth_error_In; eauto. }
      split; lia.
Qed.

Lemma mapi_map_seq {A B : Type} (f : nat -> A -> B) (h : nat -> A) (T : nat) :
  mapi f (map h (seq 0 T)) = map (fun j => f j (h j)) (seq 0 T).
Proof.
  apply nth_error_ext. intros j.
  rewrite nth_error_mapi, !nth_error_map, nth_error_seq.
  now destruct (j <? T)%nat.
Qed.

Lemma path_rows_seq (p : list nat) (g : nat -> list Z) (k : nat) :
  forall a,
    path_rows (frames_before p a) (map (occurrences p) (seq a k)) (map g (seq a k))
    = map (fun i => frame_row (frames_before p i) (frames_before p (S i)) (g i))
          (seq a k).
Proof.
  induction k as [|k IH]; intros a; [reflexivity|].
  simpl. rewrite <- frames_before_S. f_equal. apply IH.
Qed.

Lemma path_matrix_round_trip (T_en T_de n m : nat) (p : list nat) :
  length p = m -> (m <= T_de)%nat -> (n <= T_en)%nat ->
  Forall (fun i => (i < n)%nat) p -> nondecreasing p = true ->
  path_rows 0 (durations (path_matrix T_en T_de p))
            (outer (length_mask n T_en) (length_mask m T_de))
  = path_matrix T_en T_de p.
Proof.
  intros Hl Hm Hn Hall Hs.
  rewrite durations_path_matrix by lia.
  unfold outer, length_mask. rewrite map_map.
  rewrite <- (frames_before_0 p), path_rows_seq.
  unfold path_matrix. apply map_ext_in. intros i Hi. apply in_seq in Hi.
  unfold frame_row. rewrite map_map, mapi_map_seq.
  apply map_ext_in. intros j Hj. apply in_seq in Hj.
  destruct (nth_error p j) as [k|] eqn:Ek.
  - assert (Hjm : (j < m)%nat) by (rewrite <- Hl; apply nth_error_Some; congruence).
    assert (Hk : (k < n)%nat).
    { rewrite Forall_forall in Hall. apply Hall. eapply nth_error_In; eauto. }
    pose proof (frames_before_prefix p i Hs j k Ek) as Hlo.
    pose proof (frames_before_prefix p (S i) Hs j k Ek) as Hhi.
    destruct (Z.leb_spec (frames_before p i) (Z.of_nat j)),
             (Z.ltb_spec (Z.of_nat j) (frames_before p (S i))),
             (Z.ltb_spec (Z.of_nat i) (Z.of_nat n)),
             (Z.ltb_spec (Z.of_nat j) (Z.of_nat m)),
             (Nat.eqb_spec k i); simpl; try reflexivity; lia.
  - apply nth_error_None in Ek.
    destruct (Z.ltb_spec (Z.of_nat j) (Z.of_nat m)); [lia|].
    simpl. rewrite Z.mul_0_r. apply Z.mul_0_r.
Qed.

Lemma list_eqb_eq {A : Type} (eqb : A -> A -> bool) :
  (forall a b, eqb a b = true -> a = b) ->
  forall l l', list_eqb eqb l l' = true -> l = l'.
Proof.
  intros Heq. induction l as [|x l IH]; intros [|y l'] H; simpl in H;
    try discriminate; [reflexivity|].
  apply andb_true_iff in H. destruct H as [Hxy Hl].
  f_equal; [now apply Heq|now apply IH].
Qed.

Lemma is_hard_alignment_path (H : list (list Z)) (T_de n m : nat) :
  is_hard_alignment H T_de n m = true ->
  exists p, H = path_matrix (length H) T_de p /\ length p = m /\
            (m <= T_de)%nat /\ (n <= length H)%nat /\
            Forall (fun i => (i < n)%nat) p /\ nondecreasing p = true.
Proof.
  unfold is_hard_alignment. intros Hh.
  repeat (apply andb_true_iff in Hh; destruct Hh as [Hh ?]).
  exists (frame_phonemes H m).
  split; [|split; [|split; [|split; [|split]]]].
  - apply (list_eqb_eq (list_eqb Z.eqb)); [|assumption].
    apply list_eqb_eq. intros a b. apply Z.eqb_eq.
  - now apply Nat.eqb_eq.
  - now apply Nat.leb_le.
  - now apply Nat.leb_le.
  - apply Forall_forall. intros i Hi.
    match goal with Hf : forallb _ _ = true |- _ =>
      rewrite forallb_forall in Hf; apply Nat.ltb_lt; now apply Hf end.
  - assumption.
Qed.

Lemma map2_map {A B C D : Type} (f : B -> C -> D) (g : A -> B) (h : A -> C) (l : list A) :
  map2 f (map g l) (map h l) = map (fun u => f (g u) (h u)) l.
Proof.
  unfold map2. induction l as [|u l IH]; simpl; [reflexivity|]. now rewrite IH.
Qed.

(** C3.  For every batch of hard alignments, each one-hot per valid frame,
    monotonic and zero outside its valid region, [generate_attn] applied to
    their durations (the row sums) under the same input and output masks
    returns the hard alignments themselves; and the durations of what
    [generate_attn] returns are the durations it was given. *)
Theorem generate_attn_round_trip
    (T_en T_de : nat) (batch : list (list (list Z) * nat * nat)) :
  Forall (fun u => length (fst (fst u)) = T_en /\
                   is_hard_alignment (fst (fst u)) T_de (snd (fst u)) (snd u) = true)
         batch ->
  let Hs := map (fun u => fst (fst u)) batch in
  let dr := map durations Hs in
  let x_mask := map (fun u => length_mask (snd (fst u)) T_en) batch in
  let y_mask := map (fun u => length_mask (snd u) T_de) batch in
  generate_attn dr x_mask (Some y_mask) = Ok Hs /\
  forall attn, generate_attn dr x_mask (Some y_mask) = Ok attn ->
               map durations attn = dr.
Proof.
  intros Hb Hs dr x_mask y_mask.
  assert (Hgen : generate_attn dr x_mask (Some y_mask) = Ok Hs).
  { unfold generate_attn. simpl. f_equal.
    unfold generate_path, x_mask, y_mask, dr, Hs.
    rewrite map2_map, !map_map, map2_map.
    apply map_ext_in. intros [[H n] m] Hu. simpl.
    rewrite Forall_forall in Hb. destruct (Hb _ Hu) as [Hlen Hh]. simpl in Hlen, Hh.
    destruct (is_hard_alignment_path _ _ _ _ Hh) as [p [HH [Hl [Hm [Hn [Hall Hsort]]]]]].
    rewrite Hlen in HH, Hn. rewrite HH.
    now apply path_matrix_round_trip. }
  split; [exact Hgen|].
  intros attn Ha. rewrite Hgen in Ha. now injection Ha as <-.
Qed.

Lemma generate_attn_round_trip_witness :
  generate_attn
    [[2; 2; 1; 0]; [1; 2; 0; 0]]
    [length_mask 3 4; length_mask 2 4]
    (Some [length_mask 5 6; length_mask 3 6])
  = Ok [[[1; 1; 0; 0; 0; 0]; [0; 0; 1; 1; 0; 0]; [0; 0; 0; 0; 1; 0]; [0; 0; 0; 0; 0; 0]];
        [[1; 0; 0; 0; 0; 0]; [0; 1; 1; 0; 0; 0]; [0; 0; 0; 0; 0; 0]; [0; 0; 0; 0; 0; 0]]].
Proof.
  exact (proj1 (generate_attn_round_trip 4 6
    [([[1; 1; 0; 0; 0; 0]; [0; 0; 1; 1; 0; 0]; [0; 0; 0; 0; 1; 0]; [0; 0; 0; 0; 0; 0]],
      3%nat, 5%nat);
     ([[1; 0; 0; 0; 0; 0]; [0; 1; 1; 0; 0; 0]; [0; 0; 0; 0; 0; 0]; [0; 0; 0; 0; 0; 0]],
      2%nat, 3%nat)]
    ltac:(repeat constructor))).
Defined.

(** ** What [is_hard_alignment] decides *)

Lemma list_eqb_refl {A : Type} (eqb : A -> A -> bool) :
  (forall a, eqb a a = true) -> forall l, list_eqb eqb l l = true.
Proof.
  intros Hr. induction l as [|x l IH]; simpl; [reflexivity|].
  now rewrite Hr, IH.
Qed.

Lemma column_nth (H : list (list Z)) (i j : nat) :
  nth i (column H j) 0 = entry H i j.
Proof.
  unfold column, entry.
  transitivity (nth i (map (fun row : list Z => nth j row 0) H) (nth j [] 0)).
  - f_equal. now destruct j.
  - apply (map_nth (fun row : list Z => nth j row 0)).
Qed.

Lemma first_one_unique (col : list Z) :
  forall i, nth i col 0 = 1 -> (forall i', i' <> i -> nth i' col 0 = 0) ->
            first_one col = Some i.
Proof.
  induction col as [|v col IH]; intros i Hi Hz.
  - destruct i; discriminate.
  - destruct i as [|i]; simpl in *.
    + subst v. reflexivity.
    + rewrite (Hz 0%nat) by lia. simpl.
      rewrite (IH i Hi); [reflexivity|].
      intros i' Hne. apply (Hz (S i')). lia.
Qed.

Lemma frame_phonemes_S (H : list (list Z)) (m : nat) :
  frame_phonemes H (S m) =
  frame_phonemes H m ++ match first_one (column H m) with
                        | Some i => [i]
                        | None => []
                        end.
Proof.
  unfold frame_phonemes. rewrite seq_S, flat_map_app. simpl.
  now rewrite app_nil_r.
Qed.

Lemma frame_phonemes_spec (H : list (list Z)) (n m : nat) :
  one_phoneme_per_frame H n m ->
  length (frame_phonemes H m) = m /\
  forall j i, nth_error (frame_phonemes H m) j = Some i ->
    (i < n)%nat /\ entry H i j = 1 /\ forall i', i' <> i -> entry H i' j = 0.
Proof.
  induction m as [|m IH]; intros Hone.
  - split; [reflexivity|]. intros j i Hj. now destruct j.
  - destruct IH as [Hl Hp]; [intros j Hj; apply Hone; lia|].
    destruct (Hone m) as [i0 [Hi0 [H1 H0]]]; [lia|].
    rewrite frame_phonemes_S, (first_one_unique _ i0).
    + split; [rewrite length_app, Hl; simpl; lia|].
      intros j i Hj.
      destruct (Nat.lt_ge_cases j m) as [Hlt|Hge].
      * rewrite nth_error_app1 in Hj by lia. now apply Hp.
      * rewrite nth_error_app2 in Hj by lia. rewrite Hl in Hj.
        destruct (j - m)%nat as [|d] eqn:Ed; simpl in Hj;
          [|destruct d; discriminate].
        injection Hj as <-. replace j with m by lia. auto.
    + now rewrite column_nth.
    + intros i' Hne. rewrite column_nth. now apply H0.
Qed.

Lemma nondecreasing_intro (p : list nat) :
  (forall j1 j2 a b, (j1 <= j2)%nat -> nth_error p j1 = Some a ->
                     nth_error p j2 = Some b -> (a <= b)%nat) ->
  nondecreasing p = true.
Proof.
  induction p as [|a p IH]; intros Hm; [reflexivity|].
  destruct p as [|b p]; [reflexivity|].
  change (((a <=? b)%nat && nondecreasing (b :: p)) = true).
  apply andb_true_iff. split.
  - apply Nat.leb_le. apply (Hm 0%nat 1%nat); [lia|reflexivity|reflexivity].
  - apply IH. intros j1 j2 c d Hj H1 H2.
    apply (Hm (S j1) (S j2)); [lia|exact H1|exact H2].
Qed.

Lemma matrix_ext (A B : list (list Z)) (T_de : nat) :
  length A = length B ->
  Forall (fun r => length r = T_de) A -> Forall (fun r => length r = T_de) B ->
  (forall i j, (i < length A)%nat -> (j < T_de)%nat -> entry A i j = entry B i j) ->
  A = B.
Proof.
  intros Hl HA HB He. apply (nth_ext A B [] []); [exact Hl|].
  intros i Hi.
  assert (HAi : length (nth i A []) = T_de).
  { rewrite Forall_forall in HA. apply HA. now apply nth_In. }
  assert (HBi : length (nth i B []) = T_de).
  { rewrite Forall_forall in HB. apply HB. apply nth_In. lia. }
  apply (nth_ext _ _ 0 0); [congruence|].
  intros j Hj. apply He; [exact Hi|lia].
Qed.

Lemma path_matrix_width (T_en T_de : nat) (p : list nat) :
  Forall (fun r => length r = T_de) (path_matrix T_en T_de p).
Proof.
  unfold path_matrix. apply Forall_forall. intros r Hr.
  apply in_map_iff in Hr. destruct Hr as [i [<- _]].
  now rewrite length_map, length_seq.
Qed.

(** A 0/1 matrix that is one-hot on every valid frame, zero on the padding
    frames and monotonic satisfies [is_hard_alignment]. *)
Lemma is_hard_alignment_intro (H : list (list Z)) (T_de n m : nat) :
  Forall (fun r => length r = T_de) H ->
  (n <= length H)%nat -> (m <= T_de)%nat ->
  (forall i j, (m <= j)%nat -> entry H i j = 0) ->
  one_phoneme_per_frame H n m ->
  phonemes_nondecreasing H m ->
  is_hard_alignment H T_de n m = true.
Proof.
  intros Hw Hn Hm Hpad Hone Hmono.
  destruct (frame_phonemes_spec H n m Hone) as [Hl Hp].
  unfold is_hard_alignment. cbv zeta.
  repeat (apply andb_true_iff; split).
  - now apply Nat.eqb_eq.
  - now apply Nat.leb_le.
  - now apply Nat.leb_le.
  - apply forallb_forall. intros i Hi. apply Nat.ltb_lt.
    apply In_nth_error in Hi. destruct Hi as [j Hj]. now apply (Hp j i).
  - apply nondecreasing_intro. intros j1 j2 a b Hj H1 H2.
    assert ((j2 < m)%nat) by (rewrite <- Hl; apply nth_error_Some; congruence).
    apply (Hmono j1 j2 a b); [lia|now apply Hp|now apply Hp].
  - replace (path_matrix (length H) T_de (frame_phonemes H m)) with H;
      [apply list_eqb_refl; intros r; apply list_eqb_refl; apply Z.eqb_refl|].
    apply (matrix_ext _ _ T_de);
      [now rewrite path_matrix_length|exact Hw|apply path_matrix_width|].
    intros i j Hi Hj. rewrite entry_path_matrix.
    replace ((i <? length H)%nat) with true by (symmetry; now apply Nat.ltb_lt).
    replace ((j <? T_de)%nat) with true by (symmetry; now apply Nat.ltb_lt).
    simpl.
    destruct (nth_error (frame_phonemes H m) j) as [k|] eqn:Ek.
    + destruct (Hp j k Ek) as [_ [H1 H0]].
      destruct (Nat.eqb_spec k i) as [->|Hne]; [exact H1|now apply H0].
    + apply nth_error_None in Ek. apply Hpad. lia.
Qed.

(** The hard alignment of a monotonic path satisfies [is_hard_alignment]; so
    do the hard alignments the aligner returns. *)
Lemma path_matrix_is_hard_alignment (T_en T_de n m : nat) (p : list nat) :
  length p = m -> (m <= T_de)%nat -> (n <= T_en)%nat ->
  Forall (fun i => (i < n)%nat) p -> nondecreasing p = true ->
  is_hard_alignment (path_matrix T_en T_de p) T_de n m = true.
Proof.
  intros Hl Hm Hn Hall Hs.
  destruct (path_matrix_alignment T_en T_de n m p Hl Hm Hn Hall Hs) as [Hone Hmono].
  apply is_hard_alignment_intro; try assumption.
  - apply path_matrix_width.
  - now rewrite path_matrix_length.
  - intros i j Hj. rewrite entry_path_matrix.
    destruct (_ && _); [|reflexivity].
    replace (nth_error p j) with (@None nat); [reflexivity|].
    symmetry. apply nth_error_None. lia.
Qed.

(** ** The masks of [forward] are valid masks *)

Lemma no_negative_of_nat (ls : list nat) :
  existsb (fun l => l <? 0) (map Z.of_nat ls) = false.
Proof.
  induction ls as [|l ls IH]; simpl; [reflexivity|]. rewrite IH.
  destruct (Z.ltb_spec (Z.of_nat l) 0); [lia|reflexivity].
Qed.

Lemma sequence_mask_of_nat (ls : list nat) (max_len : option Z) :
  let w := match max_len with Some w => w | None => tmax (map Z.of_nat ls) end in
  bind (sequence_mask (map Z.of_nat ls) max_len) (fun m => Ok (map (map b2z) m))
  = Ok (map (fun l => length_mask l (Z.to_nat w)) ls).
Proof.
  cbv zeta. unfold sequence_mask. rewrite no_negative_of_nat. simpl.
  f_equal. rewrite !map_map. apply map_ext. intros l.
  unfold length_mask. now rewrite map_map.
Qed.

(** With the lengths of [forward], [forward_alignment] runs [_forward_aligner]
    on the length masks of the theorems above, the frame masks being as wide
    as the longest utterance. *)
Lemma forward_alignment_masks
    {V Enc LogProb : Type} (vlog : V -> V) (vadd : V -> V -> V)
    (vgeb : V -> V -> bool) (isnan : V -> bool)
    (aligner : Enc -> Enc -> list (list Z) -> list (list (list V)) * LogProb)
    (phoneme_enc mel : Enc) (T_en : nat) (lens : list (nat * nat)) :
  let T_de := Z.to_nat (tmax (map Z.of_nat (map snd lens))) in
  forward_alignment vlog vadd vgeb isnan aligner phoneme_enc mel
    (map Z.of_nat (map fst lens)) (Z.of_nat T_en) (map Z.of_nat (map snd lens))
  = _forward_aligner vlog vadd vgeb isnan aligner phoneme_enc mel
      (map (fun nm => length_mask (fst nm) T_en) lens)
      (map (fun nm => length_mask (snd nm) T_de) lens) /\
  Forall (fun nm => (snd nm <= T_de)%nat) lens.
Proof.
  cbv zeta. split.
  - unfold forward_alignment.
    pose proof (sequence_mask_of_nat (map fst lens) (Some (Z.of_nat T_en))) as Hx.
    pose proof (sequence_mask_of_nat (map snd lens) None) as Hy.
    cbv zeta in Hx, Hy.
    destruct (sequence_mask (map Z.of_nat (map fst lens)) _) as [tm|e];
      [|discriminate].
    destruct (sequence_mask (map Z.of_nat (map snd lens)) None) as [mm|e];
      [|discriminate].
    simpl in Hx, Hy. injection Hx as ->. injection Hy as ->.
    now rewrite Nat2Z.id, !map_map.
  - apply Forall_forall. intros nm Hin.
    assert (Hle : Z.of_nat (snd nm) <= tmax (map Z.of_nat (map snd lens))).
    { apply tmax_ge. apply in_map. now apply in_map. }
    lia.
Qed.

(** ** Frames outside the prompt segment *)

Import Selection.

Lemma combine_app_eq {A B : Type} (l1 l2 : list A) (m1 m2 : list B) :
  length l1 = length m1 ->
  combine (l1 ++ l2) (m1 ++ m2) = combine l1 m1 ++ combine l2 m2.
Proof.
  revert m1. induction l1 as [|a l1 IH]; intros [|b m1] Hl; simpl in *;
    try discriminate; [reflexivity|].
  f_equal. apply IH. lia.
Qed.

Lemma select_row_app {A : Type} (r1 r2 : list A) (m1 m2 : list bool) :
  length r1 = length m1 ->
  select_row (r1 ++ r2) (m1 ++ m2) = select_row r1 m1 ++ select_row r2 m2.
Proof.
  intros Hl. unfold select_row.
  now rewrite combine_app_eq, filter_app, map_app by exact Hl.
Qed.

Lemma select_row_true {A : Type} (r : list A) :
  select_row r (repeat true (length r)) = r.
Proof.
  unfold select_row. induction r as [|a r IH]; simpl; [reflexivity|].
  now rewrite IH.
Qed.

Lemma select_row_false {A : Type} (r : list A) (k : nat) :
  select_row r (repeat false k) = [].
Proof.
  unfold select_row. revert k. induction r as [|a r IH]; intros [|k]; simpl; auto.
Qed.

Lemma nth_repeat_lt {A : Type} (x d : A) (n i : nat) :
  (i < n)%nat -> nth i (repeat x n) d = x.
Proof. intros H. apply nth_error_nth. now apply nth_error_repeat_lt. Qed.

(** The mask row of an utterance: true, then false on the segment, then
    true. *)
Lemma cleared_mask_row (T s seg : nat) :
  (s + seg <= T)%nat ->
  slice_assign (repeat true T) (Z.of_nat s) (Z.of_nat s + Z.of_nat seg) false
  = repeat true s ++ repeat false seg ++ repeat true (T - s - seg).
Proof.
  intros Hle. apply (nth_ext _ _ true true).
  - rewrite slice_assign_length, !length_app, !repeat_length. lia.
  - intros t Ht. rewrite slice_assign_length, repeat_length in Ht.
    rewrite slice_assign_nth by (try rewrite repeat_length; lia).
    rewrite (nth_repeat_lt true true T t Ht).
    destruct (Nat.lt_ge_cases t s) as [H1|H1].
    + rewrite app_nth1 by (rewrite repeat_length; lia).
      rewrite nth_repeat_lt by lia.
      destruct (Z.leb_spec (Z.of_nat s) (Z.of_nat t)); [lia|reflexivity].
    + rewrite app_nth2 by (rewrite repeat_length; lia). rewrite repeat_length.
      destruct (Nat.lt_ge_cases t (s + seg)) as [H2|H2].
      * rewrite app_nth1 by (rewrite repeat_length; lia).
        rewrite nth_repeat_lt by lia.
        destruct (Z.leb_spec (Z.of_nat s) (Z.of_nat t)),
                 (Z.ltb_spec (Z.of_nat t) (Z.of_nat s + Z.of_nat seg));
          try reflexivity; lia.
      * rewrite app_nth2 by (rewrite repeat_length; lia). rewrite repeat_length.
        rewrite nth_repeat_lt by lia.
        destruct (Z.leb_spec (Z.of_nat s) (Z.of_nat t)),
                 (Z.ltb_spec (Z.of_nat t) (Z.of_nat s + Z.of_nat seg));
          try reflexivity; lia.
Qed.

Lemma select_row_cut {A : Type} (row : list A) (s seg : nat) :
  (s + seg <= length row)%nat ->
  select_row row (repeat true s ++ repeat false seg
                    ++ repeat true (length row - s - seg))
  = cut_segment s seg row.
Proof.
  intros Hle. unfold cut_segment.
  rewrite <- (firstn_skipn s row) at 1.
  rewrite select_row_app by (rewrite length_firstn, repeat_length; lia).
  rewrite <- (firstn_skipn seg (skipn s row)) at 1.
  rewrite select_row_app
    by (rewrite length_firstn, length_skipn, repeat_length; lia).
  rewrite select_row_false. simpl. rewrite skipn_skipn.
  replace (seg + s)%nat with (s + seg)%nat by lia.
  f_equal.
  - replace s with (length (firstn s row)) at 2 by (rewrite length_firstn; lia).
    apply select_row_true.
  - replace (length row - s - seg)%nat with (length (skipn (s + seg) row))
      by (rewrite length_skipn; lia).
    apply select_row_true.
Qed.

Lemma chunks_concat {A : Type} (w : nat) (rows : list (list A)) :
  Forall (fun r => length r = w) rows ->
  chunks (length rows) w (concat rows) = rows.
Proof.
  induction 1 as [|r rows Hr Hrows IH]; simpl; [reflexivity|].
  rewrite firstn_app, skipn_app, Hr, Nat.sub_diag.
  rewrite firstn_all2, skipn_all2 by lia. simpl.
  rewrite app_nil_r. now rewrite IH.
Qed.

Lemma concat_length_uniform {A : Type} (w : nat) (rows : list (list A)) :
  Forall (fun r => length r = w) rows ->
  length (concat rows) = (length rows * w)%nat.
Proof.
  induction 1 as [|r rows Hr Hrows IH]; simpl; [reflexivity|].
  rewrite length_app, IH, Hr. lia.
Qed.

Lemma concat_map_concat {A : Type} (X : list (list (list A))) :
  concat (map (@concat A) X) = concat (concat X).
Proof.
  induction X as [|U X IH]; simpl; [reflexivity|].
  now rewrite concat_app, IH.
Qed.

(** Flattening a [B, C, w] tensor and viewing it as [B, C, -1] gives it
    back. *)
Lemma view3_flatten {A : Type} (B C w : nat) (X : list (list (list A))) :
  (0 < B)%nat -> (0 < C)%nat -> length X = B ->
  Forall (fun U => length U = C /\ Forall (fun r => length r = w) U) X ->
  view3 B C (concat (map (@concat A) X)) = Ok X.
Proof.
  intros HB HC HX Hshape.
  assert (HrowsC : Forall (fun U => length U = C) X)
    by (eapply Forall_impl; [|exact Hshape]; simpl; tauto).
  assert (Hroww : Forall (fun r => length r = w) (concat X)).
  { apply Forall_concat. eapply Forall_impl; [|exact Hshape]. simpl; tauto. }
  assert (Hn : length (concat X) = (B * C)%nat)
    by (rewrite (concat_length_uniform C) by exact HrowsC; now rewrite HX).
  unfold view3. rewrite concat_map_concat.
  rewrite (concat_length_uniform w) by exact Hroww. rewrite Hn.
  destruct (Nat.eqb_spec (B * C) 0) as [H0|H0]; [nia|].
  replace (B * C * w)%nat with (w * (B * C))%nat by lia.
  rewrite Nat.Div0.mod_mul, Nat.eqb_refl, Nat.div_mul by exact H0.
  rewrite <- Hn at 1. rewrite chunks_concat by exact Hroww.
  rewrite <- HX. now rewrite chunks_concat.
Qed.

Lemma map2_repeat_r {A B C : Type} (f : A -> B -> C) (l : list A) (y : B) :
  map2 f l (repeat y (length l)) = map (fun x => f x y) l.
Proof.
  unfold map2. induction l as [|x l IH]; simpl; [reflexivity|]. now rewrite IH.
Qed.

Lemma masked_select_rows {A : Type} (t : list (list (list A)))
    (mask : list (list (list bool))) :
  masked_select t mask
  = concat (map (@concat A) (map2 (fun U M => map2 select_row U M) t mask)).
Proof. unfold masked_select, map2. now rewrite map_map. Qed.

(** The remaining mask as a list: one cleared block per utterance. *)
Lemma remaining_mask_blocks (B C T : nat) (idx : list nat) (seg : nat) :
  length idx = B -> Forall (fun s => (s + seg <= T)%nat) idx ->
  remaining_mask B C T (map Z.of_nat idx) (Z.of_nat seg)
  = Ok (map (fun s => repeat (repeat true s ++ repeat false seg
                                ++ repeat true (T - s - seg)) C) idx).
Proof.
  intros HB Hidx. unfold remaining_mask.
  destruct (remaining_mask_loop (map Z.of_nat idx) (Z.of_nat seg) B 0
              (repeat (repeat (repeat true T) C) B)) as [mask [Hf [Hl Hb]]];
    [rewrite length_map; lia|].
  rewrite Hf. f_equal. apply nth_error_ext. intros b. rewrite Hb.
  rewrite nth_error_map. rewrite repeat_length in Hl.
  destruct (Nat.lt_ge_cases b B) as [Hlt|Hge].
  - rewrite (nth_error_repeat_lt _ _ _ Hlt).
    replace ((0 <=? b)%nat && (b <? 0 + B)%nat) with true
      by (symmetry; apply andb_true_iff; split;
          [apply Nat.leb_le|apply Nat.ltb_lt]; lia).
    destruct (nth_error idx b) as [s|] eqn:Es;
      [|apply nth_error_None in Es; lia].
    simpl. f_equal. unfold cleared. rewrite map_repeat. f_equal.
    rewrite (nth_error_nth (map Z.of_nat idx) b 0 (x := Z.of_nat s))
      by (now rewrite nth_error_map, Es).
    apply cleared_mask_row.
    rewrite Forall_forall in Hidx. apply Hidx. eapply nth_error_In; eauto.
  - replace ((0 <=? b)%nat && (b <? 0 + B)%nat) with false
      by (symmetry; apply andb_false_iff; right; apply Nat.ltb_ge; lia).
    replace (nth_error idx b) with (@None nat)
      by (symmetry; apply nth_error_None; lia).
    simpl. apply nth_error_None. rewrite repeat_length. lia.
Qed.

Lemma map2_map_r {A B B' C : Type} (f : A -> B' -> C) (g : B -> B') (l : list A) (l' : list B) :
  map2 f l (map g l') = map2 (fun a b => f a (g b)) l l'.
Proof.
  unfold map2. revert l'. induction l as [|a l IH]; intros [|b l']; simpl; auto.
  now rewrite IH.
Qed.

Lemma map2_ext_in {A B C : Type} (f g : A -> B -> C) (l : list A) (l' : list B) :
  (forall a b, In (a, b) (combine l l') -> f a b = g a b) ->
  map2 f l l' = map2 g l l'.
Proof.
  intros H. unfold map2. apply map_ext_in. intros [a b] Hin. now apply H.
Qed.

Lemma cut_segment_length {A : Type} (s seg : nat) (row : list A) :
  (s + seg <= length row)%nat ->
  length (cut_segment s seg row) = (length row - seg)%nat.
Proof.
  intros H. unfold cut_segment.
  rewrite length_app, length_firstn, length_skipn. lia.
Qed.

(** X1.  With the remaining mask of [forward], the selection
    [t.masked_select(remaining_mask).view(B, C, -1)] succeeds and gives, for
    every utterance and channel, the row without the frames of that
    utterance's prompt segment, in order; every row has [T - seg] frames.
    It needs every segment to lie inside the latent sequence. *)
Theorem select_remaining_cuts_segments {A : Type}
    (B C T seg : nat) (t : list (list (list A))) (segment_indices : list nat) :
  (0 < B)%nat -> (0 < C)%nat -> length t = B ->
  Forall (fun U => length U = C /\ Forall (fun row => length row = T) U) t ->
  length segment_indices = B ->
  Forall (fun s => (s + seg <= T)%nat) segment_indices ->
  exists mask,
    remaining_mask B C T (map Z.of_nat segment_indices) (Z.of_nat seg) = Ok mask /\
    select_remaining t mask
      = Ok (map2 (fun U s => map (cut_segment s seg) U) t segment_indices) /\
    Forall (fun U => length U = C /\
                     Forall (fun row => length row = (T - seg)%nat) U)
           (map2 (fun U s => map (cut_segment s seg) U) t segment_indices).
Proof.
  intros HB HC Ht Hshape Hidx Hseg.
  eexists. split; [now apply remaining_mask_blocks|].
  assert (Hcut : Forall (fun U => length U = C /\
                     Forall (fun row => length row = (T - seg)%nat) U)
           (map2 (fun U s => map (cut_segment s seg) U) t segment_indices)).
  { apply Forall_forall. intros U' HU'. unfold map2 in HU'.
    apply in_map_iff in HU'. destruct HU' as [[U s] [<- Hin]]. simpl.
    pose proof (in_combine_l _ _ _ _ Hin) as HU.
    pose proof (in_combine_r _ _ _ _ Hin) as Hs.
    rewrite Forall_forall in Hshape, Hseg.
    destruct (Hshape U HU) as [HUC Hrows]. specialize (Hseg s Hs).
    split; [now rewrite length_map|].
    apply Forall_forall. intros row Hrow. apply in_map_iff in Hrow.
    destruct Hrow as [r [<- Hr]]. rewrite Forall_forall in Hrows.
    rewrite cut_segment_length; rewrite (Hrows r Hr); lia. }
  split; [|exact Hcut].
  unfold select_remaining. rewrite masked_select_rows, map2_map_r.
  rewrite (map2_ext_in _ (fun U s => map (cut_segment s seg) U)).
  - destruct t as [|U0 t']; [simpl in Ht; lia|].
    assert (HU0 : length U0 = C).
    { rewrite Forall_forall in Hshape. apply (Hshape U0). now left. }
    cbn [hd]. rewrite HU0, Ht.
    apply (view3_flatten B C (T - seg)); try assumption.
    rewrite map2_length. lia.
  - intros U s Hin.
    pose proof (in_combine_l _ _ _ _ Hin) as HU.
    pose proof (in_combine_r _ _ _ _ Hin) as Hs.
    rewrite Forall_forall in Hshape, Hseg.
    destruct (Hshape U HU) as [HUC Hrows]. specialize (Hseg s Hs).
    rewrite <- HUC, map2_repeat_r. apply map_ext_in. intros row Hrow.
    rewrite Forall_forall in Hrows. rewrite <- (Hrows row Hrow).
    apply select_row_cut. rewrite (Hrows row Hrow). lia.
Qed.

Lemma select_remaining_cuts_segments_witness :
  exists mask,
    remaining_mask 2 1 4 (map Z.of_nat [1; 0]%nat) (Z.of_nat 2) = Ok mask /\
    select_remaining [[[10; 11; 12; 13]]; [[20; 21; 22; 23]]] mask
      = Ok [[[10; 13]]; [[22; 23]]].
Proof.
  destruct (select_remaining_cuts_segments 2 1 4 2
              [[[10; 11; 12; 13]]; [[20; 21; 22; 23]]] [1; 0]%nat
              ltac:(lia) ltac:(lia) eq_refl
              ltac:(repeat constructor) eq_refl
              ltac:(repeat constructor))
    as [mask [Hm [Hs _]]].
  exists mask. split; [exact Hm|exact Hs].
Defined.

(** ** Expansion with a hard alignment *)

Import Expansion.

Section ExpandHard.

Context {V : Type}.
Variables (vzero vone : V) (vadd vmul : V -> V -> V).

Hypothesis add_0_l : forall x, vadd vzero x = x.
Hypothesis add_0_r : forall x, vadd x vzero = x.
Hypothesis mul_0_l : forall x, vmul vzero x = vzero.
Hypothesis mul_1_l : forall x, vmul vone x = x.

Lemma vsum_indicator (k : nat) (erow : list V) :
  forall a,
    vsum vzero vadd
      (map2 (fun m e => vmul (if Nat.eqb k m then vone else vzero) e)
            (seq a (length erow)) erow)
    = if (a <=? k)%nat then nth (k - a) erow vzero else vzero.
Proof.
  induction erow as [|e erow IH]; intros a.
  - simpl. destruct (a <=? k)%nat; [now destruct (k - a)%nat|reflexivity].
  - cbn [length seq]. unfold map2 in *. cbn [combine map vsum fold_right fst snd].
    fold (vsum vzero vadd
            (map (fun ab => vmul (if Nat.eqb k (fst ab) then vone else vzero) (snd ab))
                 (combine (seq (S a) (length erow)) erow))).
    rewrite IH.
    destruct (Nat.eqb_spec k a) as [->|Hne].
    + rewrite mul_1_l.
      replace ((S a <=? a)%nat) with false by (symmetry; apply Nat.leb_gt; lia).
      rewrite add_0_r, Nat.leb_refl, Nat.sub_diag. reflexivity.
    + rewrite mul_0_l, add_0_l.
      destruct (Nat.leb_spec (S a) k), (Nat.leb_spec a k); try lia; [|reflexivity].
      replace (k - a)%nat with (S (k - S a)) by lia. reflexivity.
Qed.

Lemma vsum_no_phoneme (erow : list V) (ms : list nat) :
  vsum vzero vadd (map2 (fun (m : nat) e => vmul vzero e) ms erow) = vzero.
Proof.
  unfold map2. revert erow. induction ms as [|m ms IH]; intros [|e erow];
    simpl; try reflexivity.
  now rewrite mul_0_l, add_0_l, IH.
Qed.

Lemma of_bits_path_matrix (T_en T_de : nat) (p : list nat) :
  of_bits vzero vone (path_matrix T_en T_de p)
  = map (fun m =>
           map (fun n => match nth_error p n with
                         | Some k => if Nat.eqb k m then vone else vzero
                         | None => vzero
                         end) (seq 0 T_de))
        (seq 0 T_en).
Proof.
  unfold of_bits, path_matrix. rewrite map_map. apply map_ext. intros m.
  rewrite map_map. apply map_ext. intros n.
  destruct (nth_error p n) as [k|]; [|reflexivity].
  now destruct (Nat.eqb k m).
Qed.

Lemma map2_map_l {A A' B C : Type} (f : A' -> B -> C) (g : A -> A') (l : list A) (l' : list B) :
  map2 f (map g l) l' = map2 (fun a b => f (g a) b) l l'.
Proof.
  unfold map2. revert l'. induction l as [|a l IH]; intros [|b l']; simpl; auto.
  now rewrite IH.
Qed.

Lemma einsum_hard_alignment (T_en T_de : nat) (p : list nat) (enc : list (list V)) :
  (0 < T_en)%nat -> Forall (fun erow => length erow = T_en) enc ->
  einsum_lmn_jm vzero vadd vmul [of_bits vzero vone (path_matrix T_en T_de p)] enc
  = map (fun erow => map (at_phoneme vzero p erow) (seq 0 T_de)) enc.
Proof.
  intros HT Henc. unfold einsum_lmn_jm.
  assert (Hw : length (hd [] (hd [] [of_bits vzero vone (path_matrix T_en T_de p)]))
               = T_de).
  { cbn [hd]. rewrite of_bits_path_matrix.
    destruct T_en as [|T]; [lia|]. cbn [seq map hd].
    now rewrite length_map, length_seq. }
  rewrite Hw. apply map_ext_in. intros erow Herow.
  rewrite Forall_forall in Henc. specialize (Henc erow Herow).
  apply map_ext_in. intros n Hn. apply in_seq in Hn.
  cbn [map vsum fold_right]. rewrite add_0_r.
  rewrite of_bits_path_matrix, map2_map_l. unfold at_phoneme.
  rewrite (map2_ext_in _
    (fun m e => vmul match nth_error p n with
                     | Some k => if Nat.eqb k m then vone else vzero
                     | None => vzero
                     end e)).
  - destruct (nth_error p n) as [k|].
    + rewrite <- Henc, vsum_indicator. simpl. now rewrite Nat.sub_0_r.
    + apply vsum_no_phoneme.
  - intros m e Hin. apply in_combine_l in Hin. apply in_seq in Hin.
    now rewrite nth_map_seq by lia.
Qed.

End ExpandHard.

(** X2.  In a number system where 0 is neutral for addition and absorbing
    for multiplication and 1 is neutral for multiplication, expanding with a
    hard alignment copies: for every utterance and channel, frame [j] of
    [expand_encodings] is the phoneme encoding plus the pitch embedding of
    the phoneme the alignment assigns to frame [j], and 0 + 0 on a frame
    with no phoneme. *)
Theorem expand_encodings_copies_phonemes {V : Type}
    (vzero vone : V) (vadd vmul : V -> V -> V) (T_en T_de : nat)
    (batch : list (list nat * list (list V) * list (list V))) :
  (forall x, vadd vzero x = x) -> (forall x, vadd x vzero = x) ->
  (forall x, vmul vzero x = vzero) -> (forall x, vmul vone x = x) ->
  (0 < T_en)%nat ->
  Forall (fun u => Forall (fun erow => length erow = T_en) (snd (fst u)) /\
                   Forall (fun prow => length prow = T_en) (snd u)) batch ->
  let attn := map (fun u => [of_bits vzero vone (path_matrix T_en T_de (fst (fst u)))])
                  batch in
  let phoneme_enc := map (fun u => snd (fst u)) batch in
  let pitch_emb := map (fun u => snd u) batch in
  expand_encodings vzero vadd vmul phoneme_enc attn pitch_emb
  = map (fun u =>
           map2 (fun erow prow =>
                   map (fun j => vadd (at_phoneme vzero (fst (fst u)) erow j)
                                      (at_phoneme vzero (fst (fst u)) prow j))
                       (seq 0 T_de))
                (snd (fst u)) (snd u))
        batch.
Proof.
  intros A0l A0r M0 M1 HT Hshape attn phoneme_enc pitch_emb.
  unfold expand_encodings, einsum_klmn_kjm, attn, phoneme_enc, pitch_emb.
  rewrite !map2_map. apply map_ext_in. intros [[p enc] pe] Hu.
  rewrite Forall_forall in Hshape. destruct (Hshape _ Hu) as [Henc Hpe].
  cbn [fst snd] in *.
  rewrite !(einsum_hard_alignment vzero vone vadd vmul A0l A0r M0 M1)
    by assumption.
  rewrite map2_map_l, map2_map_r. apply map2_ext_in. intros erow prow _.
  now rewrite map2_map.
Qed.

Lemma expand_encodings_copies_phonemes_witness :
  expand_encodings 0 Z.add Z.mul [[[5; 6; 7]; [50; 60; 70]]]
    [[of_bits 0 1 (path_matrix 3 4 [0; 0; 2]%nat)]]
    [[[100; 200; 300]; [1000; 2000; 3000]]]
  = [[[105; 105; 307; 0]; [1050; 1050; 3070; 0]]].
Proof.
  exact (expand_encodings_copies_phonemes 0 1 Z.add Z.mul 3 4
           [([0; 0; 2]%nat, [[5; 6; 7]; [50; 60; 70]],
             [[100; 200; 300]; [1000; 2000; 3000]])]
           Z.add_0_l Z.add_0_r Z.mul_0_l Z.mul_1_l
           ltac:(lia) ltac:(repeat constructor)).
Defined.

(** ** The median filter [remove_spikes] *)

Import SpikeFilter.

Lemma In_firstn {A : Type} (n : nat) (l : list A) (x : A) : In x (firstn n l) -> In x l.
Proof.
  revert l. induction n as [|n IH]; intros [|y l] H; simpl in *; try tauto.
  destruct H as [H|H]; [now left|right; now apply IH].
Qed.

Lemma In_skipn {A : Type} (n : nat) (l : list A) (x : A) : In x (skipn n l) -> In x l.
Proof.
  revert l. induction n as [|n IH]; intros [|y l] H; simpl in *; try tauto.
  right. now apply IH.
Qed.

Section MedianFacts.

Context {A : Type}.
Variable leb : A -> A -> bool.
Variable zero : A.

Lemma insert_length (x : A) (l : list A) :
  length (insert leb x l) = S (length l).
Proof.
  induction l as [|y l IH]; simpl; [reflexivity|].
  destruct (leb x y); simpl; [reflexivity|now rewrite IH].
Qed.

Lemma sort_length (l : list A) : length (sort leb l) = length l.
Proof.
  induction l as [|x l IH]; simpl; [reflexivity|].
  now rewrite insert_length, IH.
Qed.

Lemma insert_In (x y : A) (l : list A) :
  In y (insert leb x l) <-> y = x \/ In y l.
Proof.
  induction l as [|z l IH]; simpl.
  - split; intros [H|H]; auto.
  - destruct (leb x z); simpl; [split; intros [H|H]; auto|].
    rewrite IH. tauto.
Qed.

Lemma sort_In (y : A) (l : list A) : In y (sort leb l) <-> In y l.
Proof.
  induction l as [|x l IH]; simpl; [tauto|].
  rewrite insert_In, IH. split; intros [H|H]; auto.
Qed.

Lemma median_In (w : list A) : w <> [] -> In (median leb zero w) w.
Proof.
  intros Hw. unfold median. apply sort_In. apply nth_In.
  rewrite sort_length. destruct w as [|x w]; [congruence|]. cbn [length].
  apply Nat.Div0.div_lt_upper_bound. lia.
Qed.

Lemma In_last (l : list A) : l <> [] -> In (last l zero) l.
Proof.
  induction l as [|x l IH]; [congruence|]. intros _.
  destruct l as [|y l]; [now left|]. right. apply IH. discriminate.
Qed.

Lemma replicate_pad_In (p : nat) (row : list A) (x : A) :
  row <> [] -> In x (replicate_pad zero p row) -> In x row.
Proof.
  intros Hrow H. unfold replicate_pad in H.
  apply in_app_or in H. destruct H as [H|H].
  - apply repeat_spec in H. subst x. destruct row; [congruence|now left].
  - apply in_app_or in H. destruct H as [H|H]; [exact H|].
    apply repeat_spec in H. subst x. now apply In_last.
Qed.

Lemma replicate_pad_length (p : nat) (row : list A) :
  length (replicate_pad zero p row) = (p + length row + p)%nat.
Proof.
  unfold replicate_pad. rewrite !length_app, !repeat_length. lia.
Qed.

Lemma window_length (ws : nat) (padded : list A) (i : nat) :
  (i + ws <= length padded)%nat -> length (window ws padded i) = ws.
Proof.
  intros H. unfold window. rewrite length_firstn, length_skipn. lia.
Qed.

End MedianFacts.

Lemma odd_half (ws : nat) : Nat.even ws = false -> ws = (2 * (ws / 2) + 1)%nat.
Proof.
  intros H. pose proof (Nat.div_mod_eq ws 2) as Hd.
  pose proof (Nat.mod_upper_bound ws 2) as Hm.
  assert (ws mod 2 <> 0)%nat.
  { intros H0.
    assert (Nat.even ws = true)
      by (apply Nat.even_spec; exists (ws / 2)%nat; lia).
    congruence. }
  lia.
Qed.

(** X3.  With an odd window and a non-empty first row, [remove_spikes]
    returns a tensor of the shape of its input in which only row [0, 0] is
    filtered: that row keeps its length and every sample of it is a sample of
    the input row, and every other channel and utterance is zero. *)
Theorem remove_spikes_first_row_only {A : Type} (leb : A -> A -> bool) (zero : A)
    (row : list A) (channels : list (list A)) (utterances : list (list (list A)))
    (window_size : nat) :
  Nat.even window_size = false -> row <> [] ->
  exists filtered,
    remove_spikes leb zero ((row :: channels) :: utterances) window_size
      = Ok ((filtered :: map (map (fun _ => zero)) channels)
              :: map (map (map (fun _ => zero))) utterances) /\
    length filtered = length row /\
    Forall (fun v => In v row) filtered.
Proof.
  intros Hodd Hrow. unfold remove_spikes. rewrite Hodd.
  destruct row as [|a row]; [congruence|].
  eexists. split; [reflexivity|]. split; [now rewrite length_map, length_seq|].
  apply Forall_forall. intros v Hv. apply in_map_iff in Hv.
  destruct Hv as [i [<- Hi]]. apply in_seq in Hi.
  apply (replicate_pad_In zero (window_size / 2)); [discriminate|].
  apply (In_skipn i), (In_firstn window_size).
  fold (window window_size (replicate_pad zero (window_size / 2) (a :: row)) i).
  apply median_In.
  intros Hnil. apply (f_equal (@length A)) in Hnil.
  rewrite window_length in Hnil.
  - subst window_size. discriminate.
  - rewrite replicate_pad_length. pose proof (odd_half _ Hodd). lia.
Qed.

Lemma remove_spikes_first_row_only_witness :
  exists filtered,
    remove_spikes Z.leb 0 [[[1; 9; 2; 3]; [7; 7; 7; 7]]; [[5; 5; 5; 5]; [6; 6; 6; 6]]] 3
      = Ok [[filtered; [0; 0; 0; 0]]; [[0; 0; 0; 0]; [0; 0; 0; 0]]] /\
    length filtered = 4%nat.
Proof.
  destruct (remove_spikes_first_row_only Z.leb 0 [1; 9; 2; 3] [[7; 7; 7; 7]]
              [[[5; 5; 5; 5]; [6; 6; 6; 6]]] 3 eq_refl ltac:(discriminate))
    as [filtered [H [Hl _]]].
  exists filtered. split; [exact H|exact Hl].
Defined.

Section AscendingRows.

Context {A : Type}.
Variable leb : A -> A -> bool.
Variable zero : A.

Lemma ascending_tail (a : A) (l : list A) :
  ascending leb (a :: l) = true -> ascending leb l = true.
Proof.
  destruct l as [|b l]; [reflexivity|]. simpl. intros H.
  apply andb_true_iff in H. tauto.
Qed.

Lemma sort_ascending (l : list A) : ascending leb l = true -> sort leb l = l.
Proof.
  induction l as [|a l IH]; intros H; [reflexivity|].
  cbn [sort]. rewrite IH by (eapply ascending_tail; eauto).
  destruct l as [|b l]; [reflexivity|].
  simpl in H. apply andb_true_iff in H. destruct H as [Hab _].
  simpl. now rewrite Hab.
Qed.

Lemma ascending_skipn (i : nat) (l : list A) :
  ascending leb l = true -> ascending leb (skipn i l) = true.
Proof.
  revert l. induction i as [|i IH]; intros l H; [exact H|].
  destruct l as [|a l]; [reflexivity|]. simpl. apply IH.
  eapply ascending_tail; eauto.
Qed.

Lemma ascending_firstn (n : nat) (l : list A) :
  ascending leb l = true -> ascending leb (firstn n l) = true.
Proof.
  revert l. induction n as [|n IH]; intros l H; [reflexivity|].
  destruct l as [|a l]; [reflexivity|].
  pose proof (IH l (ascending_tail _ _ H)) as Hl.
  destruct l as [|b l]; [destruct n; reflexivity|].
  destruct n as [|n]; [reflexivity|].
  simpl in H. apply andb_true_iff in H. destruct H as [Hab _].
  change (leb a b && ascending leb (firstn (S n) (b :: l)) = true).
  now rewrite Hab.
Qed.

Hypothesis leb_refl : forall x, leb x x = true.

Lemma ascending_repeat_front (x : A) (p : nat) (l : list A) :
  ascending leb (x :: l) = true -> ascending leb (repeat x p ++ x :: l) = true.
Proof.
  intros H. induction p as [|p IH]; [exact H|].
  cbn [repeat app]. destruct p as [|p]; cbn [repeat app] in *;
    change (leb x x && ascending leb (x :: l) = true) || idtac.
  - now rewrite leb_refl.
  - change (leb x x && ascending leb (x :: repeat x p ++ x :: l) = true).
    now rewrite leb_refl.
Qed.

Lemma ascending_repeat (x : A) (p : nat) : ascending leb (repeat x p) = true.
Proof.
  destruct p as [|p]; [reflexivity|].
  replace (repeat x (S p)) with (repeat x p ++ [x])
    by (now rewrite <- repeat_cons).
  now apply ascending_repeat_front.
Qed.

Lemma ascending_repeat_back (l : list A) (p : nat) :
  l <> [] -> ascending leb l = true ->
  ascending leb (l ++ repeat (last l zero) p) = true.
Proof.
  induction l as [|a l IH]; [congruence|]. intros _ H.
  destruct l as [|b l].
  - cbn [app last]. destruct p as [|p]; [reflexivity|].
    change (ascending leb (repeat a 1 ++ a :: repeat a p) = true).
    apply ascending_repeat_front. apply (ascending_repeat a (S p)).
  - simpl in H. apply andb_true_iff in H. destruct H as [Hab Hl].
    change (leb a b && ascending leb ((b :: l) ++ repeat (last (b :: l) zero) p)
            = true).
    rewrite Hab. apply IH; [discriminate|exact Hl].
Qed.

Lemma ascending_replicate_pad (p : nat) (row : list A) :
  row <> [] -> ascending leb row = true ->
  ascending leb (replicate_pad zero p row) = true.
Proof.
  intros Hrow H. unfold replicate_pad.
  pose proof (ascending_repeat_back row p Hrow H) as Hb.
  destruct row as [|a row]; [congruence|].
  cbn [hd]. cbn [app] in Hb |- *. now apply ascending_repeat_front.
Qed.

Lemma replicate_pad_nth (p : nat) (row : list A) (i : nat) :
  (i < length row)%nat ->
  nth (i + p) (replicate_pad zero p row) zero = nth i row zero.
Proof.
  intros Hi. unfold replicate_pad.
  rewrite app_nth2 by (rewrite repeat_length; lia).
  rewrite repeat_length, app_nth1 by lia. f_equal. lia.
Qed.

End AscendingRows.

Lemma map_nth_seq {A : Type} (l : list A) (d : A) :
  map (fun i => nth i l d) (seq 0 (length l)) = l.
Proof.
  apply (nth_ext _ _ d d); [now rewrite length_map, length_seq|].
  intros i Hi. rewrite length_map, length_seq in Hi.
  now rewrite nth_map_seq by exact Hi.
Qed.

Lemma median_ascending_window {A : Type} (leb : A -> A -> bool) (zero : A)
    (row : list A) (ws i : nat) :
  (forall x, leb x x = true) -> Nat.even ws = false -> row <> [] ->
  ascending leb row = true -> (i < length row)%nat ->
  median leb zero (window ws (replicate_pad zero (ws / 2) row) i) = nth i row zero.
Proof.
  intros Hrefl Hodd Hrow Hasc Hi.
  pose proof (odd_half ws Hodd) as Hws.
  set (h := (ws / 2)%nat) in *.
  unfold median.
  rewrite window_length by (rewrite replicate_pad_length; lia).
  rewrite sort_ascending
    by (unfold window; apply ascending_firstn, ascending_skipn;
        now apply ascending_replicate_pad).
  replace ((ws - 1) / 2)%nat with h
    by (rewrite Hws; replace (2 * h + 1 - 1)%nat with (h * 2)%nat by lia;
        now rewrite Nat.div_mul).
  unfold window. rewrite nth_firstn.
  replace (h <? ws)%nat with true by (symmetry; apply Nat.ltb_lt; lia).
  rewrite nth_skipn. now apply replicate_pad_nth.
Qed.

(** X4.  A row whose samples do not decrease (for a reflexive comparison) is
    a fixed point of the median filter: with an odd window, [remove_spikes]
    returns row [0, 0] unchanged, whatever the window size. *)
Theorem remove_spikes_keeps_ascending {A : Type} (leb : A -> A -> bool) (zero : A)
    (row : list A) (channels : list (list A)) (utterances : list (list (list A)))
    (window_size : nat) :
  (forall x, leb x x = true) ->
  Nat.even window_size = false -> row <> [] -> ascending leb row = true ->
  remove_spikes leb zero ((row :: channels) :: utterances) window_size
  = Ok ((row :: map (map (fun _ => zero)) channels)
          :: map (map (map (fun _ => zero))) utterances).
Proof.
  intros Hrefl Hodd Hrow Hasc. unfold remove_spikes. rewrite Hodd.
  destruct row as [|a row]; [congruence|].
  cbv zeta.
  replace (map (fun i => median leb zero
                  (window window_size
                     (replicate_pad zero (window_size / 2) (a :: row)) i))
               (seq 0 (length (a :: row))))
    with (a :: row); [reflexivity|].
  rewrite <- (map_nth_seq (a :: row) zero) at 1.
  apply map_ext_in. intros i Hi. apply in_seq in Hi.
  symmetry. apply median_ascending_window; try assumption. lia.
Qed.

Lemma remove_spikes_keeps_ascending_witness :
  remove_spikes Z.leb 0 [[[1; 2; 2; 5; 9]]] 5 = Ok [[[1; 2; 2; 5; 9]]].
Proof.
  exact (remove_spikes_keeps_ascending Z.leb 0 [1; 2; 2; 5; 9] [] [] 5
           Z.leb_refl eq_refl ltac:(discriminate) eq_refl).
Defined.

Section Spike.

Context {A : Type}.
Variable leb : A -> A -> bool.
Variable zero : A.
Variables c v : A.

Hypothesis leb_cc : leb c c = true.
Hypothesis strict : leb c v = negb (leb v c).

Lemma insert_level (n : nat) : insert leb c (repeat c n) = c :: repeat c n.
Proof. destruct n as [|n]; [reflexivity|]. simpl. now rewrite leb_cc. Qed.

Lemma sort_level (n : nat) : sort leb (repeat c n) = repeat c n.
Proof.
  induction n as [|n IH]; [reflexivity|].
  cbn [repeat sort]. now rewrite IH, insert_level.
Qed.

Lemma insert_spike (n : nat) :
  insert leb v (repeat c n)
  = if leb v c then v :: repeat c n else repeat c n ++ [v].
Proof.
  induction n as [|n IH]; [now destruct (leb v c)|].
  cbn [repeat insert]. destruct (leb v c); [reflexivity|].
  now rewrite IH.
Qed.

Lemma sort_spike (a b : nat) :
  sort leb (repeat c a ++ v :: repeat c b)
  = if leb v c then v :: repeat c (a + b) else repeat c (a + b) ++ [v].
Proof.
  induction a as [|a IH].
  - cbn [repeat app sort plus]. now rewrite sort_level, insert_spike.
  - cbn [repeat app sort plus]. rewrite IH.
    destruct (leb v c) eqn:Evc; simpl in strict.
    + cbn [insert]. rewrite strict. now rewrite insert_level.
    + destruct (a + b)%nat as [|m]; cbn [repeat app insert].
      * now rewrite strict.
      * now rewrite leb_cc.
Qed.

Lemma median_level (n : nat) :
  (0 < n)%nat -> median leb zero (repeat c n) = c.
Proof.
  intros Hn. unfold median. rewrite sort_level, repeat_length.
  apply nth_repeat_lt. apply Nat.Div0.div_lt_upper_bound. lia.
Qed.

(** A window of [2h + 1] samples, one of which is the spike, has the level
    as its median as soon as [h] is at least 1. *)
Lemma median_spike (a b h : nat) :
  (1 <= h)%nat -> (a + 1 + b = 2 * h + 1)%nat ->
  median leb zero (repeat c a ++ v :: repeat c b) = c.
Proof.
  intros Hh Hlen. unfold median.
  rewrite length_app, repeat_length. cbn [length]. rewrite repeat_length.
  replace ((a + S b - 1) / 2)%nat with h
    by (replace (a + S b - 1)%nat with (h * 2)%nat by lia;
        now rewrite Nat.div_mul).
  rewrite sort_spike. destruct (leb v c).
  - destruct h as [|h]; [lia|]. cbn [nth]. apply nth_repeat_lt. lia.
  - rewrite app_nth1 by (rewrite repeat_length; lia).
    apply nth_repeat_lt. lia.
Qed.

Lemma firstn_repeat_le (n m : nat) (x : A) :
  (n <= m)%nat -> firstn n (repeat x m) = repeat x n.
Proof.
  revert m. induction n as [|n IH]; intros [|m] H; simpl; try reflexivity; [lia|].
  f_equal. apply IH. lia.
Qed.

Lemma skipn_repeat_le (n m : nat) (x : A) :
  skipn n (repeat x m) = repeat x (m - n).
Proof.
  revert m. induction n as [|n IH]; intros [|m]; simpl; try reflexivity.
  apply IH.
Qed.

(** Every full window of a level row with one spike is either level or has
    the spike once. *)
Lemma window_spike (a b n i : nat) :
  (i + n <= a + 1 + b)%nat ->
  window n (repeat c a ++ v :: repeat c b) i = repeat c n \/
  exists a' b', window n (repeat c a ++ v :: repeat c b) i
                = repeat c a' ++ v :: repeat c b' /\ (a' + 1 + b' = n)%nat.
Proof.
  intros Hfit. unfold window.
  rewrite skipn_app, skipn_repeat_le, repeat_length.
  destruct (Nat.le_gt_cases i a) as [Hia|Hia].
  - replace (i - a)%nat with 0%nat by lia. cbn [skipn].
    rewrite firstn_app, repeat_length.
    destruct (Nat.le_gt_cases n (a - i)) as [Hn|Hn].
    + left. replace (n - (a - i))%nat with 0%nat by lia.
      cbn [firstn]. rewrite app_nil_r. now apply firstn_repeat_le.
    + right. exists (a - i)%nat, (n - (a - i) - 1)%nat. split; [|lia].
      rewrite firstn_all2 by (rewrite repeat_length; lia). f_equal.
      destruct (n - (a - i))%nat as [|k] eqn:Ek; [lia|].
      cbn [firstn]. f_equal. rewrite firstn_repeat_le by lia.
      f_equal. lia.
  - left. replace (a - i)%nat with 0%nat by lia. cbn [repeat app].
    destruct (i - a)%nat as [|k] eqn:Ek; [lia|]. cbn [skipn].
    rewrite skipn_repeat_le. apply firstn_repeat_le. lia.
Qed.

End Spike.

Lemma last_repeat_S {A : Type} (l : list A) (x d : A) (r : nat) :
  last (l ++ repeat x (S r)) d = x.
Proof.
  replace (repeat x (S r)) with (repeat x r ++ [x]) by (now rewrite <- repeat_cons).
  rewrite app_assoc. apply last_last.
Qed.

Lemma map_const_seq {A : Type} (x : A) (a n : nat) :
  map (fun _ => x) (seq a n) = repeat x n.
Proof.
  revert a. induction n as [|n IH]; intros a; simpl; [reflexivity|].
  now rewrite IH.
Qed.

(** X5.  [remove_spikes] removes an isolated spike: in a row that is level
    but for one sample [v] strictly above or below the level, away from both
    ends, every odd window of at least three samples gives the level row. *)
Theorem remove_spikes_removes_interior_spike {A : Type}
    (leb : A -> A -> bool) (zero c v : A) (k r : nat)
    (channels : list (list A)) (utterances : list (list (list A)))
    (window_size : nat) :
  leb c c = true -> leb c v = negb (leb v c) ->
  Nat.even window_size = false -> (3 <= window_size)%nat ->
  (1 <= k)%nat -> (1 <= r)%nat ->
  remove_spikes leb zero
    (((repeat c k ++ v :: repeat c r) :: channels) :: utterances) window_size
  = Ok ((repeat c (k + 1 + r) :: map (map (fun _ => zero)) channels)
          :: map (map (map (fun _ => zero))) utterances).
Proof.
  intros Hcc Hstrict Hodd Hws Hk Hr.
  pose proof (odd_half window_size Hodd) as Hhalf.
  set (h := (window_size / 2)%nat) in *.
  assert (Hpad : replicate_pad zero h (repeat c k ++ v :: repeat c r)
                 = repeat c (h + k) ++ v :: repeat c (r + h)).
  { assert (Hhd : hd zero (repeat c k ++ v :: repeat c r) = c)
      by (destruct k; [lia|reflexivity]).
    assert (Hlast : last (repeat c k ++ v :: repeat c r) zero = c).
    { destruct r as [|r']; [lia|].
      change (v :: repeat c (S r')) with ([v] ++ repeat c (S r')).
      rewrite app_assoc. apply last_repeat_S. }
    unfold replicate_pad. rewrite Hhd, Hlast.
    rewrite (repeat_app c h k), (repeat_app c r h), <- !app_assoc.
    reflexivity. }
  unfold remove_spikes. rewrite Hodd.
  destruct (repeat c k ++ v :: repeat c r) as [|x row'] eqn:Erow.
  { destruct k; discriminate. }
  cbv zeta. fold h. rewrite Hpad.
  replace (length (x :: row')) with (k + 1 + r)%nat
    by (rewrite <- Erow, length_app, repeat_length; cbn [length];
        rewrite repeat_length; lia).
  rewrite <- (map_const_seq c 0 (k + 1 + r)).
  do 3 f_equal. apply map_ext_in. intros i Hi. apply in_seq in Hi.
  destruct (window_spike c v (h + k) (r + h) window_size i) as [Hw|[a' [b' [Hw Hl]]]];
    [lia| |]; rewrite Hw.
  - apply median_level; [exact Hcc|lia].
  - apply (median_spike leb zero c v Hcc Hstrict a' b' h); lia.
Qed.

Lemma remove_spikes_removes_interior_spike_witness :
  remove_spikes Z.leb 0 [[[4; 4; 90; 4; 4; 4]]] 3 = Ok [[[4; 4; 4; 4; 4; 4]]].
Proof.
  exact (remove_spikes_removes_interior_spike Z.leb 0 4 90 2 3 [] [] 3
           eq_refl eq_refl eq_refl ltac:(lia) ltac:(lia) ltac:(lia)).
Defined.

(** ** Rescue items of [__getitem__] *)

Import Dataset.

Section GetItem.

Context {M : Type}.
Variable samples : list (Sample M).
Variables max_text_len min_audio_len : nat.

Let unfit : Sample M -> bool := too_long_or_short max_text_len min_audio_len.

(** The recursive calls: from counter [r] on, [__getitem__] scans for the
    first sample that fits. *)
Lemma getitem_scan (fuel : nat) :
  forall r, (length samples - r + 1 <= fuel)%nat ->
    exists r' res,
      getitem fuel samples max_text_len min_audio_len r r = (r', Some res) /\
      (r <= r')%nat /\
      (forall j s, (r <= j < r')%nat -> nth_error samples j = Some s -> unfit s = true) /\
      ((exists s, nth_error samples r' = Some s /\ unfit s = false /\
                  res = Ok (item_of s)) \/
       (nth_error samples r' = None /\ res = Raise IndexError)).
Proof.
  induction fuel as [|fuel IH]; intros r Hfuel; [lia|].
  cbn [getitem]. destruct (nth_error samples r) as [s|] eqn:Es.
  - fold (unfit s). destruct (unfit s) eqn:Eu.
    + assert (Hr : (r < length samples)%nat) by (apply nth_error_Some; congruence).
      destruct (IH (S r)) as [r' [res [Hg [Hle [Hbetween Hres]]]]]; [lia|].
      exists r', res. split; [exact Hg|]. split; [lia|]. split; [|exact Hres].
      intros j s' Hj Hs'. destruct (Nat.eq_dec j r) as [->|Hne].
      * congruence.
      * apply (Hbetween j); [lia|exact Hs'].
    + exists r, (Ok (item_of s)). split; [reflexivity|]. split; [lia|].
      split; [intros; lia|]. left. now exists s.
  - exists r, (Raise IndexError). split; [reflexivity|]. split; [lia|].
    split; [intros; lia|]. now right.
Qed.

End GetItem.

(** X6.  [__getitem__] always ends, within [len(samples) + 2] nested calls
    whatever the rescue counter is: it returns an item or raises
    [IndexError].  The counter never decreases, and an item that is returned
    always fits: its token ids are at most [max_text_len], its waveform at
    least [min_audio_len] long, and its [token_len] is the number of its
    token ids. *)
Theorem getitem_ends_with_fitting_item {M : Type} (samples : list (Sample M))
    (max_text_len min_audio_len rescue_item_idx idx fuel : nat) :
  (length samples + 2 <= fuel)%nat ->
  exists rescue' res,
    getitem fuel samples max_text_len min_audio_len rescue_item_idx idx
      = (rescue', Some res) /\
    (rescue_item_idx <= rescue')%nat /\
    match res with
    | Ok it =>
        (length (item_token_ids it) <= max_text_len)%nat /\
        (min_audio_len <= length (item_wav it))%nat /\
        item_token_len it = Z.of_nat (length (item_token_ids it))
    | Raise e => e = IndexError
    end.
Proof.
  intros Hfuel. destruct fuel as [|fuel]; [lia|]. cbn [getitem].
  assert (Hfit : forall s : Sample M,
    too_long_or_short max_text_len min_audio_len s = false ->
    (length (item_token_ids (item_of s)) <= max_text_len)%nat /\
    (min_audio_len <= length (item_wav (item_of s)))%nat /\
    item_token_len (item_of s) = Z.of_nat (length (item_token_ids (item_of s)))).
  { intros s Hs. unfold too_long_or_short in Hs.
    apply orb_false_iff in Hs. destruct Hs as [H1 H2].
    apply Nat.ltb_ge in H1, H2. simpl. auto. }
  destruct (nth_error samples idx) as [s|] eqn:Es.
  - destruct (too_long_or_short max_text_len min_audio_len s) eqn:Eu.
    + destruct (getitem_scan samples max_text_len min_audio_len fuel
                  (S rescue_item_idx)) as [r' [res [Hg [Hle [_ Hres]]]]]; [lia|].
      exists r', res. split; [exact Hg|]. split; [lia|].
      destruct Hres as [[s' [_ [Hu ->]]]|[_ ->]]; [now apply Hfit|reflexivity].
    + exists rescue_item_idx, (Ok (item_of s)). split; [reflexivity|].
      split; [lia|now apply Hfit].
  - exists rescue_item_idx, (Raise IndexError). repeat split; lia.
Qed.

Lemma getitem_ends_with_fitting_item_witness :
  exists rescue' res,
    getitem 5
      [{| token_ids := [1; 2; 3]; wav := [1; 1]%Q; meta := tt |};
       {| token_ids := [4]; wav := [1]%Q; meta := tt |};
       {| token_ids := [5; 6]; wav := [1; 1; 1]%Q; meta := tt |}]
      2 2 0 0 = (rescue', Some res) /\ (0 <= rescue')%nat.
Proof.
  destruct (getitem_ends_with_fitting_item
      [{| token_ids := [1; 2; 3]; wav := [1; 1]%Q; meta := tt |};
       {| token_ids := [4]; wav := [1]%Q; meta := tt |};
       {| token_ids := [5; 6]; wav := [1; 1; 1]%Q; meta := tt |}]
      2 2 0 0 5 ltac:(simpl; lia)) as [r' [res [H [Hle _]]]].
  exists r', res. split; [exact H|exact Hle].
Defined.

(** X7.  When the requested sample does not fit, [__getitem__] returns the
    first fitting sample after the rescue counter, not a neighbour of the
    requested index, and leaves the counter on it: every sample between the
    old and the new counter does not fit.  When no sample after the counter
    fits, the counter runs to the end of the samples and the call raises
    [IndexError]. *)
Theorem getitem_rescues_first_fitting {M : Type} (samples : list (Sample M))
    (max_text_len min_audio_len rescue_item_idx idx fuel : nat) (s : Sample M) :
  (length samples + 2 <= fuel)%nat ->
  nth_error samples idx = Some s ->
  too_long_or_short max_text_len min_audio_len s = true ->
  exists rescue' res,
    getitem fuel samples max_text_len min_audio_len rescue_item_idx idx
      = (rescue', Some res) /\
    (rescue_item_idx < rescue')%nat /\
    (forall j s', (rescue_item_idx < j < rescue')%nat ->
                  nth_error samples j = Some s' ->
                  too_long_or_short max_text_len min_audio_len s' = true) /\
    ((exists s', nth_error samples rescue' = Some s' /\
                 too_long_or_short max_text_len min_audio_len s' = false /\
                 res = Ok (item_of s')) \/
     (nth_error samples rescue' = None /\ res = Raise IndexError)).
Proof.
  intros Hfuel Hs Hu. destruct fuel as [|fuel]; [lia|].
  cbn [getitem]. rewrite Hs, Hu.
  destruct (getitem_scan samples max_text_len min_audio_len fuel
              (S rescue_item_idx)) as [r' [res [Hg [Hle [Hbetween Hres]]]]]; [lia|].
  exists r', res. split; [exact Hg|]. split; [lia|]. split; [|exact Hres].
  intros j s' Hj Hs'. apply (Hbetween j); [lia|exact Hs'].
Qed.

Lemma getitem_rescues_first_fitting_witness :
  getitem 5
    [{| token_ids := [1; 2; 3]; wav := [1; 1]%Q; meta := tt |};
     {| token_ids := [4]; wav := [1]%Q; meta := tt |};
     {| token_ids := [5; 6]; wav := [1; 1; 1]%Q; meta := tt |}]
    2 2 0 0
  = (2%nat, Some (Ok (item_of {| token_ids := [5; 6]; wav := [1; 1; 1]%Q; meta := tt |})))
  /\ exists rescue', (0 < rescue')%nat.
Proof.
  destruct (getitem_rescues_first_fitting
      [{| token_ids := [1; 2; 3]; wav := [1; 1]%Q; meta := tt |};
       {| token_ids := [4]; wav := [1]%Q; meta := tt |};
       {| token_ids := [5; 6]; wav := [1; 1; 1]%Q; meta := tt |}]
      2 2 0 0 5 {| token_ids := [1; 2; 3]; wav := [1; 1]%Q; meta := tt |}
      ltac:(simpl; lia) eq_refl eq_refl) as [r' [res [H [Hlt _]]]].
  split; [reflexivity|now exists r'].
Defined.

(** ** Padding of a batch by [collate_fn] *)

Lemma skipn_repeat_tail {A : Type} (n m : nat) (x : A) :
  skipn n (repeat x m) = repeat x (m - n).
Proof.
  revert m. induction n as [|n IH]; intros [|m]; simpl; try reflexivity.
  apply IH.
Qed.

Lemma max_len_ge (ls : list nat) (x : nat) : In x ls -> (x <= max_len ls)%nat.
Proof.
  induction ls as [|y ls IH]; simpl; [tauto|].
  intros [->|H]; [lia|]. specialize (IH H). lia.
Qed.

Lemma setitem_prefix_whole {A : Type} (pad : A) (T : nat) (src : list A) :
  (length src <= T)%nat ->
  setitem_prefix (repeat pad T) (Z.of_nat (length src)) src
  = Ok (src ++ repeat pad (T - length src)).
Proof.
  intros Hle. unfold setitem_prefix, py_index. rewrite repeat_length.
  destruct (Z.ltb_spec (Z.of_nat (length src)) 0); [lia|].
  rewrite Z.min_l, Nat2Z.id, Nat.eqb_refl by lia.
  now rewrite skipn_repeat_tail.
Qed.

Lemma for_each_ok {A B : Type} (f : A -> Result B) (g : A -> B) (l : list A) :
  (forall a, In a l -> f a = Ok (g a)) -> for_each f l = Ok (map g l).
Proof.
  induction l as [|a l IH]; intros H; [reflexivity|].
  cbn [for_each map]. rewrite (H a) by now left.
  cbn [bind]. rewrite IH by (intros b Hb; apply H; now right). reflexivity.
Qed.

(** X8.  For a non-empty batch of items as [__getitem__] builds them
    ([token_len] is the number of token ids), [collate_fn] succeeds and keeps
    the order of the batch: row [i] of [tokens] is the token ids of item [i]
    followed by [pad_id] up to the longest text, row [i] of [waveform] is the
    waveform of item [i] followed by [pad_id] (not zero) up to the longest
    waveform, and the first [token_len] entries of a token row give the
    token ids back. *)
Theorem collate_fn_pads_in_order {M : Type} (pad_id : Z) (batch : list (Item M)) :
  batch <> [] ->
  Forall (fun it => item_token_len it = Z.of_nat (length (item_token_ids it))) batch ->
  let T := max_len (map (fun it => length (item_token_ids it)) batch) in
  let W := max_len (map (fun it => length (item_wav it)) batch) in
  exists c,
    collate_fn pad_id batch = Ok c /\
    tokens c = map (fun it => item_token_ids it
                                ++ repeat pad_id (T - length (item_token_ids it))) batch /\
    waveform c = map (fun it => [item_wav it
                                   ++ repeat (inject_Z pad_id) (W - length (item_wav it))])
                     batch /\
    token_lens c = map (fun it => Z.of_nat (length (item_token_ids it))) batch /\
    metas c = map item_meta batch /\
    Forall (fun row => length row = T) (tokens c) /\
    Forall2 (fun it row => firstn (Z.to_nat (item_token_len it)) row = item_token_ids it)
            batch (tokens c).
Proof.
  intros Hne Hlen. destruct batch as [|it0 rest]; [congruence|]. clear Hne.
  intros T W. unfold collate_fn. cbv beta iota.
  set (batch := it0 :: rest) in *. fold T W.
  rewrite (for_each_ok _
    (fun it => (item_token_ids it ++ repeat pad_id (T - length (item_token_ids it)),
                [item_wav it ++ repeat (inject_Z pad_id) (W - length (item_wav it))]))).
  - cbn [bind]. eexists. split; [reflexivity|].
    cbn [tokens waveform token_lens metas].
    rewrite !map_map. cbn [fst snd].
    split; [reflexivity|]. split; [reflexivity|].
    split.
    { apply map_ext_in. intros it Hit. rewrite Forall_forall in Hlen. now apply Hlen. }
    split; [reflexivity|]. split.
    + apply Forall_forall. intros row Hrow. apply in_map_iff in Hrow.
      destruct Hrow as [it [<- Hit]]. rewrite length_app, repeat_length.
      assert (length (item_token_ids it) <= T)%nat
        by (apply max_len_ge; now apply (in_map (fun it => length (item_token_ids it)))).
      lia.
    + apply Forall2_map_self. intros it Hit.
      rewrite Forall_forall in Hlen. rewrite (Hlen it Hit), Nat2Z.id.
      rewrite firstn_app, Nat.sub_diag, firstn_all. cbn [firstn].
      apply app_nil_r.
  - intros it Hit. rewrite Forall_forall in Hlen. rewrite (Hlen it Hit).
    rewrite setitem_prefix_whole
      by (apply max_len_ge; now apply (in_map (fun it => length (item_token_ids it)))).
    cbn [bind].
    rewrite setitem_prefix_whole
      by (apply max_len_ge; now apply (in_map (fun it => length (item_wav it)))).
    reflexivity.
Qed.

Lemma collate_fn_pads_in_order_witness :
  exists c,
    collate_fn 7
      [{| item_token_ids := [1; 2]; item_token_len := 2; item_wav := [1]%Q; item_meta := tt |};
       {| item_token_ids := [3; 4; 5]; item_token_len := 3; item_wav := [2; 3]%Q;
          item_meta := tt |}] = Ok c /\
    tokens c = [[1; 2; 7]; [3; 4; 5]].
Proof.
  destruct (collate_fn_pads_in_order 7
      [{| item_token_ids := [1; 2]; item_token_len := 2; item_wav := [1]%Q; item_meta := tt |};
       {| item_token_ids := [3; 4; 5]; item_token_len := 3; item_wav := [2; 3]%Q;
          item_meta := tt |}]
      ltac:(discriminate) ltac:(repeat constructor)) as [c [H [Ht _]]].
  exists c. split; [exact H|exact Ht].
Defined.

(** ** Relative lengths and frame lengths *)

Import Batching.

Lemma max_len_In (ls : list nat) : ls <> [] -> In (max_len ls) ls.
Proof.
  induction ls as [|x ls IH]; [congruence|]. intros _. simpl.
  destruct ls as [|y ls]; [left; simpl; lia|].
  destruct (Nat.max_spec x (max_len (y :: ls))) as [[_ ->]|[_ ->]];
    [right; apply IH; discriminate|now left].
Qed.

Section RelLens.

Local Open Scope Q_scope.

Lemma rel_len_bounds (l W : nat) :
  (0 < W)%nat -> (l <= W)%nat ->
  0 <= inject_Z (Z.of_nat l) / inject_Z (Z.of_nat W) <= 1 /\
  (l = W -> inject_Z (Z.of_nat l) / inject_Z (Z.of_nat W) == 1).
Proof.
  intros HW Hl.
  assert (HWq : 0 < inject_Z (Z.of_nat W)).
  { change 0 with (inject_Z 0). rewrite <- Zlt_Qlt. lia. }
  split; [split|].
  - apply Qle_shift_div_l; [exact HWq|]. rewrite Qmult_0_l.
    change 0 with (inject_Z 0). rewrite <- Zle_Qle. lia.
  - apply Qle_shift_div_r; [exact HWq|]. rewrite Qmult_1_l.
    rewrite <- Zle_Qle. lia.
  - intros ->. unfold Qdiv. apply Qmult_inv_r.
    intros H0. rewrite H0 in HWq. now apply Qlt_irrefl in HWq.
Qed.

Lemma to_int_bounds (T : nat) (r : Q) :
  0 <= r <= 1 ->
  (0 <= to_int (inject_Z (Z.of_nat T) * r) <= Z.of_nat T)%Z /\
  (r == 1 -> to_int (inject_Z (Z.of_nat T) * r) = Z.of_nat T).
Proof.
  intros [H0 H1]. unfold to_int.
  destruct r as [n d]. unfold Qle, Qeq in *. cbn in *.
  assert (Hn : (0 <= n)%Z) by lia.
  assert (Hd : (n <= Zpos d)%Z) by lia.
  rewrite Z.quot_div_nonneg by nia.
  split; [split|].
  - apply Z.div_pos; nia.
  - apply Z.div_le_upper_bound; nia.
  - intros He. replace n with (Zpos d) by lia.
    rewrite Z.div_mul by lia. reflexivity.
Qed.

End RelLens.

(** X9.  The relative waveform lengths [collate_fn] returns, one per item in
    batch order, lie between 0 and 1 as soon as some waveform is not empty,
    and an item with the longest waveform gets exactly 1. *)
Theorem collate_fn_rel_lens {M : Type} (pad_id : Z) (batch : list (Item M))
    (c : Collated M) :
  collate_fn pad_id batch = Ok c ->
  (0 < max_len (map (fun it => length (item_wav it)) batch))%nat ->
  Forall2 (fun it r =>
             (0 <= r <= 1)%Q /\
             (length (item_wav it) = max_len (map (fun it => length (item_wav it)) batch)
              -> (r == 1)%Q))
          batch (waveform_rel_lens c) /\
  Exists (fun r => (r == 1)%Q) (waveform_rel_lens c).
Proof.
  intros Hc HW. unfold collate_fn in Hc.
  destruct batch as [|it0 rest]; [discriminate|].
  set (batch := it0 :: rest) in *.
  destruct (for_each _ batch) as [rows|e]; cbn [bind] in Hc; [|discriminate].
  injection Hc as <-. cbn [waveform_rel_lens]. rewrite map_map.
  assert (Hall : Forall2 (fun it r =>
             (0 <= r <= 1)%Q /\
             (length (item_wav it) = max_len (map (fun it => length (item_wav it)) batch)
              -> (r == 1)%Q))
          batch
          (map (fun it => (inject_Z (Z.of_nat (length (item_wav it))) /
                           inject_Z (Z.of_nat
                             (max_len (map (fun it => length (item_wav it)) batch))))%Q)
               batch)).
  { apply Forall2_map_self. intros it Hit.
    apply rel_len_bounds; [exact HW|].
    apply max_len_ge. now apply (in_map (fun it => length (item_wav it))). }
  split; [exact Hall|].
  assert (Hin : In (max_len (map (fun it => length (item_wav it)) batch))
                   (map (fun it => length (item_wav it)) batch))
    by (apply max_len_In; discriminate).
  apply in_map_iff in Hin. destruct Hin as [it [Hlen Hit]].
  apply Exists_exists.
  exists ((inject_Z (Z.of_nat (length (item_wav it))) /
           inject_Z (Z.of_nat
             (max_len (map (fun it => length (item_wav it)) batch))))%Q).
  split.
  - exact (in_map (fun it => (inject_Z (Z.of_nat (length (item_wav it))) /
                              inject_Z (Z.of_nat
                                (max_len (map (fun it => length (item_wav it)) batch))))%Q)
                  batch it Hit).
  - apply rel_len_bounds; [exact HW|lia|exact Hlen].
Qed.

Lemma collate_fn_rel_lens_witness :
  Exists (fun r => (r == 1)%Q)
    [(inject_Z 1 / inject_Z 2)%Q; (inject_Z 2 / inject_Z 2)%Q].
Proof.
  exact (proj2 (collate_fn_rel_lens 7
    [{| item_token_ids := [1; 2]; item_token_len := 2; item_wav := [1]%Q; item_meta := tt |};
     {| item_token_ids := [3; 4; 5]; item_token_len := 3; item_wav := [2; 3]%Q;
        item_meta := tt |}]
    _ eq_refl ltac:(simpl; lia))).
Defined.

Lemma pad_frames_0 (t : list (list (list Q))) : pad_frames 0 t = t.
Proof.
  unfold pad_frames. rewrite <- (map_id t) at 2. apply map_ext. intros u.
  rewrite <- (map_id u) at 2. apply map_ext. intros row. simpl. apply app_nil_r.
Qed.

Lemma shape_last_pad_frames (d : nat) (row : list Q) (u : list (list Q))
    (t : list (list (list Q))) :
  shape_last (pad_frames d ((row :: u) :: t)) = (length row + d)%nat.
Proof.
  unfold shape_last, pad_frames. cbn [map hd]. now rewrite length_app, repeat_length.
Qed.

Lemma pad_frames_rows (d T : nat) (t : list (list (list Q))) :
  Forall (Forall (fun row => length row = T)) t ->
  Forall (Forall (fun row => length row = (T + d)%nat)) (pad_frames d t).
Proof.
  intros H. unfold pad_frames. rewrite Forall_map.
  eapply Forall_impl; [|exact H]. intros u Hu. rewrite Forall_map.
  eapply Forall_impl; [|exact Hu]. intros row Hrow. cbn beta.
  now rewrite length_app, repeat_length, Hrow.
Qed.

(** X10.  For latents and mel-spectrograms with at least one utterance and one
    channel, the length adjustment of [format_batch_on_device] fails neither
    of its assertions: the shorter tensor is padded with zero frames up to
    the longer one, the two vectors of frame lengths are the same, and a
    relative length between 0 and 1 gives a frame length between 0 and the
    common number of frames, exactly that number for relative length 1.
    Relative lengths are taken as rationals. *)
Theorem format_batch_lengths_agree
    (lrow mrow : list Q) (lu mu : list (list Q)) (lt mt : list (list (list Q)))
    (waveform_rel_lens : list Q) :
  let latents := (lrow :: lu) :: lt in
  let mel := (mrow :: mu) :: mt in
  let T := Nat.max (length lrow) (length mrow) in
  Forall (Forall (fun row => length row = length lrow)) latents ->
  Forall (Forall (fun row => length row = length mrow)) mel ->
  exists lens,
    format_batch_lengths latents mel waveform_rel_lens =
      Ok (pad_frames (T - length lrow) latents, pad_frames (T - length mrow) mel,
          lens, lens) /\
    Forall (Forall (fun row => length row = T))
           (pad_frames (T - length lrow) latents) /\
    Forall (Forall (fun row => length row = T))
           (pad_frames (T - length mrow) mel) /\
    Forall2 (fun r l => (0 <= r <= 1)%Q ->
                        0 <= l <= Z.of_nat T /\ ((r == 1)%Q -> l = Z.of_nat T))
            waveform_rel_lens lens.
Proof.
  intros latents mel T Hl Hm.
  exists (scaled_lens T waveform_rel_lens).
  assert (Hsub : forall ls, tsum (map2 Z.sub ls ls) = 0).
  { induction ls as [|x ls IH]; [reflexivity|].
    unfold tsum, map2 in *. cbn [combine map fold_right fst snd] in *. lia. }
  assert (Hfin : forall l' m' : list (list (list Q)),
            shape_last l' = T -> shape_last m' = T ->
            (if negb (shape_last l' =? shape_last m')%nat then Raise AssertionError
             else
               let mel_lens := scaled_lens (shape_last m') waveform_rel_lens in
               let latents_lens := scaled_lens (shape_last l') waveform_rel_lens in
               if negb (tsum (map2 Z.sub latents_lens mel_lens) =? 0)
               then Raise AssertionError
               else Ok (l', m', mel_lens, latents_lens)) =
            Ok (l', m', scaled_lens T waveform_rel_lens,
                scaled_lens T waveform_rel_lens)).
  { intros l' m' -> ->. rewrite Nat.eqb_refl. cbn [negb]. cbv zeta.
    now rewrite Hsub. }
  split; [|split; [|split]].
  - unfold format_batch_lengths.
    assert (Hsl : shape_last latents = length lrow) by reflexivity.
    assert (Hsm : shape_last mel = length mrow) by reflexivity.
    rewrite Hsl, Hsm.
    destruct (Nat.ltb_spec (length lrow) (length mrow)) as [Hlt|Hge].
    + replace (T - length mrow)%nat with 0%nat by (subst T; lia).
      replace (T - length lrow)%nat with (length mrow - length lrow)%nat
        by (subst T; lia).
      rewrite pad_frames_0. apply Hfin.
      * unfold latents. rewrite shape_last_pad_frames. subst T. lia.
      * rewrite Hsm. subst T. lia.
    + destruct (Nat.ltb_spec (length mrow) (length lrow)) as [Hlt|Hge'].
      * replace (T - length lrow)%nat with 0%nat by (subst T; lia).
        replace (T - length mrow)%nat with (length lrow - length mrow)%nat
          by (subst T; lia).
        rewrite pad_frames_0. apply Hfin.
        -- rewrite Hsl. subst T. lia.
        -- unfold mel. rewrite shape_last_pad_frames. subst T. lia.
      * replace (T - length lrow)%nat with 0%nat by (subst T; lia).
        replace (T - length mrow)%nat with 0%nat by (subst T; lia).
        rewrite !pad_frames_0. apply Hfin.
        -- rewrite Hsl. subst T. lia.
        -- rewrite Hsm. subst T. lia.
  - generalize (pad_frames_rows (T - length lrow) _ _ Hl).
    now replace (length lrow + (T - length lrow))%nat with T by (subst T; lia).
  - generalize (pad_frames_rows (T - length mrow) _ _ Hm).
    now replace (length mrow + (T - length mrow))%nat with T by (subst T; lia).
  - unfold scaled_lens. apply Forall2_map_self. intros r _ Hr.
    now apply to_int_bounds.
Qed.

Lemma format_batch_lengths_agree_witness :
  exists lens,
    format_batch_lengths [[[1; 2; 3]%Q]] [[[4; 5]%Q; [6; 7]%Q]] [1; 1 # 2]%Q =
      Ok ([[[1; 2; 3]%Q]], [[[4; 5; 0]%Q; [6; 7; 0]%Q]], lens, lens).
Proof.
  destruct (format_batch_lengths_agree [1; 2; 3]%Q [4; 5]%Q [] [[6; 7]%Q] [] []
              [1; 1 # 2]%Q
              ltac:(repeat constructor) ltac:(repeat constructor))
    as [lens [H _]].
  exists lens. exact H.
Defined.

(** ** Reflection padding of the waveform *)

Import Spectrogram.

Lemma nth_tl_S {A : Type} (l : list A) (n : nat) (d : A) :
  nth n (tl l) d = nth (S n) l d.
Proof. destruct l; [now destruct n|reflexivity]. Qed.

Lemma reflect_pad_inside {A : Type} (d : A) (p : nat) (row : list A) :
  (p < length row)%nat ->
  exists out,
    reflect_pad (Z.of_nat p) row = Ok out /\
    length out = (length row + 2 * p)%nat /\
    (forall i, (i < length row)%nat -> nth (p + i) out d = nth i row d) /\
    (forall k, (k <= p)%nat -> nth (p - k) out d = nth k row d) /\
    (forall k, (k <= p)%nat ->
               nth (p + length row - 1 + k) out d = nth (length row - 1 - k) row d).
Proof.
  intros Hp. unfold reflect_pad.
  destruct (Z.leb_spec (Z.of_nat (length row)) (Z.of_nat p)) as [H|_]; [lia|].
  destruct (Z.ltb_spec (Z.of_nat (length row) + 2 * Z.of_nat p) 1) as [H|_]; [lia|].
  destruct (Z.leb_spec 0 (Z.of_nat p)) as [_|H]; [|lia].
  rewrite Nat2Z.id. eexists. split; [reflexivity|].
  assert (Hl : length (rev (firstn p (tl row))) = p).
  { rewrite length_rev, length_firstn, length_tl. lia. }
  assert (Hr : length (firstn p (tl (rev row))) = p).
  { rewrite length_firstn, length_tl, length_rev. lia. }
  split; [|split; [|split]].
  - rewrite !length_app, Hl, Hr. lia.
  - intros i Hi. rewrite app_nth2 by lia. rewrite Hl.
    replace (p + i - p)%nat with i by lia. now rewrite app_nth1.
  - intros k Hk. destruct k as [|k].
    + rewrite Nat.sub_0_r, app_nth2 by lia. rewrite Hl, Nat.sub_diag.
      rewrite app_nth1 by lia. reflexivity.
    + rewrite app_nth1 by lia.
      rewrite rev_nth by (rewrite length_rev in Hl; lia).
      rewrite length_rev in Hl. rewrite Hl.
      replace (p - S (p - S k))%nat with k by lia.
      rewrite nth_firstn.
      destruct (Nat.ltb_spec k p) as [_|H]; [|lia]. apply nth_tl_S.
  - intros k Hk. rewrite app_nth2 by lia. rewrite Hl. destruct k as [|k].
    + rewrite app_nth1 by lia. f_equal. lia.
    + rewrite app_nth2 by lia.
      replace (p + length row - 1 + S k - p - length row)%nat with k by lia.
      rewrite nth_firstn.
      destruct (Nat.ltb_spec k p) as [_|H]; [|lia].
      rewrite nth_tl_S, rev_nth by lia. f_equal. lia.
Qed.

(** X11.  For a non-empty batch of waveforms of one positive length [T] and
    a transform size that is at least the hop length, the reflection padding
    of [wav_to_spec] never fails: the padding [p] is capped at [T - 1], every
    padded row has [T + 2 p] samples, carries the waveform from position
    [p] on, and mirrors it around its first and around its last sample. *)
Theorem wav_to_spec_pad_reflects {A : Type} (d : A) (row : list A)
    (rest : list (list A)) (n_fft hop_length : Z) :
  let y := row :: rest in
  let T := length row in
  let p := Z.to_nat (Z.min (int_half (n_fft - hop_length)) (Z.of_nat T - 1)) in
  hop_length <= n_fft ->
  (0 < T)%nat ->
  Forall (fun r => length r = T) y ->
  exists out,
    wav_to_spec_pad y n_fft hop_length = Ok out /\
    (p <= T - 1)%nat /\
    Forall2 (fun r o =>
               length o = (T + 2 * p)%nat /\
               (forall i, (i < T)%nat -> nth (p + i) o d = nth i r d) /\
               (forall k, (k <= p)%nat -> nth (p - k) o d = nth k r d) /\
               (forall k, (k <= p)%nat ->
                          nth (p + T - 1 + k) o d = nth (T - 1 - k) r d))
            y out.
Proof.
  intros y T p Hfft HT Hrows.
  assert (Hh : 0 <= int_half (n_fft - hop_length)).
  { unfold int_half. apply Z.quot_pos; lia. }
  assert (Hp : (p <= T - 1)%nat) by (subst p; lia).
  assert (Hpad : Z.min (int_half (n_fft - hop_length)) (Z.of_nat (samples y) - 1)
                 = Z.of_nat p).
  { unfold samples, y. cbn [hd]. fold T. subst p. lia. }
  unfold wav_to_spec_pad. rewrite Hpad. clear Hpad.
  assert (Hgen : forall l, Forall (fun r : list A => length r = T) l ->
            exists out,
              Dataset.for_each (reflect_pad (Z.of_nat p)) l = Ok out /\
              Forall2 (fun r o =>
                 length o = (T + 2 * p)%nat /\
                 (forall i, (i < T)%nat -> nth (p + i) o d = nth i r d) /\
                 (forall k, (k <= p)%nat -> nth (p - k) o d = nth k r d) /\
                 (forall k, (k <= p)%nat ->
                            nth (p + T - 1 + k) o d = nth (T - 1 - k) r d))
                l out).
  { induction l as [|r l IH]; intros Hl.
    - exists []. split; [reflexivity|constructor].
    - inversion Hl as [|? ? Hr Hl']; subst.
      destruct (IH Hl') as [outs [Ho Hf]].
      destruct (reflect_pad_inside d p r ltac:(lia)) as [o [Hpo Hspec]].
      exists (o :: outs). split.
      + cbn [Dataset.for_each]. rewrite Hpo. cbn [bind]. rewrite Ho. reflexivity.
      + constructor; [|exact Hf]. rewrite Hr in Hspec. exact Hspec. }
  destruct (Hgen y Hrows) as [out [Ho Hf]].
  exists out. split; [exact Ho|]. split; [exact Hp|exact Hf].
Qed.

Lemma wav_to_spec_pad_reflects_witness :
  exists out, wav_to_spec_pad [[1; 2; 3]; [4; 5; 6]] 8 2 = Ok out /\
              Forall (fun o => length o = 7%nat) out.
Proof.
  destruct (wav_to_spec_pad_reflects 0 [1; 2; 3] [[4; 5; 6]] 8 2
              ltac:(lia) ltac:(simpl; lia) ltac:(repeat constructor))
    as [out [Ho [_ Hf]]].
  exists out. split; [exact Ho|].
  inversion Hf as [|? ? ? ? [H1 _] Hf']; subst.
  inversion Hf' as [|? ? ? ? [H2 _] Hf'']; subst.
  inversion Hf''; subst. repeat constructor; assumption.
Defined.

(** X12.  [wav_to_mel] pads by half the difference of transform size and hop
    length without the cap of [wav_to_spec]: on a non-empty batch of
    waveforms of one length [T] it raises a runtime error as soon as [T] is
    at most that padding, and pads exactly as [wav_to_spec] when [T] is
    larger. *)
Theorem wav_to_mel_pad_short_waveform {A : Type} (row : list A)
    (rest : list (list A)) (n_fft hop_length : Z) :
  let y := row :: rest in
  let T := length row in
  (Z.of_nat T <= int_half (n_fft - hop_length) ->
   wav_to_mel_pad y n_fft hop_length = Raise RuntimeError) /\
  (int_half (n_fft - hop_length) < Z.of_nat T ->
   wav_to_mel_pad y n_fft hop_length = wav_to_spec_pad y n_fft hop_length).
Proof.
  intros y T. split; intros H.
  - unfold wav_to_mel_pad, y. cbn [Dataset.for_each]. unfold reflect_pad at 1.
    fold T. destruct (Z.leb_spec (Z.of_nat T) (int_half (n_fft - hop_length)));
      [reflexivity|lia].
  - unfold wav_to_mel_pad, wav_to_spec_pad, samples, y. cbn [hd]. fold T.
    now rewrite Z.min_l by lia.
Qed.

Lemma wav_to_mel_pad_short_waveform_witness :
  wav_to_mel_pad [[1; 2; 3]] 1024 320 = Raise RuntimeError.
Proof.
  apply (proj1 (wav_to_mel_pad_short_waveform [1; 2; 3] [] 1024 320)).
  vm_compute. discriminate.
Defined.

(** ** Amplitude compression and min-max scaling *)

Import Scaling.

Section ScalingFacts.

Local Open Scope R_scope.

Lemma exp_ln_scaled (v C clip_val : R) :
  0 < C -> 0 < clip_val -> exp (ln (Rmax v clip_val * C)) / C = Rmax v clip_val.
Proof.
  intros HC Hclip.
  assert (Hm : 0 < Rmax v clip_val).
  { eapply Rlt_le_trans; [exact Hclip|apply Rmax_r]. }
  rewrite exp_ln by (apply Rmult_lt_0_compat; assumption).
  field. Lra.lra.
Qed.

(** X13.  On real numbers and for a positive compression factor and a
    positive clip value, decompression undoes compression up to the clip:
    every amplitude comes back as the larger of itself and the clip value,
    so amplitudes at or above the clip value come back unchanged.  The same
    holds for [db_to_amp] after [amp_to_db] with the default clip 1e-5. *)
Theorem dynamic_range_round_trip (x : list R) (C clip_val : R) :
  0 < C -> 0 < clip_val ->
  dynamic_range_decompression (dynamic_range_compression x C clip_val) C =
    map (fun v => Rmax v clip_val) x /\
  (Forall (fun v => clip_val <= v) x ->
   dynamic_range_decompression (dynamic_range_compression x C clip_val) C = x) /\
  db_to_amp (amp_to_db x) = map (fun v => Rmax v (1 / 100000)) x.
Proof.
  intros HC Hclip.
  assert (Hrt : forall C' clip', 0 < C' -> 0 < clip' ->
            map (fun v => exp v / C') (map (fun v => ln (Rmax v clip' * C')) x) =
            map (fun v => Rmax v clip') x).
  { intros C' clip' HC' Hclip'. rewrite map_map. apply map_ext. intros v.
    now apply exp_ln_scaled. }
  unfold dynamic_range_decompression, dynamic_range_compression,
    db_to_amp, amp_to_db, _db_to_amp, _amp_to_db.
  split; [|split].
  - now apply Hrt.
  - intros Hx. rewrite Hrt by assumption.
    rewrite <- (map_id x) at 2. apply map_ext_in. intros v Hv.
    rewrite Forall_forall in Hx. apply Rmax_left. now apply Hx.
  - apply Hrt; Lra.lra.
Qed.

Lemma dynamic_range_round_trip_witness :
  dynamic_range_decompression (dynamic_range_compression [0; 2] 1 (1 / 100000)) 1 =
    [Rmax 0 (1 / 100000); Rmax 2 (1 / 100000)].
Proof.
  apply (proj1 (dynamic_range_round_trip [0; 2] 1 (1 / 100000)
                  ltac:(Lra.lra) ltac:(Lra.lra))).
Defined.

Lemma fold_Rmin_le (x : R) (r : list R) (v : R) :
  In v (x :: r) -> fold_right Rmin x r <= v.
Proof.
  induction r as [|y r IH]; cbn [fold_right].
  - intros [->|[]]. apply Rle_refl.
  - intros [->|[->|H]].
    + eapply Rle_trans; [apply Rmin_r|]. apply IH. now left.
    + apply Rmin_l.
    + eapply Rle_trans; [apply Rmin_r|]. apply IH. now right.
Qed.

Lemma fold_Rmax_ge (x : R) (r : list R) (v : R) :
  In v (x :: r) -> v <= fold_right Rmax x r.
Proof.
  induction r as [|y r IH]; cbn [fold_right].
  - intros [->|[]]. apply Rle_refl.
  - intros [->|[->|H]].
    + eapply Rle_trans; [|apply Rmax_r]. apply IH. now left.
    + apply Rmax_l.
    + eapply Rle_trans; [|apply Rmax_r]. apply IH. now right.
Qed.

Lemma fold_Rmin_In (x : R) (r : list R) : In (fold_right Rmin x r) (x :: r).
Proof.
  induction r as [|y r IH]; cbn [fold_right]; [now left|].
  unfold Rmin at 1. destruct (Rle_dec y (fold_right Rmin x r)).
  - right. now left.
  - destruct IH as [H|H]; [now left|right; now right].
Qed.

Lemma fold_Rmax_In (x : R) (r : list R) : In (fold_right Rmax x r) (x :: r).
Proof.
  induction r as [|y r IH]; cbn [fold_right]; [now left|].
  unfold Rmax at 1. destruct (Rle_dec y (fold_right Rmax x r)).
  - destruct IH as [H|H]; [now left|right; now right].
  - right. now left.
Qed.

(** X14.  On real numbers, for a tensor that holds two different values,
    [min_max_scaler] returns the minimum and the maximum of the tensor and a
    scaled tensor whose values all lie between 0 and 1, with 0 and 1 both
    reached, and [min_max_inverse_scaler] on its three results gives the
    tensor back. *)
Theorem min_max_scaler_round_trip (tensor : list R) (a b : R) :
  In a tensor -> In b tensor -> a < b ->
  exists tensor_norm min_val max_val,
    min_max_scaler tensor = Ok (tensor_norm, min_val, max_val) /\
    In min_val tensor /\ In max_val tensor /\
    Forall (fun v => min_val <= v <= max_val) tensor /\
    Forall (fun v => 0 <= v <= 1) tensor_norm /\
    In 0 tensor_norm /\ In 1 tensor_norm /\
    min_max_inverse_scaler tensor_norm min_val max_val = tensor.
Proof.
  intros Ha Hb Hab. destruct tensor as [|x r]; [destruct Ha|].
  set (tensor := x :: r) in *.
  set (mn := fold_right Rmin x r). set (mx := fold_right Rmax x r).
  assert (Hmn : forall v, In v tensor -> mn <= v) by (intros; now apply fold_Rmin_le).
  assert (Hmx : forall v, In v tensor -> v <= mx) by (intros; now apply fold_Rmax_ge).
  assert (Hin_mn : In mn tensor) by apply fold_Rmin_In.
  assert (Hin_mx : In mx tensor) by apply fold_Rmax_In.
  assert (Hlt : mn < mx).
  { eapply Rle_lt_trans; [apply (Hmn a Ha)|].
    eapply Rlt_le_trans; [exact Hab|apply (Hmx b Hb)]. }
  exists (map (fun v => (v - mn) / (mx - mn)) tensor), mn, mx.
  split; [reflexivity|]. split; [exact Hin_mn|]. split; [exact Hin_mx|].
  split; [|split; [|split; [|split]]].
  - apply Forall_forall. intros v Hv. split; [now apply Hmn|now apply Hmx].
  - apply Forall_forall. intros w Hw. apply in_map_iff in Hw.
    destruct Hw as [v [<- Hv]].
    specialize (Hmn v Hv). specialize (Hmx v Hv). split.
    + apply Rmult_le_pos; [Lra.lra|].
      apply Rlt_le, Rinv_0_lt_compat. Lra.lra.
    + apply (Rmult_le_reg_r (mx - mn)); [Lra.lra|].
      replace ((v - mn) / (mx - mn) * (mx - mn)) with (v - mn)
        by (field; Lra.lra).
      Lra.lra.
  - apply in_map_iff. exists mn. split; [|exact Hin_mn]. field. Lra.lra.
  - apply in_map_iff. exists mx. split; [|exact Hin_mx]. field. Lra.lra.
  - unfold min_max_inverse_scaler. rewrite map_map.
    rewrite <- (map_id tensor) at 2. apply map_ext. intros v. field. Lra.lra.
Qed.

Lemma min_max_scaler_round_trip_witness :
  exists tensor_norm min_val max_val,
    min_max_scaler [2; 1; 3] = Ok (tensor_norm, min_val, max_val) /\
    min_max_inverse_scaler tensor_norm min_val max_val = [2; 1; 3].
Proof.
  destruct (min_max_scaler_round_trip [2; 1; 3] 1 3
              ltac:(simpl; tauto) ltac:(simpl; tauto) ltac:(Lra.lra))
    as [n [mn [mx [H [_ [_ [_ [_ [_ [_ Hinv]]]]]]]]]].
  exists n, mn, mx. split; assumption.
Defined.

End ScalingFacts.

(** ** Inverse-frequency weights *)

Import Balancer.

Lemma traverse_Forall2 {X Y : Type} (f : X -> PyExn + Y) (P : X -> Y -> Prop)
    (l : list X) :
  (forall x, In x l -> exists y, f x = inr y /\ P x y) ->
  exists ys, traverse f l = inr ys /\ Forall2 P l ys.
Proof.
  induction l as [|x l IH]; intros H.
  - exists []. split; [reflexivity|constructor].
  - destruct (H x (or_introl eq_refl)) as [y [Hy HP]].
    destruct IH as [ys [Hys HF]]; [intros z Hz; apply H; now right|].
    exists (y :: ys). split; [|now constructor].
    cbn [traverse]. now rewrite Hy, Hys.
Qed.

Section BalancerFacts.

Variable Item A : Type.
Variable eqb leb : A -> A -> bool.
Hypothesis eqb_spec : forall a b, eqb a b = true <-> a = b.

Lemma dedup_In (x : A) (l : list A) : In x (dedup eqb l) <-> In x l.
Proof.
  induction l as [|y l IH]; cbn [dedup]; [tauto|].
  destruct (existsb (eqb y) l) eqn:E.
  - rewrite IH. split; [now right|]. intros [<-|H]; [|exact H].
    apply existsb_exists in E. destruct E as [z [Hz E]].
    apply eqb_spec in E. now subst.
  - cbn [In]. now rewrite IH.
Qed.

Lemma unique_In (x : A) (l : list A) : In x (unique eqb leb l) <-> In x l.
Proof. unfold unique. now rewrite sort_In, dedup_In. Qed.

Lemma index_In (x : A) (l : list A) :
  In x l -> exists k, index eqb x l = inr k /\ nth_error l k = Some x.
Proof.
  induction l as [|y l IH]; [intros []|]. intros H. cbn [index].
  destruct (eqb y x) eqn:E.
  - apply eqb_spec in E. subst. now exists 0%nat.
  - destruct H as [->|H].
    + assert (eqb x x = true) by now apply eqb_spec. congruence.
    + destruct (IH H) as [k [-> Hk]]. now exists (S k).
Qed.

Lemma count_pos (x : A) (l : list A) : In x l -> (0 < count eqb x l)%nat.
Proof.
  intros H. unfold count.
  assert (Hin : In x (filter (fun y => eqb y x) l)).
  { apply filter_In. split; [exact H|now apply eqb_spec]. }
  destruct (filter _ l); [destruct Hin|cbn [length]; lia].
Qed.

Local Open Scope R_scope.

Lemma rsum_scaled_squares (n : R) (l : list R) :
  n <> 0 ->
  rsum (map (fun w => w * w) (map (fun w => w / n) l)) =
  rsum (map (fun w => w * w) l) / (n * n).
Proof.
  intros Hn. unfold rsum. induction l as [|w l IH]; cbn [map fold_right].
  - field. exact Hn.
  - rewrite IH. field. exact Hn.
Qed.

Lemma rsum_squares_pos (l : list R) :
  l <> [] -> Forall (fun w => 0 < w) l -> 0 < rsum (map (fun w => w * w) l).
Proof.
  intros Hne Hl. unfold rsum.
  assert (Hge : forall l', 0 <= fold_right Rplus 0 (map (fun w => w * w) l')).
  { induction l' as [|w l' IH]; cbn [map fold_right]; [apply Rle_refl|].
    generalize (Rle_0_sqr w). unfold Rsqr. Lra.lra. }
  destruct l as [|w l]; [congruence|]. cbn [map fold_right].
  inversion Hl as [|? ? Hw _]; subst.
  assert (0 < w * w) by now apply Rmult_lt_0_compat.
  generalize (Hge l). Lra.lra.
Qed.

Lemma class_weight_map (attr_name : Item -> A) (a : A) (h : Item -> R) (g : R)
    (items : list Item) :
  (forall it, In it items -> attr_name it = a -> h it = g) ->
  class_weight eqb items attr_name a (map h items) =
  INR (count eqb a (map attr_name items)) * g.
Proof.
  unfold class_weight, count, rsum.
  induction items as [|it items IH]; intros H.
  - cbn. Lra.lra.
  - assert (IH' := IH (fun it' Hit' => H it' (or_intror Hit'))). clear IH.
    cbn [map combine filter fst].
    destruct (eqb (attr_name it) a) eqn:E.
    + cbn [map snd fold_right length]. rewrite IH', S_INR.
      rewrite (H it (or_introl eq_refl)) by now apply eqb_spec.
      Lra.lra.
    + exact IH'.
Qed.

Lemma balancer_normalised (items : list Item) (attr_name : Item -> A)
    (multi_dict : option (list (A * R))) :
  items <> [] ->
  let S := map attr_name items in
  let U := unique eqb leb S in
  exists n,
    0 < n /\
    n * n = rsum (map (fun it => (1 / INR (count eqb (attr_name it) S)) *
                                 (1 / INR (count eqb (attr_name it) S))) items) /\
    get_attribute_balancer_weights eqb leb items attr_name multi_dict =
      match multi_dict with
      | None =>
          let w := map (fun it => 1 / INR (count eqb (attr_name it) S) / n) items in
          inr (w, U, unique Reqb Rleb w)
      | Some d =>
          if forallb (fun kv => existsb (fun u => eqb u (fst kv)) U) d
          then
            let w := map (fun it => 1 / INR (count eqb (attr_name it) S) / n *
                                    get eqb d (attr_name it) 1) items in
            inr (w, U, unique Reqb Rleb w)
          else inl (Other AssertionError)
      end.
Proof.
  intros Hne S U.
  set (f := fun a : A => 1 / INR (count eqb a S)).
  assert (Hfpos : forall a, In a S -> 0 < f a).
  { intros a Ha. unfold f. apply Rdiv_lt_0_compat; [Lra.lra|].
    apply lt_0_INR. now apply count_pos. }
  destruct (traverse_Forall2 (fun l => index eqb l U)
              (fun s k => nth_error U k = Some s) S) as [idx [Hidx HF]].
  { intros s Hs. apply index_In. now apply unique_In. }
  assert (Hw : traverse (fun l => match nth_error
                           (map (fun c => 1 / INR c)
                                (map (fun l => count eqb l S) U)) l with
                         | Some w => inr w
                         | None => inl (Other IndexError)
                         end) idx = inr (map f S)).
  { clear Hidx. rewrite map_map.
    assert (Hgen : forall l ks,
              Forall2 (fun s k => nth_error U k = Some s) l ks ->
              traverse (fun l => match nth_error
                                   (map (fun x => 1 / INR (count eqb x S)) U) l with
                                 | Some w => inr w
                                 | None => inl (Other IndexError)
                                 end) ks = inr (map f l)).
    { intros l ks H. induction H as [|s k l' ks' Hk _ IH]; [reflexivity|].
      cbn [traverse map]. rewrite (map_nth_error _ _ _ Hk), IH. reflexivity. }
    now apply Hgen. }
  assert (Hall : Forall (fun w => 0 < w) (map f S)).
  { apply Forall_forall. intros w Hw'. apply in_map_iff in Hw'.
    destruct Hw' as [a [<- Ha]]. now apply Hfpos. }
  assert (Hsq : 0 < rsum (map (fun w => w * w) (map f S))).
  { apply rsum_squares_pos; [|exact Hall].
    unfold S. destruct items; [congruence|discriminate]. }
  exists (norm (map f S)).
  split; [unfold norm; now apply sqrt_lt_R0|]. split.
  - unfold norm. rewrite sqrt_sqrt by Lra.lra.
    change (map f S) with (map f (map attr_name items)).
    now rewrite !map_map.
  - unfold get_attribute_balancer_weights. fold S. fold U.
    rewrite Hidx, Hw. cbv zeta.
    assert (Hbase : map (fun w => w / norm (map f S)) (map f S) =
                    map (fun it => 1 / INR (count eqb (attr_name it) S) /
                                   norm (map f S)) items).
    { change (map f S) with (map f (map attr_name items)) at 2.
      now rewrite !map_map. }
    rewrite Hbase. destruct multi_dict as [d|]; [|reflexivity].
    now rewrite map2_map.
Qed.

(** X15.  Without multipliers, and for a non-empty list of items,
    [get_attribute_balancer_weights] raises nothing and returns one positive
    weight per item, in item order; the weights have Euclidean norm 1, and
    every attribute value that occurs gets the same total weight, however
    many items carry it. *)
Theorem balancer_weights_equalise_classes (items : list Item)
    (attr_name : Item -> A) :
  items <> [] ->
  exists weights unique_weights,
    get_attribute_balancer_weights eqb leb items attr_name None =
      inr (weights, unique eqb leb (map attr_name items), unique_weights) /\
    length weights = length items /\
    Forall (fun w => 0 < w) weights /\
    rsum (map (fun w => w * w) weights) = 1 /\
    exists total, 0 < total /\
      forall it, In it items ->
        class_weight eqb items attr_name (attr_name it) weights = total.
Proof.
  intros Hne.
  destruct (balancer_normalised items attr_name None Hne) as [n [Hn [Hnn Hres]]].
  cbv zeta in Hres. set (S := map attr_name items) in *.
  assert (Hc : forall it, In it items -> 0 < INR (count eqb (attr_name it) S)).
  { intros it Hit. apply lt_0_INR. apply count_pos. unfold S. now apply in_map. }
  eexists. eexists. split; [exact Hres|].
  split; [now rewrite length_map|]. split; [|split].
  - apply Forall_forall. intros w Hw. apply in_map_iff in Hw.
    destruct Hw as [it [<- Hit]]. specialize (Hc it Hit).
    apply Rdiv_lt_0_compat; [|exact Hn].
    apply Rdiv_lt_0_compat; [Lra.lra|exact Hc].
  - rewrite map_map.
    replace (map (fun it => 1 / INR (count eqb (attr_name it) S) / n *
                            (1 / INR (count eqb (attr_name it) S) / n)) items)
      with (map (fun w => w / (n * n))
              (map (fun it => 1 / INR (count eqb (attr_name it) S) *
                              (1 / INR (count eqb (attr_name it) S))) items)).
    + assert (Hlin : forall l c, rsum (map (fun w => w / c) l) = rsum l / c).
      { intros l c. unfold rsum. induction l as [|w l IH]; cbn [map fold_right].
        - unfold Rdiv. now rewrite Rmult_0_l.
        - rewrite IH. unfold Rdiv. now rewrite Rmult_plus_distr_r. }
      rewrite Hlin, <- Hnn. field. Lra.lra.
    + rewrite map_map. apply map_ext_in. intros it Hit. specialize (Hc it Hit).
      field. split; Lra.lra.
  - exists (1 / n). split; [apply Rdiv_lt_0_compat; Lra.lra|].
    intros it Hit.
    rewrite (class_weight_map attr_name (attr_name it) _
               (1 / INR (count eqb (attr_name it) S) / n))
      by (intros it' _ ->; reflexivity).
    specialize (Hc it Hit). fold S. field. split; Lra.lra.
Qed.

(** X16.  With multipliers on a non-empty list of items,
    [get_attribute_balancer_weights] fails its assertion exactly when some
    key of the multipliers is not the attribute of any item; otherwise the
    total weight of every attribute value that occurs is one common amount
    times its multiplier, 1 for a value without one. *)
Theorem balancer_weights_multipliers (items : list Item) (attr_name : Item -> A)
    (multi_dict : list (A * R)) :
  items <> [] ->
  ((exists kv, In kv multi_dict /\ ~ In (fst kv) (map attr_name items)) ->
   get_attribute_balancer_weights eqb leb items attr_name (Some multi_dict) =
     inl (Other AssertionError)) /\
  ((forall kv, In kv multi_dict -> In (fst kv) (map attr_name items)) ->
   exists weights unique_weights,
     get_attribute_balancer_weights eqb leb items attr_name (Some multi_dict) =
       inr (weights, unique eqb leb (map attr_name items), unique_weights) /\
     length weights = length items /\
     exists total, 0 < total /\
       forall it, In it items ->
         class_weight eqb items attr_name (attr_name it) weights =
         total * get eqb multi_dict (attr_name it) 1).
Proof.
  intros Hne.
  destruct (balancer_normalised items attr_name (Some multi_dict) Hne)
    as [n [Hn [_ Hres]]].
  cbv zeta in Hres. set (S := map attr_name items) in *.
  assert (Hkeys : forallb (fun kv => existsb (fun u => eqb u (fst kv))
                                       (unique eqb leb S)) multi_dict = true <->
                  forall kv, In kv multi_dict -> In (fst kv) S).
  { rewrite forallb_forall. split; intros H kv Hkv.
    - specialize (H kv Hkv). apply existsb_exists in H.
      destruct H as [u [Hu E]]. apply eqb_spec in E. subst u.
      exact (proj1 (unique_In _ _) Hu).
    - apply existsb_exists. exists (fst kv). split.
      + apply (proj2 (unique_In _ _)). now apply H.
      + now apply eqb_spec. }
  split.
  - intros [kv [Hkv Hnot]]. rewrite Hres.
    destruct (forallb _ multi_dict) eqn:E; [|reflexivity].
    exfalso. apply Hnot. now apply Hkeys.
  - intros Hall. apply Hkeys in Hall. rewrite Hall in Hres.
    eexists. eexists. split; [exact Hres|].
    split; [now rewrite length_map|].
    exists (1 / n). split; [apply Rdiv_lt_0_compat; Lra.lra|].
    intros it Hit.
    rewrite (class_weight_map attr_name (attr_name it) _
               (1 / INR (count eqb (attr_name it) S) / n *
                get eqb multi_dict (attr_name it) 1))
      by (intros it' _ ->; reflexivity).
    assert (0 < INR (count eqb (attr_name it) S)).
    { apply lt_0_INR. apply count_pos. unfold S. now apply in_map. }
    fold S. field. split; Lra.lra.
Qed.

End BalancerFacts.

Lemma balancer_weights_equalise_classes_witness :
  exists weights,
    length weights = 3%nat /\ rsum (map (fun w => (w * w)%R) weights) = 1%R.
Proof.
  destruct (balancer_weights_equalise_classes nat nat Nat.eqb Nat.leb Nat.eqb_eq
              [1; 1; 2]%nat (fun x => x) ltac:(discriminate))
    as [w [uw [_ [Hl [_ [Hs _]]]]]].
  exists w. split; assumption.
Defined.

Lemma balancer_weights_multipliers_witness :
  get_attribute_balancer_weights Nat.eqb Nat.leb [1; 1; 2]%nat (fun x => x)
    (Some [(3%nat, 2%R)]) = inl (Other AssertionError).
Proof.
  apply (proj1 (balancer_weights_multipliers nat nat Nat.eqb Nat.leb Nat.eqb_eq
                  [1; 1; 2]%nat (fun x => x) [(3%nat, 2%R)] ltac:(discriminate))).
  exists (3%nat, 2%R). split; [now left|].
  cbn. intros [H|[H|[H|[]]]]; discriminate.
Defined.

(** ** The pitch transforms on float32 tensors *)

Import Float32.

(** C7, as stated, fails on the float32 tensors the code computes on.  The
    pitch values 440 and 440 + 2^-15 are both float32 values, and
    [1. + pitch / 700.] rounds to the same float32 value for both.  All that
    [forward] and [inference] compute afterwards is a function of that
    value, so whatever the remaining operations are, the inverse transform
    cannot give back both pitch values. *)
Lemma pitch_round_trip_inexact_float32 :
  round32 440 = Some 440%Q /\
  round32 (14417921 # 32768) = Some (14417921 # 32768)%Q /\
  ~ (440 == 14417921 # 32768)%Q /\
  pitch_shifted 440 = pitch_shifted (14417921 # 32768) /\
  ~ exists rest : option Q -> option Q,
      returns (rest (pitch_shifted 440)) 440 /\
      returns (rest (pitch_shifted (14417921 # 32768))) (14417921 # 32768).
Proof.
  assert (Hsame : pitch_shifted 440 = pitch_shifted (14417921 # 32768))
    by (vm_compute; reflexivity).
  assert (Hne : ~ (440 == 14417921 # 32768)%Q)
    by (unfold Qeq; cbn; lia).
  split; [vm_compute; reflexivity|].
  split; [vm_compute; reflexivity|].
  split; [exact Hne|]. split; [exact Hsame|].
  intros [rest [H1 H2]]. rewrite <- Hsame in H2. unfold returns in *.
  destruct (rest (pitch_shifted 440)) as [v|]; [|exact H1].
  apply Hne. now rewrite <- H1, <- H2.
Qed.
